(** * wyag: object store, record codecs, staging index and tree builder

    A shallow embedding of [objects.py], [index.py] and the parts of
    [repo.py] they call, together with the properties of the storage
    engine that are stated in the specification.

    Conventions of the embedding.
    - Python [bytes] are lists of [byte].  Python [str] values are
      represented by their UTF-8 encoding, so [s.encode("utf8")] is the
      identity and [b.decode("utf8")] is a validity check; operations that
      count characters ([len], slicing, indexing) count code points.
    - Python [int] is [Z].
    - A Python call either returns, raises, or does not terminate; this is
      the three-valued [result].  Loops and recursions whose termination
      depends on the input take a fuel argument and answer [Diverge] when
      it runs out.  [kvlm_parse] calls itself once for every line of a
      commit, so it is bounded by the interpreter's recursion limit and
      raises [RecursionError] beyond it; the limit is a parameter
      ([Interpreter]).
    - The file system is an explicit state (a finite map from absolute
      paths to nodes) threaded through the functions that touch it. *)

From Stdlib Require Import ZArith Lia Bool.
From Stdlib Require Import Strings.String.
From Stdlib Require Import Init.Byte.
From Stdlib Require Strings.Byte.
From stdpp Require Import base list sorting gmap.

Local Open Scope Z_scope.

(** ** Bytes *)

Abbreviation bytes := (list byte).
Abbreviation str := (list byte).

(** A byte-string literal: [B "tree"] is [b'tree']. *)
Definition B (s : string) : bytes := list_byte_of_string s.

Definition byte_val (b : byte) : Z := Z.of_N (Byte.to_N b).

Definition byte_of (z : Z) : byte :=
  match Byte.of_N (Z.to_N (z mod 256)) with
  | Some b => b
  | None => Byte.x00
  end.

Definition byte_eqb (a b : byte) : bool := Byte.eqb a b.

#[global] Instance byte_eq_dec : EqDecision byte := Byte.byte_eq_dec.

#[global] Instance byte_countable : Countable byte.
Proof.
  refine (inj_countable' Byte.to_N
            (fun n => match Byte.of_N n with Some b => b | None => Byte.x00 end) _).
  intros x. by rewrite Byte.of_to_N.
Defined.

Definition SP : byte := Byte.x20.
Definition NUL : byte := Byte.x00.
Definition NL : byte := Byte.x0a.
Definition SLASH : byte := Byte.x2f.

Definition blen (l : bytes) : Z := Z.of_nat (length l).

(** ** Exceptions and results *)

Inductive exn : Type :=
  (* built-in exceptions *)
  | AssertionError
  | ValueError
  | IndexError
  | KeyError
  | TypeError
  | AttributeError
  | OverflowError
  | UnicodeDecodeError
  | OSError
  | FileExistsError
  | ZlibError
  | RecursionError
  (* [raise Exception(...)] sites of the repository *)
  | PathTraversal (destination gitdir : str)
  | NotADirectory (path : str)
  | MalformedObject (sha : str)
  | UnknownType (fmt : bytes) (sha : str)
  | NoSuchReference (name : str)
  | AmbiguousReference (name : str) (candidates : list str)
  | CannotRemoveOutside (paths : list str)
  | CannotRemoveNotInIndex (paths : list str)
  | NotInWorktree (paths : list str)
  | NotAFile (paths : list str).

#[global] Instance exn_eq_dec : EqDecision exn.
Proof. solve_decision. Defined.

Inductive result (A : Type) : Type :=
  | Ok (a : A)
  | Raise (e : exn)
  | Diverge.
Arguments Ok {A} a.
Arguments Raise {A} e.
Arguments Diverge {A}.

#[global] Instance result_eq_dec {A} `{EqDecision A} : EqDecision (result A).
Proof. solve_decision. Defined.

#[global] Instance result_ret : MRet result := fun A a => Ok a.

#[global] Instance result_bind : MBind result := fun A C k r =>
  match r with
  | Ok a => k a
  | Raise e => Raise e
  | Diverge => Diverge
  end.

(** [assert c] *)
Definition assert (c : bool) : result unit :=
  if c then Ok tt else Raise AssertionError.

(** A Python value that may be [None], used where the source tests it. *)
Definition of_option {A} (e : exn) (o : option A) : result A :=
  match o with
  | Some a => Ok a
  | None => Raise e
  end.

(** ** Indexing, slicing and searching

    Python clamps slice bounds: a negative bound counts from the end, and
    a bound outside the sequence is moved to the nearest end. *)

Definition clamp (n i : Z) : Z :=
  if i <? 0 then Z.max (i + n) 0 else Z.min i n.

(** [l[a:b]] *)
Definition slice {A} (l : list A) (a b : Z) : list A :=
  let n := Z.of_nat (length l) in
  let a' := clamp n a in
  let b' := clamp n b in
  take (Z.to_nat (b' - a')) (drop (Z.to_nat a') l).

(** [l[a:]] *)
Definition slice_from {A} (l : list A) (a : Z) : list A :=
  drop (Z.to_nat (clamp (Z.of_nat (length l)) a)) l.

(** [l[i]]: negative indices count from the end, anything else outside
    the sequence raises [IndexError]. *)
Definition item {A} (l : list A) (i : Z) : result A :=
  let n := Z.of_nat (length l) in
  let j := if i <? 0 then i + n else i in
  if (j <? 0) || (n <=? j) then Raise IndexError
  else match l !! Z.to_nat j with
       | Some x => Ok x
       | None => Raise IndexError
       end.

Fixpoint index_of (c : byte) (l : bytes) : option nat :=
  match l with
  | [] => None
  | x :: l' => if byte_eqb x c then Some O else S <$> index_of c l'
  end.

(** [l.find(bytes([c]), start)] for a one-byte needle. *)
Definition find (c : byte) (l : bytes) (start : Z) : Z :=
  let s := clamp (blen l) start in
  match index_of c (drop (Z.to_nat s) l) with
  | Some i => s + Z.of_nat i
  | None => -1
  end.

Fixpoint rindex_of (c : byte) (l : bytes) : option nat :=
  match l with
  | [] => None
  | x :: l' =>
      match rindex_of c l' with
      | Some i => Some (S i)
      | None => if byte_eqb x c then Some O else None
      end
  end.

(** [l.rfind(bytes([c]))] *)
Definition rfind (c : byte) (l : bytes) : Z :=
  match rindex_of c l with
  | Some i => Z.of_nat i
  | None => -1
  end.

Fixpoint startswith (p l : bytes) : bool :=
  match p, l with
  | [], _ => true
  | _ :: _, [] => false
  | x :: p', y :: l' => byte_eqb x y && startswith p' l'
  end.

Definition endswith (p l : bytes) : bool :=
  startswith (rev p) (rev l).

Definition bytes_eqb (a b : bytes) : bool := bool_decide (a = b).

(** [s.replace(bytes([c]), new)] for a one-byte pattern. *)
Fixpoint replace1 (c : byte) (new : bytes) (s : bytes) : bytes :=
  match s with
  | [] => []
  | x :: s' => if byte_eqb x c then new ++ replace1 c new s'
               else x :: replace1 c new s'
  end.

(** [s.replace(bytes([c1, c2]), new)] for a two-byte pattern; occurrences
    are replaced left to right and do not overlap. *)
Fixpoint replace2 (c1 c2 : byte) (new : bytes) (s : bytes) : bytes :=
  match s with
  | [] => []
  | x :: s' =>
      match s' with
      | y :: s'' =>
          if byte_eqb x c1 && byte_eqb y c2 then new ++ replace2 c1 c2 new s''
          else x :: replace2 c1 c2 new s'
      | [] => [x]
      end
  end.

(** Lexicographic order on byte strings; on [str] this is Python's
    code point order, which UTF-8 preserves. *)
Fixpoint bytes_leb (a b : bytes) : bool :=
  match a, b with
  | [], _ => true
  | _ :: _, [] => false
  | x :: a', y :: b' =>
      if byte_val x <? byte_val y then true
      else if byte_val y <? byte_val x then false
      else bytes_leb a' b'
  end.

(** ** Sorting

    [list.sort] and [sorted] are stable: elements with equal keys keep
    their relative order, also with [reverse=True].  [x] is inserted in
    front of the first element it is not greater than. *)

Fixpoint insert_by {A} (leb : A -> A -> bool) (x : A) (l : list A) : list A :=
  match l with
  | [] => [x]
  | y :: l' => if leb x y then x :: y :: l' else y :: insert_by leb x l'
  end.

Definition sort_by {A} (leb : A -> A -> bool) (l : list A) : list A :=
  foldr (insert_by leb) [] l.

(** ** Integers and their renderings *)

(** [int.from_bytes(bs, "big")] *)
Definition from_bytes (bs : bytes) : Z :=
  foldl (fun acc b => acc * 256 + byte_val b) 0 bs.

Fixpoint be_bytes (len : nat) (n : Z) : bytes :=
  match len with
  | O => []
  | S k => be_bytes k (n / 256) ++ [byte_of n]
  end.

(** [n.to_bytes(len, "big")] *)
Definition to_bytes (n : Z) (len : nat) : result bytes :=
  if (n <? 0) || (256 ^ Z.of_nat len <=? n) then Raise OverflowError
  else Ok (be_bytes len n).

Definition digit_char (d : Z) : byte :=
  if d <? 10 then byte_of (48 + d) else byte_of (87 + d).

Fixpoint digits_aux (fuel : nat) (base n : Z) (acc : list Z) : list Z :=
  match fuel with
  | O => acc
  | S f => if n <? base then n :: acc
           else digits_aux f base (n / base) (n mod base :: acc)
  end.

(** The digits of [n >= 0] in [base], most significant first. *)
Definition digits (base n : Z) : list Z :=
  digits_aux (S (Z.to_nat (Z.log2 n))) base n [].

Definition render (base n : Z) : bytes :=
  digit_char <$> digits base n.

(** [str(n)] *)
Definition str_of_int (n : Z) : str :=
  if n <? 0 then Byte.x2d :: render 10 (- n) else render 10 n.

(** [format(n, "0<width><x|o>")]: zero padding goes between the sign and
    the digits, and the sign counts towards the width. *)
Definition format_zero (base : Z) (width : nat) (n : Z) : str :=
  let ds := render base (Z.abs n) in
  if n <? 0 then Byte.x2d :: replicate (width - 1 - length ds)%nat Byte.x30 ++ ds
  else replicate (width - length ds)%nat Byte.x30 ++ ds.

Definition format_040x (n : Z) : str := format_zero 16 40 n.

Definition is_space (b : byte) : bool :=
  let v := byte_val b in
  ((9 <=? v) && (v <=? 13)) || ((28 <=? v) && (v <=? 32)).

Definition digit_val (b : byte) : option Z :=
  let v := byte_val b in
  if (48 <=? v) && (v <=? 57) then Some (v - 48)
  else if (97 <=? v) && (v <=? 122) then Some (v - 87)
  else if (65 <=? v) && (v <=? 90) then Some (v - 55)
  else None.

Definition UNDERSCORE : byte := Byte.x5f.

Fixpoint skip_spaces (s : bytes) : bytes :=
  match s with
  | [] => []
  | c :: s' => if is_space c then skip_spaces s' else s
  end.

(** The digits of an integer literal, with single underscores allowed
    between them; returns the value and what follows the literal. *)
Fixpoint scan_digits (base : Z) (s : bytes) (prev_us : bool) (ndig : nat)
    (acc : Z) : option (Z * bytes) :=
  let stop := if prev_us || bool_decide (ndig = O) then None
              else Some (acc, s) in
  match s with
  | [] => stop
  | c :: s' =>
      if byte_eqb c UNDERSCORE then
        if prev_us then None else scan_digits base s' true ndig acc
      else
        match digit_val c with
        | Some d => if d <? base
                    then scan_digits base s' false (S ndig) (acc * base + d)
                    else stop
        | None => stop
        end
  end.

(** [int(s, base)] for [base] 10 or 16.  Surrounding white space, a sign,
    the [0x] prefix of base 16 and underscores between digits are accepted
    as Python accepts them.  Only the ASCII digits and spaces are
    recognised (Python also takes the other Unicode decimal digits and
    spaces), and the interpreter's limit on the number of decimal digits
    is not modelled. *)
Definition int_of_str (base : Z) (s : str) : result Z :=
  let s1 := skip_spaces s in
  let '(neg, s2) :=
    match s1 with
    | c :: t => if byte_eqb c Byte.x2b then (false, t)
                else if byte_eqb c Byte.x2d then (true, t)
                else (false, s1)
    | [] => (false, s1)
    end in
  let s3 :=
    match s2 with
    | c0 :: cx :: t =>
        if (base =? 16) && byte_eqb c0 Byte.x30
           && (byte_eqb cx Byte.x78 || byte_eqb cx Byte.x58)
        then match t with
             | u :: t' => if byte_eqb u UNDERSCORE then t' else t
             | [] => t
             end
        else s2
    | _ => s2
    end in
  match s3 with
  | c :: _ =>
      if byte_eqb c UNDERSCORE then Raise ValueError
      else match scan_digits base s3 false O 0 with
           | Some (v, rest) =>
               match skip_spaces rest with
               | [] => Ok (if neg then - v else v)
               | _ :: _ => Raise ValueError
               end
           | None => Raise ValueError
           end
  | [] => Raise ValueError
  end.

(** ** UTF-8 and code points *)

Definition in_range (lo hi : Z) (b : byte) : bool :=
  (lo <=? byte_val b) && (byte_val b <=? hi).

Definition is_cont (b : byte) : bool := in_range 128 191 b.

(** Well-formed UTF-8 (no overlong forms, no surrogates, at most U+10FFFF),
    which is what the strict [utf8] codec accepts. *)
Fixpoint utf8_valid (s : bytes) : bool :=
  match s with
  | [] => true
  | b0 :: s1 =>
      if in_range 0 127 b0 then utf8_valid s1
      else match s1 with
      | b1 :: s2 =>
          if in_range 194 223 b0 then is_cont b1 && utf8_valid s2
          else match s2 with
          | b2 :: s3 =>
              if in_range 224 239 b0 then
                (if byte_eqb b0 Byte.xe0 then in_range 160 191 b1
                 else if byte_eqb b0 Byte.xed then in_range 128 159 b1
                 else is_cont b1)
                && is_cont b2 && utf8_valid s3
              else match s3 with
              | b3 :: s4 =>
                  in_range 240 244 b0
                  && (if byte_eqb b0 Byte.xf0 then in_range 144 191 b1
                      else if byte_eqb b0 Byte.xf4 then in_range 128 143 b1
                      else is_cont b1)
                  && is_cont b2 && is_cont b3 && utf8_valid s4
              | [] => false
              end
          | [] => false
          end
      | [] => false
      end
  end.

(** [b.decode("utf8")] *)
Definition decode_utf8 (b : bytes) : result str :=
  if utf8_valid b then Ok b else Raise UnicodeDecodeError.

(** [b.decode("ascii")] *)
Definition decode_ascii (b : bytes) : result str :=
  if forallb (in_range 0 127) b then Ok b else Raise UnicodeDecodeError.

(** [s.encode("utf8")] and [s.encode("ascii")] *)
Definition encode_utf8 (s : str) : bytes := s.

Definition encode_ascii (s : str) : result bytes :=
  if forallb (in_range 0 127) s then Ok s else Raise UnicodeDecodeError.

(** The characters of a [str]: a new one starts at every byte that is not
    a continuation byte. *)
Fixpoint codepoints (s : str) : list bytes :=
  match s with
  | [] => []
  | b :: s' =>
      match codepoints s' with
      | (c0 :: _) as c :: cs =>
          if is_cont c0 then (b :: c) :: cs else [b] :: c :: cs
      | cs => [b] :: cs
      end
  end.

(** [len(s)], [s[a:b]] and [s[a:]] on a [str] *)
Definition str_len (s : str) : Z := Z.of_nat (length (codepoints s)).

Definition str_slice (s : str) (a b : Z) : str :=
  concat (slice (codepoints s) a b).

Definition str_slice_from (s : str) (a : Z) : str :=
  concat (slice_from (codepoints s) a).

(** [s.lower()] on the ASCII letters (the only cased characters of a
    string that matched the hexadecimal pattern). *)
Definition ascii_lower (s : str) : str :=
  (fun b => if in_range 65 90 b then byte_of (byte_val b + 32) else b) <$> s.

(** The characters [str.strip()] removes, in UTF-8: U+0009 to U+000D,
    U+001C to U+0020, U+0085, U+00A0, U+1680, U+2000 to U+200A, U+2028,
    U+2029, U+202F, U+205F and U+3000. *)
Definition is_space_char (c : bytes) : bool :=
  match c with
  | [b] => is_space b
  | [b0; b1] =>
      byte_eqb b0 Byte.xc2 && (byte_eqb b1 Byte.x85 || byte_eqb b1 Byte.xa0)
  | [b0; b1; b2] =>
      (byte_eqb b0 Byte.xe1 && byte_eqb b1 Byte.x9a && byte_eqb b2 Byte.x80)
      || (byte_eqb b0 Byte.xe2 && byte_eqb b1 Byte.x80
          && (in_range 128 138 b2 || byte_eqb b2 Byte.xa8
              || byte_eqb b2 Byte.xa9 || byte_eqb b2 Byte.xaf))
      || (byte_eqb b0 Byte.xe2 && byte_eqb b1 Byte.x81 && byte_eqb b2 Byte.x9f)
      || (byte_eqb b0 Byte.xe3 && byte_eqb b1 Byte.x80 && byte_eqb b2 Byte.x80)
  | _ => false
  end.

(** [s.strip()] is empty exactly when every character is white space;
    this is all [object_resolve] asks of it. *)
Definition strip_is_empty (s : str) : bool :=
  forallb is_space_char (codepoints s).

(** ** SHA-1 ([hashlib.sha1]) on 32-bit words held in [Z] *)

Module SHA1.

Definition w32 (x : Z) : Z := x mod 2 ^ 32.

Definition rotl (n x : Z) : Z :=
  w32 (Z.lor (Z.shiftl x n) (Z.shiftr x (32 - n))).

Definition lnot32 (x : Z) : Z := Z.lxor x (2 ^ 32 - 1).

(** Message padding: a [0x80] byte, zeros up to 56 modulo 64, and the
    bit length as a 64-bit big-endian integer. *)
Definition pad (msg : bytes) : bytes :=
  let n := blen msg in
  let k := (55 - n) mod 64 in
  msg ++ [Byte.x80] ++ replicate (Z.to_nat k) Byte.x00 ++ be_bytes 8 (8 * n).

Fixpoint words (n : nat) (bs : bytes) : list Z :=
  match n with
  | O => []
  | S k => from_bytes (take 4 bs) :: words k (drop 4 bs)
  end.

(** The message schedule, most recent word first. *)
Fixpoint schedule (n : nat) (rev_w : list Z) : list Z :=
  match n with
  | O => rev_w
  | S k =>
      let w := rotl 1 (Z.lxor (Z.lxor (nth 2 rev_w 0) (nth 7 rev_w 0))
                              (Z.lxor (nth 13 rev_w 0) (nth 15 rev_w 0))) in
      schedule k (w :: rev_w)
  end.

Definition state : Type := Z * Z * Z * Z * Z.

Definition round (i : nat) (s : state) (w : Z) : state :=
  let '(a, b, c, d, e) := s in
  let '(f, k) :=
    if (i <? 20)%nat then
      (Z.lor (Z.land b c) (Z.land (lnot32 b) d), 0x5A827999)
    else if (i <? 40)%nat then
      (Z.lxor (Z.lxor b c) d, 0x6ED9EBA1)
    else if (i <? 60)%nat then
      (Z.lor (Z.lor (Z.land b c) (Z.land b d)) (Z.land c d), 0x8F1BBCDC)
    else
      (Z.lxor (Z.lxor b c) d, 0xCA62C1D6) in
  (w32 (rotl 5 a + f + e + k + w), a, rotl 30 b, c, d).

Fixpoint rounds (i : nat) (ws : list Z) (s : state) : state :=
  match ws with
  | [] => s
  | w :: ws' => rounds (S i) ws' (round i s w)
  end.

Definition compress (h : state) (block : bytes) : state :=
  let ws := rev (schedule 64 (rev (words 16 block))) in
  let '(h0, h1, h2, h3, h4) := h in
  let '(a, b, c, d, e) := rounds 0 ws h in
  (w32 (h0 + a), w32 (h1 + b), w32 (h2 + c), w32 (h3 + d), w32 (h4 + e)).

Fixpoint blocks (n : nat) (bs : bytes) (h : state) : state :=
  match n with
  | O => h
  | S k => blocks k (drop 64 bs) (compress h (take 64 bs))
  end.

Definition init : state :=
  (0x67452301, 0xEFCDAB89, 0x98BADCFE, 0x10325476, 0xC3D2E1F0).

(** The digest as a 160-bit integer. *)
Definition digest (msg : bytes) : Z :=
  let p := pad msg in
  let '(h0, h1, h2, h3, h4) := blocks (length p / 64)%nat p init in
  Z.lor (Z.shiftl h0 128)
    (Z.lor (Z.shiftl h1 96)
       (Z.lor (Z.shiftl h2 64) (Z.lor (Z.shiftl h3 32) h4))).

(** [hashlib.sha1(msg).hexdigest()] *)
Definition hexdigest (msg : bytes) : str :=
  format_040x (digest msg mod 2 ^ 160).

End SHA1.

(** ** [os.path] (POSIX) *)

Module Path.

Definition isabs (p : str) : bool := startswith [SLASH] p.

(** [s.split("/")] *)
Fixpoint split (s : str) : list str :=
  match s with
  | [] => [[]]
  | c :: s' =>
      match split s' with
      | comp :: comps =>
          if byte_eqb c SLASH then [] :: comp :: comps
          else (c :: comp) :: comps
      | [] => [[c]]
      end
  end.

(** ["/".join(comps)] *)
Fixpoint join_sep (comps : list str) : str :=
  match comps with
  | [] => []
  | [c] => c
  | c :: cs => c ++ SLASH :: join_sep cs
  end.

Definition join2 (a b : str) : str :=
  if startswith [SLASH] b then b
  else if bool_decide (a = []) || endswith [SLASH] a then a ++ b
  else a ++ SLASH :: b.

(** [os.path.join(a, *ps)] *)
Definition join (a : str) (ps : list str) : str := foldl join2 a ps.

Definition DOT : str := [Byte.x2e].
Definition DOTDOT : str := [Byte.x2e; Byte.x2e].

Definition norm_step (initial_slashes : nat) (new_comps : list str)
    (comp : str) : list str :=
  if bool_decide (comp = []) || bool_decide (comp = DOT) then new_comps
  else if negb (bool_decide (comp = DOTDOT))
          || (bool_decide (initial_slashes = O)
              && bool_decide (new_comps = []))
          || match last new_comps with
             | Some l => bool_decide (l = DOTDOT)
             | None => false
             end
  then new_comps ++ [comp]
  else removelast new_comps.

(** [os.path.normpath(path)] *)
Definition normpath (path : str) : str :=
  match path with
  | [] => DOT
  | _ =>
      let initial_slashes : nat :=
        if startswith [SLASH] path then
          if startswith [SLASH; SLASH] path
             && negb (startswith [SLASH; SLASH; SLASH] path)
          then 2%nat else 1%nat
        else O in
      let comps := foldl (norm_step initial_slashes) [] (split path) in
      let p := replicate initial_slashes SLASH ++ join_sep comps in
      match p with [] => DOT | _ => p end
  end.

(** [os.path.abspath(path)] with the current directory [cwd] *)
Definition abspath (cwd path : str) : str :=
  normpath (if isabs path then path else join2 cwd path).

Definition rstrip_slash (s : str) : str :=
  rev (let fix go (r : str) : str :=
         match r with
         | c :: r' => if byte_eqb c SLASH then go r' else r
         | [] => []
         end in go (rev s)).

(** [os.path.dirname(p)] *)
Definition dirname (p : str) : str :=
  let i := rfind SLASH p + 1 in
  let head := slice p 0 i in
  if negb (bool_decide (head = []))
     && negb (bool_decide (head = replicate (length head) SLASH))
  then rstrip_slash head else head.

(** [os.path.basename(p)] *)
Definition basename (p : str) : str :=
  slice_from p (rfind SLASH p + 1).

(** [os.path.split(p)] *)
Definition split_path (p : str) : str * str := (dirname p, basename p).

Fixpoint common_prefix_len (a b : list str) : nat :=
  match a, b with
  | x :: a', y :: b' =>
      if bool_decide (x = y) then S (common_prefix_len a' b') else O
  | _, _ => O
  end.

(** [os.path.relpath(path, start)] *)
Definition relpath (cwd path start : str) : result str :=
  match path with
  | [] => Raise ValueError
  | _ =>
      let nonempty := filter (fun c : str => c <> []) in
      let start_list := nonempty (split (abspath cwd start)) in
      let path_list := nonempty (split (abspath cwd path)) in
      let i := common_prefix_len start_list path_list in
      let rel_list :=
        replicate (length start_list - i) DOTDOT ++ drop i path_list in
      match rel_list with
      | [] => Ok DOT
      | c :: cs => Ok (join c cs)
      end
  end.

End Path.

(** ** The file system

    Nodes are found under their absolute, normalised path: every path
    this program hands to the file system has been through
    [os.path.abspath], or extends such a path by names taken from a
    directory listing or from the index.  A directory lists the names of
    its children in the order [os.listdir] reports them.  There are no
    symbolic links. *)

Record stat_result : Type := {
  st_ctime : Z;       (* [int(st.st_ctime)], whole seconds *)
  st_ctime_ns : Z;
  st_mtime : Z;       (* [int(st.st_mtime)], whole seconds *)
  st_mtime_ns : Z;
  st_dev : Z;
  st_ino : Z;
  st_uid : Z;
  st_gid : Z
}.

#[global] Instance stat_result_eq_dec : EqDecision stat_result.
Proof. solve_decision. Defined.

Inductive node : Type :=
  | File (content : bytes) (st : stat_result)
  | Dir (names : list str).

#[global] Instance node_eq_dec : EqDecision node.
Proof. solve_decision. Defined.

Record filesystem : Type := {
  nodes : gmap bytes node;
  cwd : str;
  (* metadata given to the files this program creates *)
  new_stat : stat_result
}.

Definition exists_ (fs : filesystem) (p : str) : bool :=
  bool_decide (is_Some (nodes fs !! p)).

Definition isdir (fs : filesystem) (p : str) : bool :=
  match nodes fs !! p with Some (Dir _) => true | _ => false end.

Definition isfile (fs : filesystem) (p : str) : bool :=
  match nodes fs !! p with Some (File _ _) => true | _ => false end.

(** [os.listdir(p)] *)
Definition listdir (fs : filesystem) (p : str) : result (list str) :=
  match nodes fs !! p with
  | Some (Dir names) => Ok names
  | _ => Raise OSError
  end.

(** [open(p, "rb").read()] *)
Definition read_file (fs : filesystem) (p : str) : result bytes :=
  match nodes fs !! p with
  | Some (File content _) => Ok content
  | _ => Raise OSError
  end.

Definition with_nodes (fs : filesystem) (m : gmap bytes node) : filesystem :=
  {| nodes := m; cwd := cwd fs; new_stat := new_stat fs |}.

(** Enter [name] in the listing of the directory [parent]. *)
Definition link (parent name : str) (m : gmap bytes node) : gmap bytes node :=
  match m !! parent with
  | Some (Dir names) =>
      if bool_decide (name ∈ names) then m
      else <[parent := Dir (names ++ [name])]> m
  | _ => m
  end.

Definition unlink_name (parent name : str) (m : gmap bytes node)
    : gmap bytes node :=
  match m !! parent with
  | Some (Dir names) =>
      <[parent := Dir (filter (fun n => n <> name) names)]> m
  | _ => m
  end.

(** [os.mkdir(p)] *)
Definition mkdir (fs : filesystem) (p : str) : result filesystem :=
  if exists_ fs p then Raise FileExistsError
  else if negb (isdir fs (Path.dirname p)) then Raise OSError
  else Ok (with_nodes fs
             (<[p := Dir []]>
                (link (Path.dirname p) (Path.basename p) (nodes fs)))).

(** [os.makedirs(name)] *)
Fixpoint makedirs (fuel : nat) (fs : filesystem) (name : str)
    : result filesystem :=
  match fuel with
  | O => Diverge
  | S fuel' =>
      let '(head, tail) := Path.split_path name in
      let '(head, tail) :=
        if bool_decide (tail = []) then Path.split_path head
        else (head, tail) in
      if negb (bool_decide (head = [])) && negb (bool_decide (tail = []))
         && negb (exists_ fs head)
      then
        fs' ← match makedirs fuel' fs head with
              | Raise FileExistsError => Ok fs
              | r => r
              end;
        if bool_decide (tail = Path.DOT) then Ok fs' else mkdir fs' name
      else mkdir fs name
  end.

(** The effect of writing [content] to a temporary file made by
    [tempfile.mkstemp(dir=dirname(p))] and moving it over [p] with
    [os.replace]: the temporary name is gone again when this returns, so
    only [p] changes.  The directory has to exist and [p] must not be a
    directory. *)
Definition replace_file (fs : filesystem) (p : str) (content : bytes)
    : result filesystem :=
  if negb (isdir fs (Path.dirname p)) then Raise OSError
  else if isdir fs p then Raise OSError
  else Ok (with_nodes fs
             (<[p := File content (new_stat fs)]>
                (link (Path.dirname p) (Path.basename p) (nodes fs)))).

(** [os.unlink(p)] *)
Definition unlink (fs : filesystem) (p : str) : result filesystem :=
  if isfile fs p then
    Ok (with_nodes fs
          (delete p (unlink_name (Path.dirname p) (Path.basename p) (nodes fs))))
  else Raise OSError.

(** ** [repo.py] *)

Record GitRepository : Type := {
  worktree : str;
  gitdir : str
}.

Definition repo_path (fs : filesystem) (repository : GitRepository)
    (path : list str) : result str :=
  let destination :=
    Path.abspath (cwd fs) (Path.join (gitdir repository) path) in
  let gitdir_abs := Path.abspath (cwd fs) (gitdir repository) in
  if negb (startswith gitdir_abs destination)
  then Raise (PathTraversal destination gitdir_abs)
  else Ok destination.

Definition repo_dir (repository : GitRepository) (path : list str)
    (mkdir : bool) (fs : filesystem) : result (option str * filesystem) :=
  p ← repo_path fs repository path;
  if exists_ fs p then
    if isdir fs p then Ok (Some p, fs) else Raise (NotADirectory p)
  else if mkdir then
    fs' ← makedirs (S (length p)) fs p; Ok (Some p, fs')
  else Ok (None, fs).

Definition repo_file (repository : GitRepository) (path : list str)
    (mkdir : bool) (fs : filesystem) : result (option str * filesystem) :=
  '(d, fs') ← repo_dir repository (removelast path) mkdir fs;
  match d with
  | Some _ => p ← repo_path fs' repository path; Ok (Some p, fs')
  | None => Ok (None, fs')
  end.

Definition CR : byte := Byte.x0d.

(** Text mode reads translate [\r\n] and [\r] to [\n]. *)
Fixpoint universal_newlines (s : bytes) : bytes :=
  match s with
  | [] => []
  | c :: s' =>
      if byte_eqb c CR then
        match s' with
        | d :: s'' =>
            if byte_eqb d NL then NL :: universal_newlines s''
            else NL :: universal_newlines s'
        | [] => [NL]
        end
      else c :: universal_newlines s'
  end.

(** [open(p, "r").read()], with UTF-8 as the encoding of text files *)
Definition read_text (fs : filesystem) (p : str) : result str :=
  content ← read_file fs p;
  s ← decode_utf8 content;
  Ok (universal_newlines s).

Fixpoint ref_resolve (fuel : nat) (repository : GitRepository) (ref : str)
    (fs : filesystem) : result (option str) :=
  match fuel with
  | O => Diverge
  | S fuel' =>
      '(path, _) ← repo_file repository [ref] false fs;
      match path with
      | None => Raise TypeError            (* [os.path.isfile(None)] *)
      | Some path =>
          if negb (isfile fs path) then Ok None
          else
            text ← read_text fs path;
            let data := str_slice text 0 (-1) in
            if startswith (B "ref: ") data
            then ref_resolve fuel' repository (str_slice_from data 5) fs
            else Ok (Some data)
      end
  end.

(** ** [zlib]

    The compressor is a parameter of the development: all that is used of
    it is that decompression undoes compression. *)

Class Zlib : Type := {
  zlib_compress : bytes -> bytes;
  zlib_decompress : bytes -> result bytes
}.

Class ZlibCorrect (Z : Zlib) : Prop :=
  zlib_roundtrip : forall b : bytes, zlib_decompress (zlib_compress b) = Ok b.

(** ** The interpreter

    [recursion_limit] is the number of nested calls of [kvlm_parse] the
    interpreter still allows at the place where a commit or a tag is
    deserialized: [sys.getrecursionlimit()], which is 1000 unless it has
    been changed, less the frames of the callers. *)

Class Interpreter : Type := {
  recursion_limit : nat
}.

(** ** [objects.py] *)

(** Python dictionaries keep insertion order; assigning to a key that is
    present keeps its place. *)
Section Dict.
Context {K V : Type} `{EqDecision K}.

Fixpoint dict_get (k : K) (d : list (K * V)) : option V :=
  match d with
  | [] => None
  | (k', v) :: d' => if decide (k' = k) then Some v else dict_get k d'
  end.

Fixpoint dict_set (k : K) (v : V) (d : list (K * V)) : list (K * V) :=
  match d with
  | [] => [(k, v)]
  | (k', v') :: d' =>
      if decide (k' = k) then (k, v) :: d' else (k', v') :: dict_set k v d'
  end.

Definition dict_keys (d : list (K * V)) : list K := fst <$> d.
End Dict.

(** A field of a commit or tag holds one value or, when the key is
    repeated, the list of its values.  The key [None] holds the message. *)
Inductive kvlm_value : Type :=
  | Single (v : bytes)
  | Many (vs : list bytes).

#[global] Instance kvlm_value_eq_dec : EqDecision kvlm_value.
Proof. solve_decision. Defined.

Abbreviation kvlm_dict := (list (option bytes * kvlm_value)).

Record GitTreeLeaf : Type := {
  mode : bytes;
  path : str;
  sha : str
}.

#[global] Instance GitTreeLeaf_eq_dec : EqDecision GitTreeLeaf.
Proof. solve_decision. Defined.

Inductive GitObject : Type :=
  | GitBlob (blobdata : bytes)
  | GitCommit (kvlm : kvlm_dict)
  | GitTag (kvlm : kvlm_dict)
  | GitTree (items : list GitTreeLeaf).

#[global] Instance GitObject_eq_dec : EqDecision GitObject.
Proof. solve_decision. Defined.

Definition fmt (obj : GitObject) : bytes :=
  match obj with
  | GitBlob _ => B "blob"
  | GitCommit _ => B "commit"
  | GitTag _ => B "tag"
  | GitTree _ => B "tree"
  end.

(** The inner [while True] of [kvlm_parse]: the end of a value is the
    first newline that is not followed by a space. *)
Fixpoint kvlm_value_end (fuel : nat) (raw : bytes) (end_ : Z) : result Z :=
  match fuel with
  | O => Diverge
  | S fuel' =>
      let end' := find NL raw (end_ + 1) in
      c ← item raw (end' + 1);
      if negb (byte_eqb c SP) then Ok end'
      else kvlm_value_end fuel' raw end'
  end.

(** [kvlm_parse] is recursive: one call for every field line and one for
    the message.  [depth] is the number of calls the interpreter still
    allows. *)
Fixpoint kvlm_parse (depth : nat) (raw : bytes) (start : Z) (dct : kvlm_dict)
    : result kvlm_dict :=
  match depth with
  | O => Raise RecursionError
  | S depth' =>
      let spc := find SP raw start in
      let nl := find NL raw start in
      if (spc <? 0) || (nl <? spc) then
        _ ← assert (nl =? start);
        Ok (dict_set None (Single (slice_from raw (start + 1))) dct)
      else
        let key := slice raw start spc in
        end_ ← kvlm_value_end (S (length raw)) raw start;
        let value := replace2 NL SP [NL] (slice raw (spc + 1) end_) in
        let dct' :=
          match dict_get (Some key) dct with
          | Some (Many vs) => dict_set (Some key) (Many (vs ++ [value])) dct
          | Some (Single v) => dict_set (Some key) (Many [v; value]) dct
          | None => dict_set (Some key) (Single value) dct
          end in
        kvlm_parse depth' raw (end_ + 1) dct'
  end.

Definition kvlm_serialize (kvlm : kvlm_dict) : result bytes :=
  let ret :=
    foldl (fun ret '(k, val) =>
             match k with
             | None => ret
             | Some k =>
                 let vs := match val with Many vs => vs | Single v => [v] end in
                 foldl (fun ret v =>
                          ret ++ k ++ [SP] ++ replace1 NL [NL; SP] v ++ [NL])
                       ret vs
             end) [] kvlm in
  match dict_get None kvlm with
  | Some (Single message) => Ok (ret ++ [NL] ++ message)
  | Some (Many _) => Raise TypeError
  | None => Raise KeyError
  end.

Definition tree_parse_one (raw : bytes) (start : Z)
    : result (Z * GitTreeLeaf) :=
  let x := find SP raw start in
  _ ← assert ((x - start =? 5) || (x - start =? 6));
  let mode := slice raw start x in
  let mode := if blen mode =? 5 then Byte.x30 :: mode else mode in
  let y := find NUL raw x in
  let path := slice raw (x + 1) y in
  let raw_sha := from_bytes (slice raw (y + 1) (y + 21)) in
  let sha := format_040x raw_sha in
  path ← decode_utf8 path;
  Ok (y + 21, {| mode := mode; path := path; sha := sha |}).

Fixpoint tree_parse_loop (fuel : nat) (raw : bytes) (pos : Z)
    (ret : list GitTreeLeaf) : result (list GitTreeLeaf) :=
  match fuel with
  | O => Diverge
  | S fuel' =>
      if pos <? blen raw then
        '(pos', data) ← tree_parse_one raw pos;
        tree_parse_loop fuel' raw pos' (ret ++ [data])
      else Ok ret
  end.

Definition tree_parse (raw : bytes) : result (list GitTreeLeaf) :=
  tree_parse_loop (S (length raw)) raw 0 [].

Definition tree_leaf_sort_key (leaf : GitTreeLeaf) : str :=
  if startswith (B "10") (mode leaf) then path leaf
  else path leaf ++ B "/".

Definition tree_leaf_le (a b : GitTreeLeaf) : bool :=
  bytes_leb (tree_leaf_sort_key a) (tree_leaf_sort_key b).

(** [obj.items.sort(key=tree_leaf_sort_key)]: the state of [obj.items]
    after [tree_serialize]. *)
Definition tree_sorted (items : list GitTreeLeaf) : list GitTreeLeaf :=
  sort_by tree_leaf_le items.

Definition tree_serialize (items : list GitTreeLeaf) : result bytes :=
  foldl (fun ret i =>
           ret ← ret;
           sha ← int_of_str 16 (sha i);
           raw_sha ← to_bytes sha 20;
           Ok (ret ++ mode i ++ [SP] ++ encode_utf8 (path i) ++ [NUL] ++ raw_sha))
        (Ok []) (tree_sorted items).

Definition serialize (obj : GitObject) : result bytes :=
  match obj with
  | GitBlob blobdata => Ok blobdata
  | GitCommit kvlm | GitTag kvlm => kvlm_serialize kvlm
  | GitTree items => tree_serialize items
  end.

(** [GitCommit(data)], [GitTree(data)], ...: the constructor deserializes. *)
Definition deserialize_commit `{Interpreter} (data : bytes)
    : result kvlm_dict :=
  kvlm_parse recursion_limit data 0 [].

Definition objects_path (sha : str) : list str :=
  [B "objects"; str_slice sha 0 2; str_slice_from sha 2].

Definition object_read `{Zlib} `{Interpreter} (repository : GitRepository)
    (sha : str) (fs : filesystem) : result (option GitObject) :=
  '(path, _) ← repo_file repository (objects_path sha) false fs;
  match path with
  | None => Raise TypeError              (* [os.path.isfile(None)] *)
  | Some path =>
      if negb (isfile fs path) then Ok None
      else
        content ← read_file fs path;
        raw ← zlib_decompress content;
        let x := find SP raw 0 in
        let fmt := slice raw 0 x in
        let y := find NUL raw x in
        size_str ← decode_ascii (slice raw x y);
        size ← int_of_str 10 size_str;
        if negb (size =? blen raw - y - 1) then Raise (MalformedObject sha)
        else
          let data := slice_from raw (y + 1) in
          if bool_decide (fmt = B "commit") then
            kvlm ← deserialize_commit data; Ok (Some (GitCommit kvlm))
          else if bool_decide (fmt = B "tree") then
            items ← tree_parse data; Ok (Some (GitTree items))
          else if bool_decide (fmt = B "tag") then
            kvlm ← deserialize_commit data; Ok (Some (GitTag kvlm))
          else if bool_decide (fmt = B "blob") then
            Ok (Some (GitBlob data))
          else
            _ ← decode_ascii fmt;
            Raise (UnknownType fmt sha)
  end.

Definition object_write `{Zlib} (obj : GitObject)
    (repository : option GitRepository) (fs : filesystem)
    : result (str * filesystem) :=
  data ← serialize obj;
  let result := fmt obj ++ [SP] ++ str_of_int (blen data) ++ [NUL] ++ data in
  let sha := SHA1.hexdigest result in
  match repository with
  | None => Ok (sha, fs)
  | Some repository =>
      '(path, fs) ← repo_file repository (objects_path sha) true fs;
      match path with
      | None => Raise TypeError          (* [os.path.exists(None)] *)
      | Some path =>
          if exists_ fs path then Ok (sha, fs)
          else
            fs ← replace_file fs path (zlib_compress result);
            Ok (sha, fs)
      end
  end.

Definition is_hex (b : byte) : bool :=
  in_range 48 57 b || in_range 65 70 b || in_range 97 102 b.

(** [re.compile(r"^[0-9A-Fa-f]{4,40}$").match(name)]; [$] also matches
    just before a newline that ends the string. *)
Definition hashRE_match (name : str) : bool :=
  let body :=
    match last name with
    | Some c => if byte_eqb c NL then removelast name else name
    | None => name
    end in
  forallb is_hex body && (4 <=? blen body) && (blen body <=? 40).

(** A [str] is true when it is not empty; [None] is false. *)
Definition truthy (s : option str) : bool :=
  match s with
  | Some (_ :: _) => true
  | _ => false
  end.

Definition object_resolve (fuel : nat) (repository : GitRepository)
    (name : str) (fs : filesystem) : result (option (list (option str))) :=
  if strip_is_empty name then Ok None
  else if bool_decide (name = B "HEAD") then
    head ← ref_resolve fuel repository (B "HEAD") fs;
    Ok (Some [head])
  else
    '(name, candidates) ←
      (if hashRE_match name then
         let name := ascii_lower name in
         let prefix := str_slice name 0 2 in
         '(path, _) ← repo_dir repository [B "objects"; prefix] false fs;
         match path with
         | Some path =>
             let rem := str_slice_from name 2 in
             names ← listdir fs path;
             Ok (name,
                 (fun f : str => Some (prefix ++ f))
                   <$> filter (fun f : str => startswith rem f) (names : list str))
         | None => Ok (name, [])
         end
       else Ok (name, []));
    as_tag ← ref_resolve fuel repository (B "refs/tags/" ++ name) fs;
    let candidates :=
      if truthy as_tag then candidates ++ [as_tag] else candidates in
    as_branch ← ref_resolve fuel repository (B "refs/heads/" ++ name) fs;
    let candidates :=
      if truthy as_branch then candidates ++ [as_branch] else candidates in
    as_remote_branch ←
      ref_resolve fuel repository (B "refs/remotes/" ++ name) fs;
    let candidates :=
      if truthy as_remote_branch then candidates ++ [as_remote_branch]
      else candidates in
    Ok (Some candidates).

(** [obj.kvlm[key].decode("ascii")] *)
Definition kvlm_field_ascii (kvlm : kvlm_dict) (key : bytes) : result str :=
  match dict_get (Some key) kvlm with
  | None => Raise KeyError
  | Some (Many _) => Raise AttributeError
  | Some (Single v) => decode_ascii v
  end.

(** The [while True] of [object_find]. *)
Fixpoint object_find_loop `{Zlib} `{Interpreter} (fuel : nat)
    (repository : GitRepository)
    (sha : option str) (fmt_ : bytes) (follow : bool) (fs : filesystem)
    : result (option str) :=
  match fuel with
  | O => Diverge
  | S fuel' =>
      sha_ ← of_option TypeError sha;           (* [None[0:2]] *)
      obj ← object_read repository sha_ fs;
      obj ← of_option AttributeError obj;       (* [None.fmt] *)
      if bool_decide (fmt obj = fmt_) then Ok sha
      else if negb follow then Ok None
      else
        match obj with
        | GitTag kvlm =>
            next ← kvlm_field_ascii kvlm (B "object");
            object_find_loop fuel' repository (Some next) fmt_ follow fs
        | GitCommit kvlm =>
            if bool_decide (fmt_ = B "tree") then
              next ← kvlm_field_ascii kvlm (B "tree");
              object_find_loop fuel' repository (Some next) fmt_ follow fs
            else Ok None
        | _ => Ok None
        end
  end.

Definition object_find `{Zlib} `{Interpreter} (fuel : nat)
    (repository : GitRepository)
    (name : str) (fmt_ : option bytes) (follow : bool) (fs : filesystem)
    : result (option str) :=
  sha ← object_resolve fuel repository name fs;
  match sha with
  | None | Some [] => Raise (NoSuchReference name)
  | Some (first :: rest) =>
      match rest with
      | _ :: _ =>
          (* every candidate of a list of two or more is a string *)
          Raise (AmbiguousReference name (omap id (first :: rest)))
      | [] =>
          match fmt_ with
          | None | Some [] => Ok first
          | Some fmt_ => object_find_loop fuel repository first fmt_ follow fs
          end
      end
  end.

(** [object_hash(fd, fmt, repository)], where [data] is [fd.read()]. *)
Definition object_hash `{Zlib} `{Interpreter} (data : bytes) (fmt_ : bytes)
    (repository : option GitRepository) (fs : filesystem)
    : result (str * filesystem) :=
  obj ←
    (if bool_decide (fmt_ = B "commit") then
       kvlm ← deserialize_commit data; Ok (GitCommit kvlm)
     else if bool_decide (fmt_ = B "tree") then
       items ← tree_parse data; Ok (GitTree items)
     else if bool_decide (fmt_ = B "tag") then
       kvlm ← deserialize_commit data; Ok (GitTag kvlm)
     else if bool_decide (fmt_ = B "blob") then Ok (GitBlob data)
     else Raise (UnknownType fmt_ []));
  object_write obj repository fs.

(** ** [index.py] *)

Record GitIndexEntry : Type := {
  ctime : Z * Z;
  mtime : Z * Z;
  dev : Z;
  ino : Z;
  mode_type : Z;
  mode_perms : Z;
  uid : Z;
  gid : Z;
  fsize : Z;
  esha : str;
  flag_assume_valid : bool;
  flag_stage : Z;
  name : str
}.

#[global] Instance GitIndexEntry_eq_dec : EqDecision GitIndexEntry.
Proof. solve_decision. Defined.

Record GitIndex : Type := {
  version : Z;
  entries : list GitIndexEntry
}.

#[global] Instance GitIndex_eq_dec : EqDecision GitIndex.
Proof. solve_decision. Defined.

(** [int.from_bytes(content[a:b], "big")] *)
Definition field (content : bytes) (a b : Z) : Z :=
  from_bytes (slice content a b).

(** [8 * ceil(idx / 8)] for [idx >= 0].  The source divides in floating
    point, which is exact for offsets below [2^53]. *)
Definition align8 (idx : Z) : Z := 8 * ((idx + 7) / 8).

(** One turn of the [for i in range(0, count)] loop of [index_read]. *)
Definition index_read_entry (content : bytes) (idx : Z)
    : result (GitIndexEntry * Z) :=
  let ctime_s := field content idx (idx + 4) in
  let ctime_ns := field content (idx + 4) (idx + 8) in
  let mtime_s := field content (idx + 8) (idx + 12) in
  let mtime_ns := field content (idx + 12) (idx + 16) in
  let dev := field content (idx + 16) (idx + 20) in
  let ino := field content (idx + 20) (idx + 24) in
  let unused := field content (idx + 24) (idx + 26) in
  _ ← assert (0 =? unused);
  let mode := field content (idx + 26) (idx + 28) in
  let mode_type := Z.shiftr mode 12 in
  _ ← assert ((mode_type =? 8) || (mode_type =? 10) || (mode_type =? 14));
  let mode_perms := Z.land mode 511 in
  let uid := field content (idx + 28) (idx + 32) in
  let gid := field content (idx + 32) (idx + 36) in
  let fsize := field content (idx + 36) (idx + 40) in
  let sha := format_040x (field content (idx + 40) (idx + 60)) in
  let flags := field content (idx + 60) (idx + 62) in
  let flag_assume_valid := negb (Z.land flags 32768 =? 0) in
  let flag_extended := negb (Z.land flags 16384 =? 0) in
  _ ← assert (negb flag_extended);
  let flag_stage := Z.land flags 12288 in
  let name_length := Z.land flags 4095 in
  let idx := idx + 62 in
  '(raw_name, idx) ←
    (if name_length <? 4095 then
       c ← item content (idx + name_length);
       _ ← assert (byte_eqb c NUL);
       Ok (slice content idx (idx + name_length), idx + name_length + 1)
     else
       let null_idx := find NUL content (idx + 4095) in
       Ok (slice content idx null_idx, null_idx + 1));
  name ← decode_utf8 raw_name;
  let idx := align8 idx in
  Ok ({| ctime := (ctime_s, ctime_ns); mtime := (mtime_s, mtime_ns);
         dev := dev; ino := ino; mode_type := mode_type;
         mode_perms := mode_perms; uid := uid; gid := gid; fsize := fsize;
         esha := sha; flag_assume_valid := flag_assume_valid;
         flag_stage := flag_stage; name := name |}, idx).

Fixpoint index_read_entries (count : nat) (content : bytes) (idx : Z)
    (entries : list GitIndexEntry) : result (list GitIndexEntry) :=
  match count with
  | O => Ok entries
  | S count' =>
      '(e, idx') ← index_read_entry content idx;
      index_read_entries count' content idx' (entries ++ [e])
  end.

(** [index_read] on the bytes of the index file. *)
Definition index_parse (raw : bytes) : result GitIndex :=
  let header := slice raw 0 12 in
  let signature := slice header 0 4 in
  _ ← assert (bool_decide (signature = B "DIRC"));
  let version := from_bytes (slice header 4 8) in
  _ ← assert (version =? 2);
  let count := from_bytes (slice header 8 12) in
  let content := slice_from raw 12 in
  entries ← index_read_entries (Z.to_nat count) content 0 [];
  Ok {| version := version; entries := entries |}.

Definition index_read (repository : GitRepository) (fs : filesystem)
    : result GitIndex :=
  '(index_file, _) ← repo_file repository [B "index"] false fs;
  match index_file with
  | None => Raise TypeError              (* [os.path.exists(None)] *)
  | Some index_file =>
      if negb (exists_ fs index_file) then Ok {| version := 2; entries := [] |}
      else raw ← read_file fs index_file; index_parse raw
  end.

(** What one turn of the [for e in index.entries] loop of [index_write]
    writes, and the new value of [idx]. *)
Definition index_write_entry (e : GitIndexEntry) (idx : Z)
    : result (bytes * Z) :=
  b1 ← to_bytes (fst (ctime e)) 4;
  b2 ← to_bytes (snd (ctime e)) 4;
  b3 ← to_bytes (fst (mtime e)) 4;
  b4 ← to_bytes (snd (mtime e)) 4;
  b5 ← to_bytes (dev e) 4;
  b6 ← to_bytes (ino e) 4;
  let mode := Z.lor (Z.shiftl (mode_type e) 12) (mode_perms e) in
  b7 ← to_bytes mode 4;
  b8 ← to_bytes (uid e) 4;
  b9 ← to_bytes (gid e) 4;
  b10 ← to_bytes (fsize e) 4;
  sha ← int_of_str 16 (esha e);
  b11 ← to_bytes sha 20;
  let flag_assume_valid := if flag_assume_valid e then Z.shiftl 1 15 else 0 in
  let name_bytes := encode_utf8 (name e) in
  let bytes_len := blen name_bytes in
  let name_length := if 4095 <=? bytes_len then 4095 else bytes_len in
  b12 ← to_bytes (Z.lor (Z.lor flag_assume_valid (flag_stage e)) name_length) 2;
  let out := b1 ++ b2 ++ b3 ++ b4 ++ b5 ++ b6 ++ b7 ++ b8 ++ b9 ++ b10
             ++ b11 ++ b12 ++ name_bytes ++ [NUL] in
  let idx := idx + (62 + blen name_bytes + 1) in
  if negb (idx mod 8 =? 0) then
    let pad := 8 - idx mod 8 in
    Ok (out ++ replicate (Z.to_nat pad) NUL, idx + pad)
  else Ok (out, idx).

Fixpoint index_write_entries (entries : list GitIndexEntry) (idx : Z)
    : result bytes :=
  match entries with
  | [] => Ok []
  | e :: entries' =>
      '(out, idx') ← index_write_entry e idx;
      rest ← index_write_entries entries' idx';
      Ok (out ++ rest)
  end.

(** Everything [index_write] writes to the file. *)
Definition index_bytes (index : GitIndex) : result bytes :=
  v ← to_bytes (version index) 4;
  n ← to_bytes (Z.of_nat (length (entries index))) 4;
  body ← index_write_entries (entries index) 0;
  Ok (B "DIRC" ++ v ++ n ++ body).

Definition index_write (r : GitRepository) (index : GitIndex)
    (fs : filesystem) : result filesystem :=
  '(index_file, _) ← repo_file r [B "index"] false fs;
  match index_file with
  | None => Raise TypeError              (* [os.path.dirname(None)] *)
  | Some index_file =>
      (* [tempfile.mkstemp(dir=dirname)] comes first *)
      if negb (isdir fs (Path.dirname index_file)) then Raise OSError
      else
        out ← index_bytes index;
        replace_file fs index_file out
  end.

Definition in_worktree (repository : GitRepository) (abspath : str) : bool :=
  startswith (worktree repository ++ [SLASH]) abspath
  || bool_decide (abspath = worktree repository).

(** The first loop of [rm]: the set of absolute paths to remove. *)
Fixpoint rm_abspaths (repository : GitRepository) (cwd : str)
    (all_paths paths : list str) (abspaths : gset bytes)
    : result (gset bytes) :=
  match paths with
  | [] => Ok abspaths
  | path :: paths' =>
      let abspath := Path.abspath cwd path in
      if in_worktree repository abspath
      then rm_abspaths repository cwd all_paths paths' (abspaths ∪ {[abspath]})
      else Raise (CannotRemoveOutside all_paths)
  end.

(** The second loop of [rm]: [(kept_entries, remove, abspaths)]. *)
Fixpoint rm_split (repository : GitRepository) (entries : list GitIndexEntry)
    (kept_entries : list GitIndexEntry) (remove : list str)
    (abspaths : gset bytes)
    : list GitIndexEntry * list str * gset bytes :=
  match entries with
  | [] => (kept_entries, remove, abspaths)
  | e :: entries' =>
      let full_path := Path.join (worktree repository) [name e] in
      if bool_decide (full_path ∈ abspaths)
      then rm_split repository entries' kept_entries (remove ++ [full_path])
             (abspaths ∖ {[full_path]})
      else rm_split repository entries' (kept_entries ++ [e]) remove abspaths
  end.

Fixpoint unlink_all (paths : list str) (fs : filesystem) : result filesystem :=
  match paths with
  | [] => Ok fs
  | p :: paths' => fs' ← unlink fs p; unlink_all paths' fs'
  end.

Definition rm (repository : GitRepository) (paths : list str)
    (delete skip_missing : bool) (fs : filesystem) : result filesystem :=
  index ← index_read repository fs;
  abspaths ← rm_abspaths repository (cwd fs) paths paths ∅;
  let '(kept_entries, remove, abspaths) :=
    rm_split repository (entries index) [] [] abspaths in
  if negb (bool_decide (abspaths = ∅)) && negb skip_missing
  then Raise (CannotRemoveNotInIndex (elements abspaths))
  else
    fs ← (if delete then unlink_all remove fs else Ok fs);
    index_write repository
      {| version := version index; entries := kept_entries |} fs.

(** [os.walk(top)]: [(root, dirs, files)] for [top] and, after it, for the
    directories below it.  [depth] bounds the nesting of directories. *)
Fixpoint walk (depth : nat) (fs : filesystem) (top : str)
    : list (str * list str * list str) :=
  match depth with
  | O => []
  | S depth' =>
      match listdir fs top with
      | Ok names =>
          let dirs := filter (fun n : str => isdir fs (Path.join top [n])) names in
          let files :=
            filter (fun n : str => negb (isdir fs (Path.join top [n]))) names in
          (top, dirs, files)
            :: concat ((fun d => walk depth' fs (Path.join top [d])) <$> dirs)
      | _ => []
      end
  end.

(** The pairs [(file_abspath, relpath)] that one directory of the walk
    contributes to [clean_paths]. *)
Fixpoint add_files (repository : GitRepository) (cwd root : str)
    (files : list str) (clean_paths : gset (bytes * bytes))
    : result (gset (bytes * bytes)) :=
  match files with
  | [] => Ok clean_paths
  | f :: files' =>
      let file_abspath := Path.join root [f] in
      relpath ← Path.relpath cwd file_abspath (worktree repository);
      add_files repository cwd root files'
        (clean_paths ∪ {[(file_abspath, relpath)]})
  end.

Fixpoint add_walk (repository : GitRepository) (cwd : str)
    (walked : list (str * list str * list str))
    (clean_paths : gset (bytes * bytes)) : result (gset (bytes * bytes)) :=
  match walked with
  | [] => Ok clean_paths
  | (root, _, files) :: walked' =>
      if bool_decide (root = gitdir repository)
         || startswith (gitdir repository ++ [SLASH]) root
      then add_walk repository cwd walked' clean_paths
      else
        clean_paths ← add_files repository cwd root files clean_paths;
        add_walk repository cwd walked' clean_paths
  end.

(** The first loop of [add]: the set [clean_paths]. *)
Fixpoint add_clean_paths (depth : nat) (repository : GitRepository)
    (fs : filesystem) (all_paths paths : list str)
    (clean_paths : gset (bytes * bytes)) : result (gset (bytes * bytes)) :=
  match paths with
  | [] => Ok clean_paths
  | path :: paths' =>
      let abspath := Path.abspath (cwd fs) path in
      clean_paths ←
        (if isdir fs abspath then
           if bool_decide (abspath = worktree repository)
              || startswith (worktree repository ++ [SLASH]) abspath
           then add_walk repository (cwd fs) (walk depth fs abspath) clean_paths
           else Raise (NotInWorktree all_paths)
         else if isfile fs abspath then
           if in_worktree repository abspath then
             relpath ← Path.relpath (cwd fs) abspath (worktree repository);
             if negb (startswith (B ".git/") relpath
                      || bool_decide (relpath = B ".git"))
             then Ok (clean_paths ∪ {[(abspath, relpath)]})
             else Ok clean_paths
           else Raise (NotAFile all_paths)
         else Raise (NotAFile all_paths));
      add_clean_paths depth repository fs all_paths paths' clean_paths
  end.

(** [os.stat(p)] *)
Definition stat (fs : filesystem) (p : str) : result (stat_result * Z) :=
  match nodes fs !! p with
  | Some (File content st) => Ok (st, blen content)
  | _ => Raise OSError
  end.

(** The second loop of [add]: hash each file and append its entry. *)
Fixpoint add_entries `{Zlib} `{Interpreter} (repository : GitRepository)
    (clean_paths : list (bytes * bytes)) (entries : list GitIndexEntry)
    (fs : filesystem) : result (list GitIndexEntry * filesystem) :=
  match clean_paths with
  | [] => Ok (entries, fs)
  | (abspath, relpath) :: clean_paths' =>
      data ← read_file fs abspath;
      '(sha, fs) ← object_hash data (B "blob") (Some repository) fs;
      '(st, st_size) ← stat fs abspath;
      let entry :=
        {| ctime := (st_ctime st, st_ctime_ns st mod 10 ^ 9);
           mtime := (st_mtime st, st_mtime_ns st mod 10 ^ 9);
           dev := st_dev st; ino := st_ino st;
           mode_type := 8; mode_perms := 420;
           uid := st_uid st; gid := st_gid st; fsize := st_size;
           esha := sha; flag_assume_valid := false; flag_stage := 0;
           name := relpath |} in
      add_entries repository clean_paths' (entries ++ [entry]) fs
  end.

(** [add].  A Python set is iterated in an unspecified order; here it is
    the order of [elements]. *)
Definition add `{Zlib} `{Interpreter} (depth : nat) (repository : GitRepository)
    (paths : list str) (fs : filesystem) : result filesystem :=
  fs ← rm repository paths false true fs;
  clean_paths ← add_clean_paths depth repository fs paths paths ∅;
  index ← index_read repository fs;
  '(entries, fs) ←
    add_entries repository (elements clean_paths) (entries index) fs;
  index_write repository {| version := version index; entries := entries |} fs.

(** What the lists of [contents] hold in [tree_from_index]: staged
    entries, and [(base, sha)] tuples for the trees already written. *)
Inductive content_item : Type :=
  | Staged (entry : GitIndexEntry)
  | Subtree (base sha : str).

Abbreviation contents_dict := (list (str * list content_item)).

(** The [while key != ""] loop. *)
Fixpoint add_ancestors (fuel : nat) (key : str) (contents : contents_dict)
    : result contents_dict :=
  match fuel with
  | O => Diverge
  | S fuel' =>
      if negb (bool_decide (key = [])) then
        let contents :=
          match dict_get key contents with
          | None => dict_set key [] contents
          | Some _ => contents
          end in
        add_ancestors fuel' (Path.dirname key) contents
      else Ok contents
  end.

(** [contents[key].append(x)] *)
Definition dict_append (key : str) (x : content_item)
    (contents : contents_dict) : result contents_dict :=
  match dict_get key contents with
  | Some l => Ok (dict_set key (l ++ [x]) contents)
  | None => Raise KeyError
  end.

(** The first loop of [tree_from_index]. *)
Fixpoint group_entries (entries : list GitIndexEntry)
    (contents : contents_dict) : result contents_dict :=
  match entries with
  | [] => Ok contents
  | entry :: entries' =>
      let dirname := Path.dirname (name entry) in
      contents ← add_ancestors (S (length dirname)) dirname contents;
      contents ← dict_append dirname (Staged entry) contents;
      group_entries entries' contents
  end.

Definition leaf_of (entry : content_item) : GitTreeLeaf :=
  match entry with
  | Staged entry =>
      {| mode := format_zero 8 2 (mode_type entry)
                 ++ format_zero 8 4 (mode_perms entry);
         path := Path.basename (name entry);
         sha := esha entry |}
  | Subtree base sha =>
      {| mode := B "040000"; path := base; sha := sha |}
  end.

(** [sorted(contents.keys(), key=len, reverse=True)] *)
Definition sorted_paths (contents : contents_dict) : list str :=
  sort_by (fun a b => str_len b <=? str_len a) (dict_keys contents).

(** The second loop of [tree_from_index]. *)
Fixpoint write_trees `{Zlib} (repository : option GitRepository)
    (paths : list str) (contents : contents_dict) (sha : option str)
    (fs : filesystem) : result (option str * filesystem) :=
  match paths with
  | [] => Ok (sha, fs)
  | path :: paths' =>
      group ← of_option KeyError (dict_get path contents);
      let tree := GitTree (leaf_of <$> group) in
      '(sha, fs) ← object_write tree repository fs;
      let parent := Path.dirname path in
      let base := Path.basename path in
      contents ← dict_append parent (Subtree base sha) contents;
      write_trees repository paths' contents (Some sha) fs
  end.

Definition tree_from_index `{Zlib} (repository : option GitRepository)
    (index : GitIndex) (fs : filesystem) : result (option str * filesystem) :=
  contents ← group_entries (entries index) [([], [])];
  write_trees repository (sorted_paths contents) contents None fs.

(** * Vocabulary of the statements *)

(** The number a list of digits stands for, most significant first. *)
Definition value_of (base : Z) (ds : list Z) : Z :=
  foldl (fun a d => a * base + d) 0 ds.

(** Fixed-width digits, least significant last. *)
Fixpoint fixed_digits (w : nat) (base n : Z) : list Z :=
  match w with
  | O => []
  | S w' => fixed_digits w' base (n / base) ++ [n mod base]
  end.

Definition is_lower_hex (b : byte) : bool :=
  in_range 48 57 b || in_range 97 102 b.

Definition hex_digit (c : byte) : Z := default 0 (digit_val c).

(** The number a string of hexadecimal digits stands for. *)
Definition hex_value (s : str) : Z := value_of 16 (hex_digit <$> s).

(** A digest as the program prints it: 40 lowercase hexadecimal digits. *)
Definition is_digest (s : str) : Prop :=
  length s = 40%nat /\ forallb is_lower_hex s = true.

(** A stand-in for the compressor, used in the examples. *)
Definition zlib_identity : Zlib :=
  {| zlib_compress := fun b => b; zlib_decompress := fun b => Ok b |}.

(** The interpreter of the examples: the default limit of 1000 frames, a
    hundred of them taken by the callers. *)
#[global] Instance demo_interpreter : Interpreter :=
  {| recursion_limit := 900 |}.

Definition demo_stat : stat_result :=
  {| st_ctime := 1700000000; st_ctime_ns := 1700000000123456789;
     st_mtime := 1700000001; st_mtime_ns := 1700000001987654321;
     st_dev := 2049; st_ino := 131; st_uid := 1000; st_gid := 1000 |}.

(** The repository at [/w] as [repo_create] leaves it, with an empty
    working tree. *)
Definition demo_repository : GitRepository :=
  {| worktree := B "/w"; gitdir := B "/w/.git" |}.

Definition demo_fs : filesystem :=
  {| nodes := list_to_map
       [ (B "/", Dir [B "w"]);
         (B "/w", Dir [B ".git"]);
         (B "/w/.git",
          Dir [B "branches"; B "objects"; B "refs"; B "description";
               B "HEAD"; B "config"]);
         (B "/w/.git/branches", Dir []);
         (B "/w/.git/objects", Dir []);
         (B "/w/.git/refs", Dir [B "tags"; B "heads"]);
         (B "/w/.git/refs/tags", Dir []);
         (B "/w/.git/refs/heads", Dir []);
         (B "/w/.git/description",
          File (B "Unnamed repository; edit this file 'description' to name the repository."
                ++ [NL]) demo_stat);
         (B "/w/.git/HEAD",
          File (B "ref: refs/heads/master" ++ [NL]) demo_stat);
         (B "/w/.git/config",
          File (B "[core]" ++ [NL] ++ B "repositoryformatversion = 0" ++ [NL]
                ++ B "filemode = false" ++ [NL] ++ B "bare = false"
                ++ [NL; NL]) demo_stat) ];
     cwd := B "/w";
     new_stat := demo_stat |}.

(** [objects.object_write] of each object in turn, as a file system. *)
Fixpoint store_all `{Zlib} (repository : GitRepository)
    (objs : list GitObject) (fs : filesystem) : result filesystem :=
  match objs with
  | [] => Ok fs
  | obj :: objs' =>
      '(_, fs') ← object_write obj (Some repository) fs;
      store_all repository objs' fs'
  end.

(** One legal dereference step of [object_find] from [sha] to [sha']:
    a tag through its [object] field, a commit through its [tree] field
    when a tree is asked for. *)
Definition deref_step `{Zlib} `{Interpreter} (repository : GitRepository)
    (fs : filesystem)
    (fmt_ : bytes) (sha sha' : str) : Prop :=
  exists obj,
    object_read repository sha fs = Ok (Some obj) /\ fmt obj <> fmt_ /\
    match obj with
    | GitTag kvlm => kvlm_field_ascii kvlm (B "object") = Ok sha'
    | GitCommit kvlm =>
        fmt_ = B "tree" /\ kvlm_field_ascii kvlm (B "tree") = Ok sha'
    | _ => False
    end.

(** [obj] is of another kind than [fmt_] and no step leaves it. *)
Definition no_step (obj : GitObject) (fmt_ : bytes) : Prop :=
  fmt obj <> fmt_ /\
  match obj with
  | GitTag _ => False
  | GitCommit _ => fmt_ <> B "tree"
  | _ => True
  end.

(** [demo_fs] with one more object file, one that claims five bytes of
    payload and holds three. *)
Definition corrupt_sha : str := B "f2ba8f84ab5c1bce84a7b441cb1959cfc7093b7f".

Definition corrupt_fs : filesystem :=
  with_nodes demo_fs
    (<[B "/w/.git/objects/f2/ba8f84ab5c1bce84a7b441cb1959cfc7093b7f" :=
         File (B "blob 5" ++ [NUL] ++ B "abc") demo_stat]>
       (<[B "/w/.git/objects/f2" :=
            Dir [B "ba8f84ab5c1bce84a7b441cb1959cfc7093b7f"]]>
          (<[B "/w/.git/objects" := Dir [B "f2"]]> (nodes demo_fs)))).

(** Two blobs whose digests begin with the same four digits,
    [83248fb9...] and [83249da5...]. *)
Definition twin_blobs : list GitObject :=
  [GitBlob (B "142"); GitBlob (B "784")].

(** [demo_fs] after both blobs have been written. *)
Definition twin_fs : filesystem :=
  match store_all (H := zlib_identity) demo_repository twin_blobs demo_fs with
  | Ok fs => fs
  | _ => demo_fs
  end.

(** The object with digest [sha] is in the store of [repository]. *)
Definition object_exists (repository : GitRepository) (sha : str)
    (fs : filesystem) : bool :=
  match repo_path fs repository (objects_path sha) with
  | Ok p => exists_ fs p
  | _ => false
  end.

Definition empty_tree_sha : str := B "4b825dc642cb6eb9a060e54bf8d69288fbee4904".

(** An index entry for an empty regular file called [n]. *)
Definition staged_entry (n : str) : GitIndexEntry :=
  {| ctime := (1700000000, 123456789); mtime := (1700000001, 987654321);
     dev := 2049; ino := 131; mode_type := 8; mode_perms := 420;
     uid := 1000; gid := 1000; fsize := 0;
     esha := B "e69de29bb2d1d6434b8b29ae775ad8c2e48c5391";
     flag_assume_valid := false; flag_stage := 0; name := n |}.

Definition three_index : GitIndex :=
  {| version := 2;
     entries := [staged_entry (B "dir/b.txt"); staged_entry (B "dir/sub/c.txt");
                 staged_entry (B "a.txt")] |}.

(** [demo_fs] with the file [dir/b.txt] in the working tree. *)
Definition worktree_fs : filesystem :=
  with_nodes demo_fs
    (<[B "/w/dir/b.txt" := File (B "hello") demo_stat]>
       (<[B "/w/dir" := Dir [B "b.txt"]]>
          (<[B "/w" := Dir [B ".git"; B "dir"]]> (nodes demo_fs)))).

(** The names of the entries of the index file, after running [cmds]. *)
Definition staged_names (fs : result filesystem) : result (list str) :=
  fs ← fs;
  index ← index_read demo_repository fs;
  Ok (name <$> entries index).

(** *** The key-value list with message *)

(** [v.replace(b'\n', b'\n ')] and its inverse *)
Definition kvlm_escape (v : bytes) : bytes := replace1 NL [NL; SP] v.
Definition kvlm_unescape (v : bytes) : bytes := replace2 NL SP [NL] v.

(** One line of a serialized commit: key, space, escaped value, newline. *)
Definition kvlm_line (kv : bytes * bytes) : bytes :=
  kv.1 ++ [SP] ++ kvlm_escape kv.2 ++ [NL].

Definition kvlm_lines (lines : list (bytes * bytes)) : bytes :=
  concat (kvlm_line <$> lines).

(** What [kvlm_parse] does to the dictionary for one line. *)
Definition kvlm_add (dct : kvlm_dict) (kv : bytes * bytes) : kvlm_dict :=
  match dict_get (Some kv.1) dct with
  | Some (Many vs) => dict_set (Some kv.1) (Many (vs ++ [kv.2])) dct
  | Some (Single v) => dict_set (Some kv.1) (Many [v; kv.2]) dct
  | None => dict_set (Some kv.1) (Single kv.2) dct
  end.

(** A key is not empty and has no space and no newline in it. *)
Definition wf_key (k : bytes) : Prop :=
  k <> [] /\ (SP ∉ k) /\ (NL ∉ k).

(** The fields of a commit as groups: each key once, with its values. *)
Abbreviation kvlm_groups := (list (bytes * list bytes)).

Definition wf_groups (groups : kvlm_groups) : Prop :=
  NoDup groups.*1
  /\ Forall (fun g : bytes * list bytes => wf_key g.1 /\ g.2 <> []) groups.

Definition group_lines (groups : kvlm_groups) : list (bytes * bytes) :=
  concat ((fun g : bytes * list bytes => (fun v => (g.1, v)) <$> g.2)
            <$> groups).

Definition group_value (vs : list bytes) : kvlm_value :=
  match vs with
  | [v] => Single v
  | _ => Many vs
  end.

(** The dictionary [kvlm_parse] builds from the lines of [groups]. *)
Definition groups_dict (groups : kvlm_groups) : kvlm_dict :=
  (fun g : bytes * list bytes => (Some g.1, group_value g.2)) <$> groups.

Definition value_list (v : kvlm_value) : list bytes :=
  match v with
  | Single v => [v]
  | Many vs => vs
  end.

(** The fields of a dictionary without the message, as groups. *)
Definition dict_groups (d : kvlm_dict) : kvlm_groups :=
  omap (fun kv : option bytes * kvlm_value =>
          match kv.1 with
          | Some k => Some (k, value_list kv.2)
          | None => None
          end) d.

(** A field mapping that [kvlm_serialize] can write and [kvlm_parse] gives
    back: every key once, keys without space or newline, a list only for
    two or more values, and a message. *)
Definition wf_kvlm (d : kvlm_dict) : Prop :=
  NoDup d.*1
  /\ Forall (fun kv : option bytes * kvlm_value =>
               match kv.1 with
               | Some k =>
                   wf_key k
                   /\ match kv.2 with
                      | Many vs => (2 <= length vs)%nat
                      | Single _ => True
                      end
               | None => exists m, kv.2 = Single m
               end) d
  /\ None ∈ d.*1.

(** The bytes of a commit or tag: fewer than [limit] lines of fields,
    equal keys next to each other, a blank line, and the message. *)
Definition wf_kvlm_bytes (limit : nat) (b : bytes) : Prop :=
  exists groups msg,
    wf_groups groups /\ (length (group_lines groups) < limit)%nat
    /\ b = kvlm_lines (group_lines groups) ++ NL :: msg.

(** The number of lines of fields [kvlm_serialize] writes for [d]: one
    for every value. *)
Definition kvlm_field_lines (d : kvlm_dict) : nat :=
  length (group_lines (dict_groups d)).

(** A commit with two parents, a signature of several lines and a
    message of several lines. *)
Definition demo_commit : kvlm_dict :=
  [ (Some (B "tree"), Single (B "4b825dc642cb6eb9a060e54bf8d69288fbee4904"));
    (Some (B "parent"),
     Many [B "83248fb9df4a244c41a10fa536045d5a8e759aee";
           B "83249da5a136e0e0e9388917c65b042ef5179b5e"]);
    (Some (B "author"), Single (B "A U Thor <author@example.com> 1700000000 +0100"));
    (Some (B "gpgsig"),
     Single (B "-----BEGIN PGP SIGNATURE-----" ++ [NL; NL] ++ B "iQIzBAABCAAdFiEE"
             ++ [NL] ++ B "-----END PGP SIGNATURE-----"));
    (None, Single (B "Merge two lines" ++ [NL; NL] ++ B " indented body"
                   ++ [NL] ++ B "last line" ++ [NL])) ].

(** The fields of a dictionary other than the message, in their order. *)
Definition kvlm_fields (d : kvlm_dict) : kvlm_dict :=
  filter (fun kv : option bytes * kvlm_value => is_Some kv.1) d.

(** *** The staging index *)

Definition u32 (x : Z) : Prop := 0 <= x < 2 ^ 32.

(** An index entry whose fields are in the range of the file format. *)
Record wf_entry (e : GitIndexEntry) : Prop := {
  wf_ctime_s : u32 (ctime e).1;
  wf_ctime_ns : u32 (ctime e).2;
  wf_mtime_s : u32 (mtime e).1;
  wf_mtime_ns : u32 (mtime e).2;
  wf_dev : u32 (dev e);
  wf_ino : u32 (ino e);
  wf_mode_type : mode_type e = 8 \/ mode_type e = 10 \/ mode_type e = 14;
  wf_mode_perms : 0 <= mode_perms e < 512;
  wf_uid : u32 (uid e);
  wf_gid : u32 (gid e);
  wf_fsize : u32 (fsize e);
  wf_esha : is_digest (esha e);
  (* the stage as [index_read] keeps it: bits 12 and 13 of the flags *)
  wf_flag_stage : flag_stage e = 0 \/ flag_stage e = 4096
                  \/ flag_stage e = 8192 \/ flag_stage e = 12288;
  wf_name_nul : NUL ∉ name e;
  wf_name_utf8 : utf8_valid (name e) = true
}.

Record wf_index (index : GitIndex) : Prop := {
  wf_version : version index = 2;
  wf_count : u32 (Z.of_nat (length (entries index)));
  wf_entries : Forall wf_entry (entries index)
}.

(** The checks on the mode and the flags, as boolean functions that can
    be run over all values of the small fields. *)
Definition mode_check (t p : Z) : bool :=
  let mode := Z.lor (Z.shiftl t 12) p in
  (0 <=? mode) && (mode <? 65536) && (Z.shiftr mode 12 =? t)
  && (Z.land mode 511 =? p).

Definition flags_check (a s n : Z) : bool :=
  let flags := Z.lor (Z.lor a s) n in
  (0 <=? flags) && (flags <? 65536)
  && bool_decide (negb (Z.land flags 32768 =? 0) = negb (a =? 0))
  && (Z.land flags 16384 =? 0) && (Z.land flags 12288 =? s)
  && (Z.land flags 4095 =? n).

Definition long_name : str := replicate 5000 Byte.x61.

Definition demo_index (n : nat) : GitIndex :=
  {| version := 2;
     entries := take n [staged_entry long_name; staged_entry (B "a.txt");
                        staged_entry (B "dir/b.txt")] |}.

(** An entry whose digest is written in capital letters. *)
Definition capital_digest : str := replicate 40 Byte.x41.

Definition capital_index : GitIndex :=
  {| version := 2;
     entries :=
       [ {| ctime := (1700000000, 123456789); mtime := (1700000001, 987654321);
            dev := 2049; ino := 131; mode_type := 8; mode_perms := 420;
            uid := 1000; gid := 1000; fsize := 0; esha := capital_digest;
            flag_assume_valid := false; flag_stage := 0;
            name := B "a.txt" |} ] |}.


(** *** Paths *)

(** A single name of a path: not empty, without a slash, and not [.] or
    [..]. *)
Definition plain_name (c : str) : Prop :=
  c <> [] /\ (SLASH ∉ c) /\ c <> Path.DOT /\ c <> Path.DOTDOT.

(** The two parts of [Path.normpath]: the number of leading slashes it
    keeps and the components it keeps. *)
Definition initial_slashes (path : str) : nat :=
  if startswith [SLASH] path then
    if startswith [SLASH; SLASH] path
       && negb (startswith [SLASH; SLASH; SLASH] path)
    then 2%nat else 1%nat
  else O.

Definition norm_comps (path : str) : list str :=
  foldl (Path.norm_step (initial_slashes path)) [] (Path.split path).

(** The path [Path.abspath] normalises. *)
Definition full_path (cwd path : str) : str :=
  if Path.isabs path then path else Path.join2 cwd path.

(** *** The object store *)

(** What [object_write] hashes and stores: kind, space, length, NUL,
    payload. *)
Definition frame (kind data : bytes) : bytes :=
  kind ++ [SP] ++ str_of_int (blen data) ++ [NUL] ++ data.

(** The place of [sha] in the store is free, or holds [raw] compressed. *)
Definition stored_or_absent `{Zlib} (r : GitRepository) (sha : str)
    (raw : bytes) (fs : filesystem) : Prop :=
  forall p, repo_path fs r (objects_path sha) = Ok p ->
    match nodes fs !! p with
    | None => True
    | Some (File c _) => c = zlib_compress raw
    | Some (Dir _) => False
    end.

(** A leaf of a tree as [tree_serialize] writes it and [tree_parse] reads
    it back: a mode of six bytes without a space, a name without NUL, a
    digest. *)
Definition wf_leaf (i : GitTreeLeaf) : Prop :=
  length (mode i) = 6%nat /\ (SP ∉ mode i)
  /\ (NUL ∉ path i) /\ utf8_valid (path i) = true
  /\ is_digest (sha i).

(** An object that is read back as it was written: any blob, a commit
    or tag with well-formed fields and fewer lines of them than the
    interpreter allows nested calls, a tree of well-formed leaves. *)
Definition wf_object `{Interpreter} (obj : GitObject) : Prop :=
  match obj with
  | GitBlob _ => True
  | GitCommit kvlm | GitTag kvlm =>
      wf_kvlm kvlm /\ (kvlm_field_lines kvlm < recursion_limit)%nat
  | GitTree items => Forall wf_leaf items
  end.

Definition leaf_bytes (i : GitTreeLeaf) : bytes :=
  mode i ++ [SP] ++ path i ++ [NUL] ++ be_bytes 20 (hex_value (sha i)).

(** A tree with a file and a directory, not in the order of the sort. *)
Definition demo_tree : list GitTreeLeaf :=
  [ {| mode := B "100644"; path := B "b.txt";
       sha := B "e69de29bb2d1d6434b8b29ae775ad8c2e48c5391" |};
    {| mode := B "040000"; path := B "a";
       sha := B "4b825dc642cb6eb9a060e54bf8d69288fbee4904" |} ].

(** The digest of [demo_tree] and [demo_fs] with the tree stored. *)
Definition demo_tree_store : str * filesystem :=
  match object_write (H := zlib_identity) (GitTree demo_tree)
          (Some demo_repository) demo_fs with
  | Ok x => x
  | _ => ([], demo_fs)
  end.
(** * Properties *)

(** ** Bytes, slices and searches *)

Lemma byte_eqb_true (a b : byte) : byte_eqb a b = true <-> a = b.
Proof.
  unfold byte_eqb. split.
  - apply Byte.byte_dec_bl.
  - apply Byte.byte_dec_lb.
Qed.

Lemma byte_eqb_refl (a : byte) : byte_eqb a a = true.
Proof. by apply byte_eqb_true. Qed.

Lemma byte_eqb_false (a b : byte) : byte_eqb a b = false <-> a <> b.
Proof.
  rewrite <- byte_eqb_true. destruct (byte_eqb a b); split; congruence.
Qed.

Lemma byte_val_range (b : byte) : 0 <= byte_val b < 256.
Proof.
  unfold byte_val. pose proof (Byte.to_N_bounded b). lia.
Qed.

Lemma byte_of_val (b : byte) : byte_of (byte_val b) = b.
Proof.
  unfold byte_of. pose proof (byte_val_range b) as Hr.
  rewrite Z.mod_small by lia. unfold byte_val.
  rewrite N2Z.id, Byte.of_to_N. done.
Qed.

Lemma byte_val_of (z : Z) : byte_val (byte_of z) = z mod 256.
Proof.
  unfold byte_of, byte_val.
  pose proof (Z.mod_pos_bound z 256 ltac:(lia)) as Hr.
  destruct (Byte.of_N (Z.to_N (z mod 256))) as [b|] eqn:E.
  - apply Byte.to_of_N in E. rewrite E. lia.
  - exfalso. pose proof (Byte.to_of_N_option_map (Z.to_N (z mod 256))) as H.
    rewrite E in H. simpl in H.
    destruct (N.leb_spec (Z.to_N (z mod 256)) 255); [done | lia].
Qed.

Lemma byte_val_inj (a b : byte) : byte_val a = byte_val b -> a = b.
Proof.
  intros H. rewrite <- (byte_of_val a), <- (byte_of_val b). by rewrite H.
Qed.

Lemma clamp_inside (n i : Z) : 0 <= i <= n -> clamp n i = i.
Proof. intros. unfold clamp. destruct (Z.ltb_spec i 0); lia. Qed.

Lemma clamp_above (n i : Z) : 0 <= n <= i -> clamp n i = n.
Proof. intros. unfold clamp. destruct (Z.ltb_spec i 0); lia. Qed.

Lemma clamp_range (n i : Z) : 0 <= n -> 0 <= clamp n i <= n.
Proof. intros. unfold clamp. destruct (Z.ltb_spec i 0); lia. Qed.

Lemma slice_inside {A} (l : list A) (a b : Z) :
  0 <= a <= b -> b <= Z.of_nat (length l) ->
  slice l a b = take (Z.to_nat (b - a)) (drop (Z.to_nat a) l).
Proof.
  intros. unfold slice. by rewrite !clamp_inside by lia.
Qed.

Lemma slice_app_mid {A} (l1 l2 l3 : list A) (a b : Z) :
  a = Z.of_nat (length l1) -> b = a + Z.of_nat (length l2) ->
  slice (l1 ++ l2 ++ l3) a b = l2.
Proof.
  intros -> ->. rewrite slice_inside by (rewrite ?length_app; lia).
  rewrite Nat2Z.id, drop_app_length.
  replace (Z.to_nat _) with (length l2) by lia.
  by rewrite take_app_length.
Qed.

Lemma slice_app_mid0 {A} (l2 l3 : list A) (b : Z) :
  b = Z.of_nat (length l2) -> slice (l2 ++ l3) 0 b = l2.
Proof. intros. by apply (slice_app_mid [] l2 l3). Qed.

Lemma slice_from_app {A} (l1 l2 : list A) (a : Z) :
  a = Z.of_nat (length l1) -> slice_from (l1 ++ l2) a = l2.
Proof.
  intros ->. unfold slice_from.
  rewrite clamp_inside by (rewrite length_app; lia).
  by rewrite Nat2Z.id, drop_app_length.
Qed.

Lemma slice_from_length {A} (l : list A) (a : Z) :
  -1 <= a - 1 -> a <= Z.of_nat (length l) ->
  Z.of_nat (length (slice_from l a)) = Z.of_nat (length l) - a.
Proof.
  intros. unfold slice_from. rewrite clamp_inside by lia.
  rewrite length_drop. lia.
Qed.

Lemma item_app {A} (l1 l2 : list A) (x : A) (i : Z) :
  i = Z.of_nat (length l1) -> item (l1 ++ x :: l2) i = Ok x.
Proof.
  intros ->. unfold item.
  destruct (Z.ltb_spec (Z.of_nat (length l1)) 0); [lia|].
  rewrite length_app. simpl.
  destruct (Z.ltb_spec (Z.of_nat (length l1)) 0); [lia|].
  destruct (Z.leb_spec (Z.of_nat (length l1 + S (length l2))) (Z.of_nat (length l1)));
    [lia|]. simpl.
  by rewrite Nat2Z.id, list_lookup_middle.
Qed.

Lemma index_of_notin (c : byte) (l : bytes) : c ∉ l -> index_of c l = None.
Proof.
  induction l as [|x l IH]; [done|]. intros Hn. simpl.
  apply not_elem_of_cons in Hn as [Hx Hl].
  assert (byte_eqb x c = false) as -> by (apply byte_eqb_false; congruence).
  by rewrite IH.
Qed.

Lemma index_of_app (c : byte) (l1 l2 : bytes) :
  c ∉ l1 -> index_of c (l1 ++ c :: l2) = Some (length l1).
Proof.
  induction l1 as [|x l IH]; simpl.
  - by rewrite byte_eqb_refl.
  - intros Hn. apply not_elem_of_cons in Hn as [Hx Hl].
    assert (byte_eqb x c = false) as -> by (apply byte_eqb_false; congruence).
    by rewrite IH.
Qed.

Lemma index_of_Some (c : byte) (l : bytes) (i : nat) :
  index_of c l = Some i ->
  l !! i = Some c /\ c ∉ take i l.
Proof.
  revert i. induction l as [|x l IH]; [done|]. intros i. simpl.
  destruct (byte_eqb x c) eqn:E.
  - intros [= <-]. apply byte_eqb_true in E as ->. split; [done|]. simpl.
    apply not_elem_of_nil.
  - destruct (index_of c l) as [j|]; [|done]. intros [= <-].
    destruct (IH j eq_refl) as [H1 H2]. split; [done|]. simpl.
    apply not_elem_of_cons. split; [|done].
    apply byte_eqb_false in E. congruence.
Qed.

(** Searching from the end of [l1] finds the first [c] after it. *)
Lemma find_app (c : byte) (l1 l2 l3 : bytes) (start : Z) :
  start = blen l1 -> c ∉ l2 ->
  find c (l1 ++ l2 ++ c :: l3) start = blen l1 + blen l2.
Proof.
  intros -> Hn. unfold find, blen.
  rewrite clamp_inside by (rewrite !length_app; lia).
  rewrite Nat2Z.id, drop_app_length, index_of_app by done. done.
Qed.

Lemma find_app0 (c : byte) (l2 l3 : bytes) :
  c ∉ l2 -> find c (l2 ++ c :: l3) 0 = blen l2.
Proof.
  intros Hn. pose proof (find_app c [] l2 l3 0 eq_refl Hn) as E.
  simpl in E. rewrite E. unfold blen. simpl. lia.
Qed.

Lemma find_notin (c : byte) (l1 l2 : bytes) (start : Z) :
  start = blen l1 -> c ∉ l2 -> find c (l1 ++ l2) start = -1.
Proof.
  intros -> Hn. unfold find, blen.
  rewrite clamp_inside by (rewrite !length_app; lia).
  by rewrite Nat2Z.id, drop_app_length, index_of_notin.
Qed.

Lemma find_range (c : byte) (l : bytes) (start : Z) :
  -1 <= find c l start < blen l.
Proof.
  unfold find, blen.
  pose proof (clamp_range (Z.of_nat (length l)) start ltac:(lia)) as Hc.
  set (s := clamp _ _) in *.
  destruct (index_of c (drop (Z.to_nat s) l)) as [i|] eqn:E; [|lia].
  apply index_of_Some in E as [E _]. apply lookup_lt_Some in E.
  rewrite length_drop in E. lia.
Qed.

Lemma blen_app (a b : bytes) : blen (a ++ b) = blen a + blen b.
Proof. unfold blen. rewrite length_app. lia. Qed.

Lemma blen_cons (a : byte) (b : bytes) : blen (a :: b) = 1 + blen b.
Proof. unfold blen. simpl. lia. Qed.

Lemma blen_nonneg (a : bytes) : 0 <= blen a.
Proof. unfold blen. lia. Qed.

Lemma startswith_app (p l : bytes) : startswith p (p ++ l) = true.
Proof. induction p; simpl; [done|]. by rewrite byte_eqb_refl. Qed.

Lemma startswith_prefix (p l : bytes) :
  startswith p l = true <-> exists t, l = p ++ t.
Proof.
  split.
  - revert l. induction p as [|x p IH]; intros l; simpl.
    + by exists l.
    + destruct l as [|y l]; [done|].
      intros [Hxy Hp]%andb_prop. apply byte_eqb_true in Hxy as ->.
      destruct (IH _ Hp) as [t ->]. by exists t.
  - intros [t ->]. apply startswith_app.
Qed.

(** ** Integers and their renderings *)

Lemma from_bytes_acc (acc : Z) (b : bytes) :
  foldl (fun acc b => acc * 256 + byte_val b) acc b
  = acc * 256 ^ blen b + from_bytes b.
Proof.
  unfold from_bytes, blen. revert acc.
  induction b as [|x b IH]; intros acc; cbn [foldl length].
  - simpl. lia.
  - rewrite (IH (acc * 256 + byte_val x)), (IH (0 * 256 + byte_val x)).
    replace (Z.of_nat (S (length b))) with (Z.succ (Z.of_nat (length b))) by lia.
    rewrite Z.pow_succ_r by lia. ring.
Qed.

Lemma from_bytes_app (a b : bytes) :
  from_bytes (a ++ b) = from_bytes a * 256 ^ blen b + from_bytes b.
Proof. unfold from_bytes at 1. rewrite foldl_app. apply from_bytes_acc. Qed.

Lemma from_bytes_snoc (a : bytes) (x : byte) :
  from_bytes (a ++ [x]) = from_bytes a * 256 + byte_val x.
Proof. rewrite from_bytes_app. unfold blen, from_bytes. simpl. lia. Qed.

Lemma from_bytes_range (b : bytes) : 0 <= from_bytes b < 256 ^ blen b.
Proof.
  induction b as [|x b IH] using rev_ind.
  - unfold from_bytes, blen. simpl. lia.
  - rewrite from_bytes_snoc, blen_app.
    pose proof (byte_val_range x).
    replace (blen [x]) with 1 by done.
    rewrite Z.pow_add_r by (pose proof (blen_nonneg b); lia).
    lia.
Qed.

Lemma length_be_bytes (k : nat) (n : Z) : length (be_bytes k n) = k.
Proof.
  revert n. induction k as [|k IH]; intros n; simpl; [done|].
  rewrite length_app, IH. simpl. lia.
Qed.

Lemma from_be_bytes_mod (k : nat) (n : Z) :
  from_bytes (be_bytes k n) = n mod 256 ^ Z.of_nat k.
Proof.
  revert n. induction k as [|k IH]; intros n.
  - simpl. unfold from_bytes. simpl. by rewrite Z.mod_1_r.
  - simpl be_bytes. rewrite from_bytes_snoc, IH, byte_val_of.
    replace (Z.of_nat (S k)) with (Z.succ (Z.of_nat k)) by lia.
    rewrite Z.pow_succ_r by lia.
    rewrite (Z.rem_mul_r n 256 (256 ^ Z.of_nat k)) by lia. lia.
Qed.

Lemma from_be_bytes (k : nat) (n : Z) :
  0 <= n < 256 ^ Z.of_nat k -> from_bytes (be_bytes k n) = n.
Proof. intros. rewrite from_be_bytes_mod. by apply Z.mod_small. Qed.

Lemma byte_of_mod (z : Z) : byte_of (z mod 256) = byte_of z.
Proof. unfold byte_of. by rewrite Z.mod_mod by lia. Qed.

Lemma be_from_bytes (l : bytes) : be_bytes (length l) (from_bytes l) = l.
Proof.
  induction l as [|x l IH] using rev_ind; [done|].
  rewrite length_app, Nat.add_comm. simpl.
  rewrite from_bytes_snoc. pose proof (byte_val_range x).
  replace ((from_bytes l * 256 + byte_val x) / 256) with (from_bytes l)
    by (apply Z.div_unique with (byte_val x); lia).
  rewrite IH. f_equal. f_equal.
  rewrite <- byte_of_mod.
  replace ((from_bytes l * 256 + byte_val x) mod 256) with (byte_val x)
    by (apply Z.mod_unique with (from_bytes l); lia).
  apply byte_of_val.
Qed.

Lemma to_bytes_ok (n : Z) (k : nat) :
  0 <= n < 256 ^ Z.of_nat k -> to_bytes n k = Ok (be_bytes k n).
Proof.
  intros. unfold to_bytes.
  destruct (Z.ltb_spec n 0); [lia|].
  destruct (Z.leb_spec (256 ^ Z.of_nat k) n); [lia|]. done.
Qed.

(** Digits *)

Lemma value_of_snoc (base : Z) (ds : list Z) (d : Z) :
  value_of base (ds ++ [d]) = value_of base ds * base + d.
Proof. unfold value_of. by rewrite foldl_app. Qed.

Lemma digits_aux_acc (fuel : nat) (base n : Z) (acc : list Z) :
  digits_aux fuel base n acc = digits_aux fuel base n [] ++ acc.
Proof.
  revert n acc. induction fuel as [|f IH]; intros n acc; simpl; [done|].
  destruct (n <? base); [done|].
  rewrite IH, (IH _ [_]). by rewrite <- app_assoc.
Qed.

Lemma digits_aux_unfold (fuel : nat) (base n : Z) :
  digits_aux (S fuel) base n []
  = if n <? base then [n] else digits_aux fuel base (n / base) [] ++ [n mod base].
Proof. simpl. destruct (n <? base); [done|]. apply digits_aux_acc. Qed.

Lemma digits_aux_fuel (f1 f2 : nat) (base n : Z) :
  2 <= base ->
  0 <= n < 2 ^ Z.of_nat (S f1) -> 0 <= n < 2 ^ Z.of_nat (S f2) ->
  digits_aux (S f1) base n [] = digits_aux (S f2) base n [].
Proof.
  intros Hb. revert f2 n. induction f1 as [|f1 IH]; intros f2 n H1 H2.
  - rewrite !digits_aux_unfold.
    change (2 ^ Z.of_nat 1) with 2 in H1.
    destruct (Z.ltb_spec n base); [done | lia].
  - rewrite (digits_aux_unfold (S f1)), (digits_aux_unfold f2).
    destruct (Z.ltb_spec n base); [done|].
    f_equal.
    assert (1 <= n / base) by (apply Z.div_le_lower_bound; lia).
    assert (n / base <= n / 2) by (apply Z.div_le_compat_l; lia).
    rewrite !Nat2Z.inj_succ, !Z.pow_succ_r in H1 by lia.
    rewrite !Nat2Z.inj_succ, !Z.pow_succ_r in H2 by lia.
    destruct f2 as [|f2].
    + exfalso. change (2 ^ Z.of_nat 0) with 1 in H2.
      assert (n / 2 < 1) by (apply Z.div_lt_upper_bound; lia). lia.
    + apply IH.
      * rewrite !Nat2Z.inj_succ, !Z.pow_succ_r by lia.
        assert (n / 2 < 2 * 2 ^ Z.of_nat f1)
          by (apply Z.div_lt_upper_bound; lia). lia.
      * assert (n / 2 < 2 ^ Z.of_nat (S f2))
          by (apply Z.div_lt_upper_bound; lia). lia.
Qed.

Lemma log2_fuel (n : Z) :
  0 <= n -> 0 <= n < 2 ^ Z.of_nat (S (Z.to_nat (Z.log2 n))).
Proof.
  intros Hn. split; [done|].
  rewrite Nat2Z.inj_succ, Z2Nat.id by apply Z.log2_nonneg.
  destruct (Z.eq_dec n 0) as [->|]; [done|].
  apply Z.log2_spec. lia.
Qed.

Lemma digits_unfold (base n : Z) :
  2 <= base -> 0 <= n ->
  digits base n
  = if n <? base then [n] else digits base (n / base) ++ [n mod base].
Proof.
  intros Hb Hn. unfold digits. rewrite digits_aux_unfold.
  destruct (Z.ltb_spec n base); [done|]. f_equal.
  assert (1 <= n / base) by (apply Z.div_le_lower_bound; lia).
  assert (n / base <= n / 2) by (apply Z.div_le_compat_l; lia).
  pose proof (log2_fuel n Hn) as [_ Hf].
  rewrite Nat2Z.inj_succ, Z.pow_succ_r in Hf by lia.
  assert (n / 2 < 2 ^ Z.of_nat (Z.to_nat (Z.log2 n)))
    by (apply Z.div_lt_upper_bound; lia).
  destruct (Z.to_nat (Z.log2 n)) as [|f] eqn:Ef.
  - exfalso. change (2 ^ Z.of_nat 0) with 1 in *. lia.
  - apply digits_aux_fuel; [done | lia |].
    apply log2_fuel. lia.
Qed.

(** Induction on the digits of a number. *)
Lemma digits_rect (base : Z) (P : Z -> Prop) :
  2 <= base ->
  (forall n, 0 <= n < base -> P n) ->
  (forall n, base <= n -> P (n / base) -> P n) ->
  forall n, 0 <= n -> P n.
Proof.
  intros Hb H0 Hs. apply Zlt_0_ind. intros n IH Hn.
  destruct (Z.lt_ge_cases n base); [apply H0; lia|].
  apply Hs; [lia|]. apply IH. split.
  - apply Z.div_pos; lia.
  - apply Z.div_lt; lia.
Qed.

Lemma value_of_digits (base n : Z) :
  2 <= base -> 0 <= n -> value_of base (digits base n) = n.
Proof.
  intros Hb. revert n. apply (digits_rect base); [done| |].
  - intros n Hn. rewrite digits_unfold by lia.
    destruct (Z.ltb_spec n base); [|lia]. unfold value_of. simpl. lia.
  - intros n Hn IH. rewrite digits_unfold by lia.
    destruct (Z.ltb_spec n base); [lia|].
    rewrite value_of_snoc, IH. 
    pose proof (Z.div_mod n base). lia.
Qed.

Lemma digits_range (base n : Z) :
  2 <= base -> 0 <= n -> Forall (fun d => 0 <= d < base) (digits base n).
Proof.
  intros Hb. revert n. apply (digits_rect base); [done| |].
  - intros n Hn. rewrite digits_unfold by lia.
    destruct (Z.ltb_spec n base); [|lia]. by constructor.
  - intros n Hn IH. rewrite digits_unfold by lia.
    destruct (Z.ltb_spec n base); [lia|].
    apply Forall_app. split; [done|]. constructor; [|done].
    apply Z.mod_pos_bound. lia.
Qed.

Lemma digits_nonempty (base n : Z) :
  2 <= base -> 0 <= n -> digits base n <> [].
Proof.
  intros Hb Hn. rewrite digits_unfold by done.
  destruct (n <? base); [done|]. by destruct (digits base (n / base)).
Qed.

Lemma fixed_digits_0 (w : nat) (base : Z) :
  fixed_digits w base 0 = replicate w 0.
Proof.
  induction w as [|w IH]; [done|]. simpl.
  rewrite Zdiv_0_l, Zmod_0_l, IH.
  change [0] with (replicate 1 0). rewrite <- replicate_add.
  by rewrite Nat.add_comm.
Qed.

Lemma length_fixed_digits (w : nat) (base n : Z) :
  length (fixed_digits w base n) = w.
Proof.
  revert n. induction w as [|w IH]; intros n; simpl; [done|].
  rewrite length_app, IH. simpl. lia.
Qed.

Lemma length_digits (base n : Z) (w : nat) :
  2 <= base -> 0 <= n < base ^ Z.of_nat w -> (0 < w)%nat ->
  (length (digits base n) <= w)%nat.
Proof.
  intros Hb. revert n. induction w as [|w IH]; intros n Hn Hw; [lia|].
  rewrite digits_unfold by lia. destruct (Z.ltb_spec n base); [simpl; lia|].
  rewrite length_app. simpl.
  rewrite Nat2Z.inj_succ, Z.pow_succ_r in Hn by lia.
  assert (0 <= n / base) by (apply Z.div_pos; lia).
  assert (n / base < base ^ Z.of_nat w)
    by (apply Z.div_lt_upper_bound; lia).
  destruct w as [|w]; [change (base ^ Z.of_nat 0) with 1 in *; lia|].
  specialize (IH (n / base)). lia.
Qed.

(** Zero padding to a fixed width gives the fixed-width digits. *)
Lemma pad_digits (w : nat) (base n : Z) :
  2 <= base -> 0 <= n < base ^ Z.of_nat w -> (0 < w)%nat ->
  replicate (w - length (digits base n)) 0 ++ digits base n
  = fixed_digits w base n.
Proof.
  intros Hb. revert n. induction w as [|w IH]; intros n Hn Hw; [lia|].
  rewrite digits_unfold by lia. simpl fixed_digits.
  rewrite Nat2Z.inj_succ, Z.pow_succ_r in Hn by lia.
  destruct (Z.ltb_spec n base).
  - rewrite Z.div_small, Z.mod_small, fixed_digits_0 by lia.
    simpl. by rewrite Nat.sub_0_r.
  - assert (0 <= n / base) by (apply Z.div_pos; lia).
    assert (n / base < base ^ Z.of_nat w)
      by (apply Z.div_lt_upper_bound; lia).
    destruct w as [|w]; [change (base ^ Z.of_nat 0) with 1 in *; lia|].
    rewrite <- IH by lia. rewrite length_app, app_assoc. f_equal. f_equal.
    f_equal. simpl. lia.
Qed.

Lemma fixed_digits_value (base : Z) (ds : list Z) :
  2 <= base -> Forall (fun d => 0 <= d < base) ds ->
  fixed_digits (length ds) base (value_of base ds) = ds.
Proof.
  intros Hb. induction ds as [|d ds IH] using rev_ind; [done|].
  intros [Hds Hd]%Forall_app. apply Forall_inv in Hd. simpl in Hd.
  rewrite length_app, Nat.add_comm. simpl.
  rewrite value_of_snoc.
  replace ((value_of base ds * base + d) / base) with (value_of base ds)
    by (apply Z.div_unique with d; lia).
  replace ((value_of base ds * base + d) mod base) with d
    by (apply Z.mod_unique with (value_of base ds); lia).
  by rewrite IH.
Qed.

Lemma value_of_range (base : Z) (ds : list Z) :
  2 <= base -> Forall (fun d => 0 <= d < base) ds ->
  0 <= value_of base ds < base ^ Z.of_nat (length ds).
Proof.
  intros Hb. induction ds as [|d ds IH] using rev_ind.
  - intros _. unfold value_of. simpl. lia.
  - intros [Hds Hd]%Forall_app. apply Forall_inv in Hd. simpl in Hd.
    rewrite value_of_snoc, length_app, Nat.add_comm. simpl length.
    rewrite Nat2Z.inj_succ, Z.pow_succ_r by lia.
    specialize (IH Hds). nia.
Qed.

Lemma value_of_zeros (base : Z) (k : nat) (ds : list Z) :
  value_of base (replicate k 0 ++ ds) = value_of base ds.
Proof.
  unfold value_of. rewrite foldl_app. f_equal.
  induction k as [|k IH]; [done|]. simpl. apply IH.
Qed.

Ltac z_cases_go k :=
  first [ exfalso; lia
        | destruct k as [|k]; [vm_compute; try done | z_cases_go k] ].

(** Case analysis on an integer [d] known to lie in [0 <= d < n]. *)
Ltac z_cases d n :=
  let Hd := fresh in
  let Hn := fresh in
  assert (Hd : d = Z.of_nat (Z.to_nat d)) by lia;
  assert (Hn : (Z.to_nat d < n)%nat) by lia;
  rewrite Hd; generalize dependent (Z.to_nat d);
  let k := fresh "k" in
  intros k; intros; z_cases_go k.

Lemma digit_char_val (d : Z) :
  0 <= d < 16 -> digit_val (digit_char d) = Some d.
Proof. intros. z_cases d 16%nat. Qed.

Lemma digit_char_plain (d : Z) :
  0 <= d < 16 ->
  byte_eqb (digit_char d) UNDERSCORE = false
  /\ is_space (digit_char d) = false
  /\ byte_eqb (digit_char d) Byte.x2b = false
  /\ byte_eqb (digit_char d) Byte.x2d = false
  /\ byte_eqb (digit_char d) Byte.x78 = false
  /\ byte_eqb (digit_char d) Byte.x58 = false.
Proof. intros. z_cases d 16%nat. Qed.

Lemma scan_digits_all (base : Z) (ds : list Z) (ndig : nat) (acc : Z) :
  base <= 16 -> Forall (fun d => 0 <= d < base) ds ->
  (0 < ndig + length ds)%nat ->
  scan_digits base (digit_char <$> ds) false ndig acc
  = Some (foldl (fun a d => a * base + d) acc ds, []).
Proof.
  intros Hb Hds. revert ndig acc.
  induction Hds as [|d ds Hd Hds IH]; intros ndig acc Hn; simpl.
  - rewrite bool_decide_eq_false_2 by (simpl in Hn; lia). done.
  - destruct (digit_char_plain d ltac:(lia)) as (-> & _).
    rewrite digit_char_val by lia.
    destruct (Z.ltb_spec d base); [|lia].
    apply IH. lia.
Qed.

Lemma int_of_str_plain (base : Z) (c0 : byte) (t : bytes) :
  is_space c0 = false -> byte_eqb c0 Byte.x2b = false ->
  byte_eqb c0 Byte.x2d = false -> byte_eqb c0 UNDERSCORE = false ->
  match t with
  | cx :: _ => byte_eqb cx Byte.x78 = false /\ byte_eqb cx Byte.x58 = false
  | [] => True
  end ->
  int_of_str base (c0 :: t)
  = match scan_digits base (c0 :: t) false O 0 with
    | Some (v, rest) =>
        match skip_spaces rest with
        | [] => Ok v
        | _ :: _ => Raise ValueError
        end
    | None => Raise ValueError
    end.
Proof.
  intros Hsp Hplus Hminus Hu Hx. unfold int_of_str.
  cbn [skip_spaces]. rewrite Hsp, Hplus, Hminus.
  destruct t as [|cx t].
  - by rewrite Hu.
  - destruct Hx as [-> ->]. rewrite andb_false_r. by rewrite Hu.
Qed.

Lemma int_of_str_digits (base : Z) (ds : list Z) :
  base = 10 \/ base = 16 -> ds <> [] ->
  Forall (fun d => 0 <= d < base) ds ->
  int_of_str base (digit_char <$> ds) = Ok (value_of base ds).
Proof.
  intros Hb Hne Hds.
  destruct ds as [|d0 ds]; [done|].
  pose proof (Forall_inv Hds) as Hd0. simpl in Hd0.
  destruct (digit_char_plain d0 ltac:(lia)) as (Hu & Hsp & Hplus & Hminus & _).
  rewrite fmap_cons, int_of_str_plain; try done.
  - change (digit_char d0 :: (digit_char <$> ds)) with (digit_char <$> d0 :: ds).
    rewrite scan_digits_all by (simpl; lia || done). done.
  - destruct ds as [|d1 ds]; [done|]. rewrite fmap_cons.
    pose proof (Forall_inv (Forall_inv_tail Hds)) as Hd1. simpl in Hd1.
    by destruct (digit_char_plain d1 ltac:(lia)) as (_ & _ & _ & _ & -> & ->).
Qed.

Lemma int_of_str_sp_digits (ds : list Z) :
  ds <> [] -> Forall (fun d => 0 <= d < 10) ds ->
  int_of_str 10 (SP :: (digit_char <$> ds)) = Ok (value_of 10 ds).
Proof.
  intros Hne Hds. rewrite <- (int_of_str_digits 10 ds) by (done || by left).
  destruct ds as [|d0 ds]; [done|].
  pose proof (Forall_inv Hds) as Hd0. simpl in Hd0.
  destruct (digit_char_plain d0 ltac:(lia)) as (_ & Hsp & _).
  unfold int_of_str. rewrite fmap_cons. cbn [skip_spaces].
  change (is_space SP) with true. cbv iota. by rewrite Hsp.
Qed.

Lemma str_of_int_digits (n : Z) :
  0 <= n -> str_of_int n = digit_char <$> digits 10 n.
Proof.
  intros. unfold str_of_int. destruct (Z.ltb_spec n 0); [lia|]. done.
Qed.

(** [int(" " + str(n))] is [n] *)
Lemma int_of_str_of_int (n : Z) :
  0 <= n -> int_of_str 10 (SP :: str_of_int n) = Ok n.
Proof.
  intros. rewrite str_of_int_digits by done.
  rewrite int_of_str_sp_digits.
  - by rewrite value_of_digits.
  - by apply digits_nonempty.
  - by apply digits_range.
Qed.

Lemma str_of_int_plain (n : Z) (c : byte) :
  0 <= n -> c ∈ str_of_int n -> c <> SP /\ c <> NUL.
Proof.
  intros Hn. rewrite str_of_int_digits by done.
  intros (d & -> & Hd)%list_elem_of_fmap.
  pose proof (digits_range 10 n ltac:(lia) Hn) as Hr.
  rewrite Forall_forall in Hr. specialize (Hr d Hd). simpl in Hr.
  clear Hd. split; intros E; revert E; z_cases d 10%nat.
Qed.

Lemma format_040x_fixed (n : Z) :
  0 <= n < 16 ^ 40 ->
  format_040x n = digit_char <$> fixed_digits 40 16 n.
Proof.
  intros Hn. unfold format_040x, format_zero, render.
  destruct (Z.ltb_spec n 0); [lia|].
  rewrite Z.abs_eq by lia.
  rewrite <- (pad_digits 40 16 n) by (lia || done).
  rewrite fmap_app, fmap_replicate, length_fmap. done.
Qed.

Lemma length_format_040x (n : Z) :
  0 <= n < 16 ^ 40 -> length (format_040x n) = 40%nat.
Proof.
  intros. rewrite format_040x_fixed by done.
  by rewrite length_fmap, length_fixed_digits.
Qed.

Lemma fixed_digits_range (w : nat) (base n : Z) :
  2 <= base -> Forall (fun d => 0 <= d < base) (fixed_digits w base n).
Proof.
  intros Hb. revert n. induction w as [|w IH]; intros n; simpl; [done|].
  apply Forall_app. split; [apply IH|]. constructor; [|done].
  apply Z.mod_pos_bound. lia.
Qed.

Lemma value_of_fixed_digits (w : nat) (base n : Z) :
  2 <= base -> 0 <= n < base ^ Z.of_nat w ->
  value_of base (fixed_digits w base n) = n.
Proof.
  intros Hb. revert n. induction w as [|w IH]; intros n Hn.
  - change (base ^ Z.of_nat 0) with 1 in Hn. unfold value_of. simpl. lia.
  - simpl. rewrite value_of_snoc.
    rewrite Nat2Z.inj_succ, Z.pow_succ_r in Hn by lia.
    rewrite IH.
    + pose proof (Z.div_mod n base). lia.
    + split; [apply Z.div_pos; lia|]. apply Z.div_lt_upper_bound; lia.
Qed.

(** [int(format(n, "040x"), 16)] is [n] *)
Lemma int_of_format_040x (n : Z) :
  0 <= n < 16 ^ 40 -> int_of_str 16 (format_040x n) = Ok n.
Proof.
  intros Hn. rewrite format_040x_fixed by done.
  rewrite int_of_str_digits.
  - by rewrite value_of_fixed_digits.
  - by right.
  - simpl. by destruct (fixed_digits 39 16 (n / 16)).
  - by apply fixed_digits_range.
Qed.

Lemma lower_hex_digit (c : byte) :
  is_lower_hex c = true ->
  0 <= hex_digit c < 16 /\ digit_char (hex_digit c) = c.
Proof. destruct c; vm_compute; intuition congruence. Qed.

Lemma digest_digits (s : str) :
  forallb is_lower_hex s = true ->
  Forall (fun d => 0 <= d < 16) (hex_digit <$> s)
  /\ digit_char <$> (hex_digit <$> s) = s.
Proof.
  induction s as [|c s IH]; [done|]. cbn [forallb]. rewrite !fmap_cons.
  intros [Hc Hs]%andb_prop. destruct (IH Hs) as [H1 H2].
  destruct (lower_hex_digit c Hc) as [H3 H4].
  split; [by constructor|]. by rewrite H4, H2.
Qed.

(** [int(s, 16)] of a digest is its value, *)
Lemma int_of_digest (s : str) :
  is_digest s ->
  int_of_str 16 s = Ok (hex_value s) /\ 0 <= hex_value s < 16 ^ 40.
Proof.
  intros [Hl Hh]. destruct (digest_digits s Hh) as [Hr Hs].
  split.
  - rewrite <- Hs at 1. apply int_of_str_digits; [by right| |done].
    destruct s; [done|]. done.
  - unfold hex_value. pose proof (value_of_range 16 _ ltac:(lia) Hr) as H.
    by rewrite length_fmap, Hl in H.
Qed.

(** and printing the value gives the digest back. *)
Lemma format_hex_value (s : str) :
  is_digest s -> format_040x (hex_value s) = s.
Proof.
  intros Hd. destruct (int_of_digest s Hd) as [_ Hr]. destruct Hd as [Hl Hh].
  destruct (digest_digits s Hh) as [Hds Hs].
  rewrite format_040x_fixed by done. unfold hex_value.
  replace 40%nat with (length (hex_digit <$> s)) by (by rewrite length_fmap).
  rewrite fixed_digits_value by (lia || done). done.
Qed.

Lemma format_040x_digest (n : Z) :
  0 <= n < 16 ^ 40 -> is_digest (format_040x n).
Proof.
  intros Hn. split; [by apply length_format_040x|].
  rewrite format_040x_fixed by done.
  pose proof (fixed_digits_range 40 16 n ltac:(lia)) as Hr.
  revert Hr. generalize (fixed_digits 40 16 n). intros ds Hr.
  induction Hr as [|d ds Hd Hds IH]; [done|].
  rewrite fmap_cons. cbn [forallb].
  rewrite IH, andb_true_r. clear -Hd. z_cases d 16%nat.
Qed.

(** ** Reading objects *)

Lemma blen_slice_from (raw : bytes) (y : Z) :
  -1 <= y < blen raw -> blen (slice_from raw (y + 1)) = blen raw - y - 1.
Proof.
  intros. unfold blen in *. rewrite slice_from_length by lia. lia.
Qed.

Section ObjectRead.
Context `{Zlib} `{Interpreter}.
Variables (repository : GitRepository) (sha : str) (fs fs' : filesystem).
Variables (path : str) (content raw : bytes).
Hypothesis Hpath :
  repo_file repository (objects_path sha) false fs = Ok (Some path, fs').
Hypothesis Hcontent : read_file fs path = Ok content.
Hypothesis Hraw : zlib_decompress content = Ok raw.

Let x := find SP raw 0.
Let y := find NUL raw x.
Let payload := slice_from raw (y + 1).

Lemma object_read_unfold :
  object_read repository sha fs =
    (size ← decode_ascii (slice raw x y) ≫= int_of_str 10;
     if negb (size =? blen payload) then Raise (MalformedObject sha)
     else
       let fmt := slice raw 0 x in
       if bool_decide (fmt = B "commit") then
         kvlm ← deserialize_commit payload; Ok (Some (GitCommit kvlm))
       else if bool_decide (fmt = B "tree") then
         items ← tree_parse payload; Ok (Some (GitTree items))
       else if bool_decide (fmt = B "tag") then
         kvlm ← deserialize_commit payload; Ok (Some (GitTag kvlm))
       else if bool_decide (fmt = B "blob") then
         Ok (Some (GitBlob payload))
       else
         _ ← decode_ascii fmt;
         Raise (UnknownType fmt sha)).
Proof.
  unfold object_read. rewrite Hpath. cbn [mbind result_bind].
  assert (isfile fs path = true) as ->.
  { unfold read_file in Hcontent. unfold isfile.
    by destruct (nodes fs !! path) as [[]|]. }
  cbn [negb]. rewrite Hcontent. cbn [mbind result_bind]. rewrite Hraw.
  cbn [mbind result_bind]. fold x. fold y.
  destruct (decode_ascii (slice raw x y)) as [s| |]; [|done..].
  cbn [mbind result_bind].
  destruct (int_of_str 10 s) as [size| |]; [|done..].
  cbn [mbind result_bind]. subst payload.
  rewrite blen_slice_from by apply find_range. done.
Qed.

(** A length field that parses as a number different from the size of
    the payload makes [object_read] raise, whatever the kind is. *)
Lemma object_read_bad_length (size : Z) :
  decode_ascii (slice raw x y) ≫= int_of_str 10 = Ok size ->
  size <> blen payload ->
  object_read repository sha fs = Raise (MalformedObject sha).
Proof.
  intros Hsize Hne. rewrite object_read_unfold, Hsize.
  cbn [mbind result_bind].
  destruct (Z.eqb_spec size (blen payload)); [done|]. done.
Qed.

(** Whenever [object_read] returns an object, the length field is
    exactly the size of the payload the object was built from. *)
Lemma object_read_length_ok (obj : option GitObject) :
  object_read repository sha fs = Ok obj ->
  decode_ascii (slice raw x y) ≫= int_of_str 10 = Ok (blen payload).
Proof.
  rewrite object_read_unfold.
  destruct (decode_ascii (slice raw x y) ≫= int_of_str 10)
    as [size| |]; [|done..].
  cbn [mbind result_bind].
  destruct (Z.eqb_spec size (blen payload)) as [->|]; [done|]. done.
Qed.
End ObjectRead.

(** C8.  [object_read] compares the length field of the header with the
    size of the payload before it looks at the kind: a stored object whose
    length field is a number other than the size of its payload makes it
    raise "Malformed object" and return nothing, and every object it
    returns was built from a payload of exactly the announced size. *)
Theorem object_read_validates_length `{Zlib} `{Interpreter}
    (repository : GitRepository) (sha : str) (fs fs' : filesystem)
    (path : str) (content raw : bytes) :
  repo_file repository (objects_path sha) false fs = Ok (Some path, fs') ->
  read_file fs path = Ok content ->
  zlib_decompress content = Ok raw ->
  let x := find SP raw 0 in
  let y := find NUL raw x in
  let payload := slice_from raw (y + 1) in
  let length_field := decode_ascii (slice raw x y) ≫= int_of_str 10 in
  (forall size, length_field = Ok size -> size <> blen payload ->
     object_read repository sha fs = Raise (MalformedObject sha))
  /\ (forall obj, object_read repository sha fs = Ok obj ->
        length_field = Ok (blen payload)).
Proof.
  intros Hpath Hcontent Hraw. split.
  - intros size. by apply object_read_bad_length with fs' path content.
  - intros obj. by apply object_read_length_ok with fs' path content.
Qed.

Lemma object_read_validates_length_witness :
  object_read (H := zlib_identity) demo_repository corrupt_sha corrupt_fs
  = Raise (MalformedObject corrupt_sha).
Proof.
  refine (proj1 (object_read_validates_length (H := zlib_identity)
            demo_repository corrupt_sha corrupt_fs corrupt_fs
            (B "/w/.git/objects/f2/ba8f84ab5c1bce84a7b441cb1959cfc7093b7f")
            (B "blob 5" ++ [NUL] ++ B "abc") (B "blob 5" ++ [NUL] ++ B "abc")
            _ _ _) 5 _ _).
  - vm_compute. reflexivity.
  - vm_compute. reflexivity.
  - reflexivity.
  - vm_compute. reflexivity.
  - vm_compute. discriminate.
Defined.

(** ** Finding objects *)

Lemma codepoints_head (c : byte) (s : str) :
  exists rest cs, codepoints (c :: s) = (c :: rest) :: cs.
Proof.
  cbn [codepoints].
  destruct (codepoints s) as [|[|c0 cc] cs]; [by eexists _, _..|].
  destruct (is_cont c0); by eexists _, _.
Qed.

(** A character that begins with a hexadecimal digit is no white space. *)
Lemma is_space_char_hex (c : byte) (rest : bytes) :
  is_hex c = true -> is_space_char (c :: rest) = false.
Proof.
  intros Hc. destruct rest as [|b1 [|b2 [|b3 rest]]]; [| | |done];
    revert Hc; by destruct c.
Qed.

Lemma hashRE_match_plain (name : str) :
  hashRE_match name = true ->
  strip_is_empty name = false /\ name <> B "HEAD".
Proof.
  intros Hm. split.
  - unfold hashRE_match in Hm. unfold strip_is_empty.
    apply andb_prop in Hm as [Hm _]. apply andb_prop in Hm as [Hall H4].
    destruct name as [|c name]; [done|].
    assert (is_hex c = true) as Hc.
    { destruct (last (c :: name)) as [l|]; [|by apply andb_prop in Hall as [? _]].
      destruct (byte_eqb l NL); [|by apply andb_prop in Hall as [? _]].
      destruct name as [|c' name]; [done|].
      cbn [removelast forallb] in Hall. by apply andb_prop in Hall as [? _]. }
    destruct (codepoints_head c name) as (rest & cs & ->).
    cbn [forallb]. by rewrite is_space_char_hex.
  - intros ->. by vm_compute in Hm.
Qed.

Section ObjectFind.
Context `{Zlib} `{Interpreter}.
Variables (fuel : nat) (repository : GitRepository) (fs : filesystem).

Lemma object_find_empty (name : str) (fmt_ : option bytes) (follow : bool)
    (cands : option (list (option str))) :
  object_resolve fuel repository name fs = Ok cands ->
  cands = None \/ cands = Some [] ->
  object_find fuel repository name fmt_ follow fs
  = Raise (NoSuchReference name).
Proof.
  intros Hr Hc. unfold object_find. rewrite Hr. cbn [mbind result_bind].
  by destruct Hc as [-> | ->].
Qed.

Lemma object_find_many (name : str) (fmt_ : option bytes) (follow : bool)
    (c1 c2 : option str) (cs : list (option str)) :
  object_resolve fuel repository name fs = Ok (Some (c1 :: c2 :: cs)) ->
  object_find fuel repository name fmt_ follow fs
  = Raise (AmbiguousReference name (omap id (c1 :: c2 :: cs))).
Proof. intros Hr. unfold object_find. by rewrite Hr. Qed.

(** What [object_resolve] collects for a name that looks like a hash. *)
Lemma object_resolve_hash (name dir : str) (names : list str)
    (tag branch remote : option str) :
  let lname := ascii_lower name in
  let prefix := str_slice lname 0 2 in
  let rem := str_slice_from lname 2 in
  hashRE_match name = true ->
  repo_dir repository [B "objects"; prefix] false fs = Ok (Some dir, fs) ->
  listdir fs dir = Ok names ->
  ref_resolve fuel repository (B "refs/tags/" ++ lname) fs = Ok tag ->
  ref_resolve fuel repository (B "refs/heads/" ++ lname) fs = Ok branch ->
  ref_resolve fuel repository (B "refs/remotes/" ++ lname) fs = Ok remote ->
  object_resolve fuel repository name fs
  = Ok (Some (((fun f : str => Some (prefix ++ f))
                 <$> filter (fun f : str => startswith rem f) names)
              ++ filter (fun c => truthy c) [tag; branch; remote])).
Proof.
  intros lname prefix rem Hm Hdir Hls Ht Hb Hr.
  destruct (hashRE_match_plain name Hm) as [Hs Hh].
  unfold object_resolve. rewrite Hs, bool_decide_eq_false_2 by done.
  rewrite Hm. fold lname. fold prefix. rewrite Hdir.
  cbn [mbind result_bind]. rewrite Hls. cbn [mbind result_bind].
  rewrite Ht. cbn [mbind result_bind].
  rewrite Hb. cbn [mbind result_bind]. rewrite Hr.
  cbn [mbind result_bind]. fold rem.
  f_equal. f_equal.
  destruct tag as [[|? ?]|], branch as [[|? ?]|], remote as [[|? ?]|];
    cbn; rewrite <- ?app_assoc, ?app_nil_r; done.
Qed.
End ObjectFind.

Lemma two_members {A} (l : list A) (a b : A) :
  a ∈ l -> b ∈ l -> a <> b -> exists c1 c2 cs, l = c1 :: c2 :: cs.
Proof.
  intros Ha Hb Hne. destruct l as [|c1 [|c2 cs]].
  - by apply elem_of_nil in Ha.
  - apply list_elem_of_singleton in Ha, Hb. congruence.
  - by exists c1, c2, cs.
Qed.

(** C6.  [object_find] raises "No such reference" when [object_resolve]
    finds no candidate, and "Ambiguous reference" with the list of all
    candidates when it finds two or more; a name of hexadecimal digits that
    is the beginning of the names of two stored objects ends in the second
    error, and both digests are in its list. *)
Theorem object_find_not_found_or_ambiguous `{Zlib} `{Interpreter}
    (fuel : nat) (repository : GitRepository) (name : str) (fmt_ : option bytes)
    (follow : bool) (fs : filesystem) :
  (forall cands,
     object_resolve fuel repository name fs = Ok cands ->
     cands = None \/ cands = Some [] ->
     object_find fuel repository name fmt_ follow fs
     = Raise (NoSuchReference name))
  /\ (forall c1 c2 cs,
        object_resolve fuel repository name fs = Ok (Some (c1 :: c2 :: cs)) ->
        object_find fuel repository name fmt_ follow fs
        = Raise (AmbiguousReference name (omap id (c1 :: c2 :: cs))))
  /\ (forall dir names f1 f2 tag branch remote,
        let lname := ascii_lower name in
        let prefix := str_slice lname 0 2 in
        let rem := str_slice_from lname 2 in
        hashRE_match name = true ->
        repo_dir repository [B "objects"; prefix] false fs = Ok (Some dir, fs) ->
        listdir fs dir = Ok names ->
        f1 ∈ names -> f2 ∈ names -> f1 <> f2 ->
        startswith rem f1 = true -> startswith rem f2 = true ->
        ref_resolve fuel repository (B "refs/tags/" ++ lname) fs = Ok tag ->
        ref_resolve fuel repository (B "refs/heads/" ++ lname) fs = Ok branch ->
        ref_resolve fuel repository (B "refs/remotes/" ++ lname) fs = Ok remote ->
        exists candidates,
          object_find fuel repository name fmt_ follow fs
          = Raise (AmbiguousReference name candidates)
          /\ prefix ++ f1 ∈ candidates /\ prefix ++ f2 ∈ candidates).
Proof.
  split; [|split].
  - intros cands. apply object_find_empty.
  - intros c1 c2 cs. apply object_find_many.
  - intros dir names f1 f2 tag branch remote lname prefix rem
      Hm Hdir Hls Hf1 Hf2 Hne Hs1 Hs2 Ht Hb Hr.
    pose proof (object_resolve_hash fuel repository fs name dir names
                  tag branch remote Hm Hdir Hls Ht Hb Hr) as Hres.
    fold lname prefix rem in Hres.
    set (l := _ ++ _) in Hres.
    assert (forall f, f ∈ names -> startswith rem f = true ->
                      Some (prefix ++ f) ∈ l) as Hin.
    { intros f Hf Hs. apply elem_of_app. left.
      apply list_elem_of_fmap. exists f. split; [done|].
      apply list_elem_of_filter. split; [|done]. by rewrite Hs. }
    destruct (two_members l (Some (prefix ++ f1)) (Some (prefix ++ f2)))
      as (c1 & c2 & cs & El); [by apply Hin | by apply Hin | |].
    { intros [= E]. by apply app_inv_head in E. }
    exists (omap id l). split; [|split].
    + rewrite El in Hres |- *. by apply object_find_many.
    + apply list_elem_of_omap. exists (Some (prefix ++ f1)).
      split; [by apply Hin | done].
    + apply list_elem_of_omap. exists (Some (prefix ++ f2)).
      split; [by apply Hin | done].
Qed.

Lemma object_find_not_found_or_ambiguous_witness :
  store_all (H := zlib_identity) demo_repository twin_blobs demo_fs = Ok twin_fs
  /\ exists candidates,
       object_find (H := zlib_identity) 8 demo_repository (B "8324") None true
         twin_fs
       = Raise (AmbiguousReference (B "8324") candidates)
       /\ B "83248fb9df4a244c41a10fa536045d5a8e759aee" ∈ candidates
       /\ B "83249da5a136e0e0e9388917c65b042ef5179b5e" ∈ candidates.
Proof.
  split; [vm_compute; reflexivity|].
  refine (proj2 (proj2 (object_find_not_found_or_ambiguous
            (H := zlib_identity) 8 demo_repository (B "8324") None true
            twin_fs))
            (B "/w/.git/objects/83")
            [B "248fb9df4a244c41a10fa536045d5a8e759aee";
             B "249da5a136e0e0e9388917c65b042ef5179b5e"]
            (B "248fb9df4a244c41a10fa536045d5a8e759aee")
            (B "249da5a136e0e0e9388917c65b042ef5179b5e")
            None None None _ _ _ _ _ _ _ _ _ _ _).
  - vm_compute. reflexivity.
  - vm_compute. reflexivity.
  - vm_compute. reflexivity.
  - apply list_elem_of_here.
  - apply list_elem_of_further, list_elem_of_here.
  - vm_compute. discriminate.
  - vm_compute. reflexivity.
  - vm_compute. reflexivity.
  - vm_compute. reflexivity.
  - vm_compute. reflexivity.
  - vm_compute. reflexivity.
Defined.

Section ObjectFindLoop.
Context `{Zlib} `{Interpreter}.
Variables (repository : GitRepository) (fs : filesystem) (fmt_ : bytes).

Lemma object_find_loop_step (fuel : nat) (sha sha' : str) :
  deref_step repository fs fmt_ sha sha' ->
  object_find_loop (S fuel) repository (Some sha) fmt_ true fs
  = object_find_loop fuel repository (Some sha') fmt_ true fs.
Proof.
  intros (obj & Hobj & Hfmt & Hstep). cbn [object_find_loop of_option].
  cbn [mbind result_bind]. rewrite Hobj. cbn [mbind result_bind of_option].
  rewrite bool_decide_eq_false_2 by done. cbn [negb].
  destruct obj as [| kvlm | kvlm |]; try done.
  - destruct Hstep as [-> Hstep]. rewrite bool_decide_eq_true_2 by done.
    by rewrite Hstep.
  - by rewrite Hstep.
Qed.

Lemma object_find_loop_stuck (fuel : nat) (sha : str) (obj : GitObject)
    (follow : bool) :
  object_read repository sha fs = Ok (Some obj) ->
  fmt obj <> fmt_ ->
  follow = false \/ no_step obj fmt_ ->
  object_find_loop (S fuel) repository (Some sha) fmt_ follow fs = Ok None.
Proof.
  intros Hobj Hfmt Hstuck. cbn [object_find_loop of_option].
  cbn [mbind result_bind]. rewrite Hobj. cbn [mbind result_bind of_option].
  rewrite bool_decide_eq_false_2 by done.
  destruct Hstuck as [-> | [_ Hno]]; [done|].
  destruct follow; [|done]. cbn [negb].
  destruct obj as [| kvlm | kvlm |]; try done.
  by rewrite bool_decide_eq_false_2.
Qed.

Lemma object_find_loop_chain (n fuel : nat) (sha0 sha : str)
    (obj : GitObject) :
  nsteps (deref_step repository fs fmt_) n sha0 sha ->
  object_read repository sha fs = Ok (Some obj) ->
  no_step obj fmt_ ->
  (n < fuel)%nat ->
  object_find_loop fuel repository (Some sha0) fmt_ true fs = Ok None.
Proof.
  intros Hn Hobj Hno. revert fuel.
  induction Hn as [sha | n sha0 sha1 sha Hstep Hn IH]; intros fuel Hlt.
  - destruct fuel as [|fuel]; [lia|].
    apply object_find_loop_stuck with obj; [done | apply Hno | by right].
  - destruct fuel as [|fuel]; [lia|].
    rewrite (object_find_loop_step fuel sha0 sha1) by done.
    apply IH; (done || lia).
Qed.
End ObjectFindLoop.

(** C7, as the code has it.  When [object_find] is given an expected kind
    and the dereference chain reaches an object of another kind from which
    no step is allowed (or [follow] is false and the first object is of
    another kind), it returns [None]: it raises nothing, with or without
    [follow]. *)
Theorem object_find_mismatch_returns_none `{Zlib} `{Interpreter}
    (fuel n : nat) (repository : GitRepository) (name : str) (fmt_ : bytes)
    (follow : bool)
    (fs : filesystem) (sha0 sha : str) (obj : GitObject) :
  fmt_ <> [] ->
  object_resolve fuel repository name fs = Ok (Some [Some sha0]) ->
  nsteps (deref_step repository fs fmt_) n sha0 sha ->
  (follow = false -> n = O) ->
  object_read repository sha fs = Ok (Some obj) ->
  fmt obj <> fmt_ ->
  follow = false \/ no_step obj fmt_ ->
  (n < fuel)%nat ->
  object_find fuel repository name (Some fmt_) follow fs = Ok None.
Proof.
  intros Hf Hres Hn Hfollow Hobj Hfmt Hstuck Hlt.
  unfold object_find. rewrite Hres. cbn [mbind result_bind].
  destruct fmt_ as [|c f]; [done|].
  destruct follow.
  - destruct Hstuck as [|Hno]; [done|].
    by apply object_find_loop_chain with n sha obj.
  - rewrite (Hfollow eq_refl) in Hn. inversion Hn; subst.
    destruct fuel as [|fuel]; [lia|].
    apply object_find_loop_stuck with obj; [done | done | by left].
Qed.

Lemma object_find_mismatch_returns_none_witness :
  store_all (H := zlib_identity) demo_repository twin_blobs demo_fs = Ok twin_fs
  /\ object_find (H := zlib_identity) 8 demo_repository
       (B "83248fb9df4a244c41a10fa536045d5a8e759aee") (Some (B "tree"))
       true twin_fs = Ok None.
Proof.
  split; [vm_compute; reflexivity|].
  refine (object_find_mismatch_returns_none (H := zlib_identity) 8 0
            demo_repository _ (B "tree") true twin_fs
            (B "83248fb9df4a244c41a10fa536045d5a8e759aee")
            (B "83248fb9df4a244c41a10fa536045d5a8e759aee")
            (GitBlob (B "142")) _ _ _ _ _ _ _ _).
  - discriminate.
  - vm_compute. reflexivity.
  - apply nsteps_O.
  - discriminate.
  - vm_compute. reflexivity.
  - vm_compute. discriminate.
  - right. split; [vm_compute; discriminate | exact I].
  - lia.
Defined.

(** C7 as stated does not hold: with a blob stored and a tree asked for,
    [object_find] raises nothing, whether it follows or not. *)
Lemma object_find_mismatch_raises_nothing :
  store_all (H := zlib_identity) demo_repository twin_blobs demo_fs = Ok twin_fs
  /\ (forall follow : bool,
        object_find (H := zlib_identity) 8 demo_repository
          (B "83248fb9df4a244c41a10fa536045d5a8e759aee") (Some (B "tree"))
          follow twin_fs = Ok None)
  /\ ~ (exists e,
          object_find (H := zlib_identity) 8 demo_repository
            (B "83248fb9df4a244c41a10fa536045d5a8e759aee")
            (Some (B "tree")) true twin_fs = Raise e)
  /\ ~ (exists e,
          object_find (H := zlib_identity) 8 demo_repository
            (B "83248fb9df4a244c41a10fa536045d5a8e759aee")
            (Some (B "tree")) false twin_fs = Raise e).
Proof.
  assert (forall follow : bool,
            object_find (H := zlib_identity) 8 demo_repository
              (B "83248fb9df4a244c41a10fa536045d5a8e759aee") (Some (B "tree"))
              follow twin_fs = Ok None) as Hnone.
  { intros [|]; vm_compute; reflexivity. }
  split; [vm_compute; reflexivity|].
  split; [exact Hnone|].
  split; intros [e He]; rewrite Hnone in He; discriminate.
Qed.

(** ** Writing objects *)

Lemma cwd_mkdir (fs fs' : filesystem) (p : str) :
  mkdir fs p = Ok fs' -> cwd fs' = cwd fs.
Proof.
  unfold mkdir. destruct (exists_ fs p); [done|].
  destruct (negb _); [done|]. by intros [= <-].
Qed.

Lemma cwd_makedirs (fuel : nat) (fs fs' : filesystem) (p : str) :
  makedirs fuel fs p = Ok fs' -> cwd fs' = cwd fs.
Proof.
  revert fs fs' p. induction fuel as [|fuel IH]; intros fs fs' p; [done|].
  cbn [makedirs]. destruct (Path.split_path p) as [head tail].
  destruct (if bool_decide (tail = []) then Path.split_path head
            else (head, tail)) as [head' tail'].
  destruct (_ && _).
  - destruct (makedirs fuel fs head') as [fs1|e|] eqn:E; [| |done].
    + cbn [mbind result_bind]. apply IH in E.
      destruct (bool_decide _); [by intros [= <-]|].
      intros Hm%cwd_mkdir. congruence.
    + destruct e; try done. cbn [mbind result_bind].
      destruct (bool_decide _); [by intros [= <-]|].
      apply cwd_mkdir.
  - apply cwd_mkdir.
Qed.

Lemma cwd_replace_file (fs fs' : filesystem) (p : str) (c : bytes) :
  replace_file fs p c = Ok fs' -> cwd fs' = cwd fs.
Proof.
  unfold replace_file. destruct (negb _); [done|].
  destruct (isdir fs p); [done|]. by intros [= <-].
Qed.

Lemma exists_replace_file (fs fs' : filesystem) (p : str) (c : bytes) :
  replace_file fs p c = Ok fs' -> exists_ fs' p = true.
Proof.
  unfold replace_file. destruct (negb _); [done|].
  destruct (isdir fs p); [done|]. intros [= <-].
  unfold exists_. cbn [nodes with_nodes]. rewrite lookup_insert_eq.
  by apply bool_decide_eq_true_2.
Qed.

Lemma repo_path_cwd (fs fs' : filesystem) (r : GitRepository)
    (parts : list str) :
  cwd fs' = cwd fs -> repo_path fs' r parts = repo_path fs r parts.
Proof. intros E. unfold repo_path. by rewrite E. Qed.

Lemma cwd_repo_dir (r : GitRepository) (parts : list str) (mk : bool)
    (fs fs' : filesystem) (d : option str) :
  repo_dir r parts mk fs = Ok (d, fs') -> cwd fs' = cwd fs.
Proof.
  unfold repo_dir. destruct (repo_path fs r parts) as [p| |]; [|done..].
  cbn [mbind result_bind]. destruct (exists_ fs p).
  - destruct (isdir fs p); [by intros [= _ <-] | done].
  - destruct mk; [|by intros [= _ <-]].
    destruct (makedirs _ fs p) as [fs1| |] eqn:E; [|done..].
    cbn [mbind result_bind]. intros [= _ <-]. by apply cwd_makedirs in E.
Qed.

Lemma repo_file_Some (r : GitRepository) (parts : list str) (mk : bool)
    (fs fs' : filesystem) (p : str) :
  repo_file r parts mk fs = Ok (Some p, fs') ->
  cwd fs' = cwd fs /\ repo_path fs r parts = Ok p.
Proof.
  unfold repo_file.
  destruct (repo_dir r (removelast parts) mk fs) as [[d fs1]| |] eqn:E;
    [|done..].
  cbn [mbind result_bind]. apply cwd_repo_dir in E.
  destruct d; [|done].
  destruct (repo_path fs1 r parts) as [p'| |] eqn:E'; [|done..].
  cbn [mbind result_bind]. intros [= <- <-].
  split; [done|]. by rewrite <- (repo_path_cwd fs fs1).
Qed.

(** After [object_write] has returned a digest, an object is stored under
    that digest. *)
Lemma object_write_exists `{Zlib} (obj : GitObject) (r : GitRepository)
    (fs fs' : filesystem) (sha : str) :
  object_write obj (Some r) fs = Ok (sha, fs') ->
  object_exists r sha fs' = true.
Proof.
  unfold object_write.
  destruct (serialize obj) as [data| |]; [|done..]. cbn [mbind result_bind].
  set (s := SHA1.hexdigest _).
  destruct (repo_file r (objects_path s) true fs) as [[[p|] fs1]| |] eqn:E;
    [|done..].
  cbn [mbind result_bind]. apply repo_file_Some in E as [Hcwd Hp].
  unfold object_exists.
  destruct (exists_ fs1 p) eqn:Ex.
  - intros [= <- <-]. by rewrite (repo_path_cwd fs fs1), Hp.
  - destruct (replace_file fs1 p _) as [fs2| |] eqn:Ew; [|done..].
    cbn [mbind result_bind]. intros [= <- <-].
    rewrite (repo_path_cwd fs fs2), Hp.
    + by apply exists_replace_file in Ew.
    + apply cwd_replace_file in Ew. congruence.
Qed.

Lemma object_write_empty_tree_sha `{Zlib} (repository : option GitRepository)
    (fs fs' : filesystem) (sha : str) :
  object_write (GitTree []) repository fs = Ok (sha, fs') ->
  sha = empty_tree_sha.
Proof.
  unfold object_write. cbn [serialize]. 
  change (tree_serialize []) with (@Ok bytes []). cbn [mbind result_bind].
  set (s := SHA1.hexdigest _).
  assert (s = empty_tree_sha) as -> by (vm_compute; reflexivity).
  destruct repository as [r|]; [|by intros [= <- _]].
  destruct (repo_file r _ true fs) as [[[p|] fs1]| |]; [|done..].
  cbn [mbind result_bind]. destruct (exists_ fs1 p); [by intros [= <- _]|].
  destruct (replace_file fs1 p _) as [fs2| |]; [|done..].
  by intros [= <- _].
Qed.

(** ** The tree builder *)

Lemma tree_from_index_empty_eq `{Zlib} (repository : option GitRepository)
    (v : Z) (fs : filesystem) :
  tree_from_index repository {| version := v; entries := [] |} fs
  = ('(sha, fs') ← object_write (GitTree []) repository fs;
     Ok (Some sha, fs')).
Proof.
  unfold tree_from_index. cbn [entries group_entries mbind result_bind].
  change (sorted_paths [([], [])]) with [@nil byte].
  cbn [write_trees]. 
  change (dict_get [] [([], [])]) with (Some (@nil content_item)).
  cbn [of_option mbind result_bind fmap list_fmap].
  destruct (object_write (GitTree []) repository fs) as [[sha fs']| |];
    [|done..].
  cbn [mbind result_bind]. reflexivity.
Qed.

(** C10.  For an index without entries [tree_from_index] makes exactly one
    call of [object_write], for the root tree; that tree has no entries and
    the empty byte string as its payload; and the call returns the digest of
    that tree, [4b825dc6...], never [None].  In the repository [demo_fs]
    the call succeeds and leaves this one object in the store. *)
Theorem tree_from_index_empty `{Zlib} (repository : option GitRepository)
    (v : Z) (fs : filesystem) :
  let index := {| version := v; entries := [] |} in
  serialize (GitTree []) = Ok []
  /\ tree_from_index repository index fs
     = ('(sha, fs') ← object_write (GitTree []) repository fs;
        Ok (Some sha, fs'))
  /\ (forall sha fs',
        tree_from_index repository index fs = Ok (sha, fs') ->
        sha = Some empty_tree_sha)
  /\ (exists fs',
        tree_from_index (Some demo_repository) index demo_fs
        = Ok (Some empty_tree_sha, fs')
        /\ listdir fs' (B "/w/.git/objects") = Ok [B "4b"]
        /\ listdir fs' (B "/w/.git/objects/4b")
           = Ok [B "825dc642cb6eb9a060e54bf8d69288fbee4904"]
        /\ read_file fs'
             (B "/w/.git/objects/4b/825dc642cb6eb9a060e54bf8d69288fbee4904")
           = Ok (zlib_compress (B "tree 0" ++ [NUL]))).
Proof.
  intros index. split; [done|]. split; [apply tree_from_index_empty_eq|].
  split.
  - intros sha fs'. unfold index. rewrite tree_from_index_empty_eq.
    destruct (object_write (GitTree []) repository fs) as [[s fs1]| |] eqn:E;
      [|done..].
    cbn [mbind result_bind]. intros [= <- <-].
    by rewrite (object_write_empty_tree_sha repository fs fs1 s E).
  - eexists. split; [vm_compute; reflexivity|].
    split; [vm_compute; reflexivity|].
    split; vm_compute; reflexivity.
Qed.

(** ** Sorting *)

Section Sort.
Context {A : Type} (leb : A -> A -> bool).
Hypothesis leb_total : forall x y, leb x y = true \/ leb y x = true.
Hypothesis leb_trans :
  forall x y z, leb x y = true -> leb y z = true -> leb x z = true.

Lemma insert_by_perm (x : A) (l : list A) : insert_by leb x l ≡ₚ x :: l.
Proof.
  induction l as [|y l IH]; [done|]. simpl.
  destruct (leb x y); [done|]. rewrite IH. apply Permutation_swap.
Qed.

Lemma sort_by_perm (l : list A) : sort_by leb l ≡ₚ l.
Proof.
  induction l as [|x l IH]; [done|]. unfold sort_by in *. simpl.
  by rewrite insert_by_perm, IH.
Qed.

Lemma insert_by_sorted (x : A) (l : list A) :
  StronglySorted (fun a b => leb a b = true) l ->
  StronglySorted (fun a b => leb a b = true) (insert_by leb x l).
Proof.
  induction 1 as [|y l Hl IH Hy]; simpl.
  - repeat constructor.
  - destruct (leb x y) eqn:E.
    + constructor; [by constructor|]. constructor; [done|].
      eapply Forall_impl; [exact Hy|]. intros z Hz. simpl in Hz.
      by apply leb_trans with y.
    + constructor; [done|].
      rewrite (insert_by_perm x l). constructor; [|done].
      by destruct (leb_total x y) as [|]; [congruence|].
Qed.

Lemma sort_by_sorted (l : list A) :
  StronglySorted (fun a b => leb a b = true) (sort_by leb l).
Proof.
  induction l as [|x l IH]; [constructor|].
  unfold sort_by in *. simpl. by apply insert_by_sorted.
Qed.

(** Sorting a sorted list changes nothing. *)
Lemma sort_by_id (l : list A) :
  StronglySorted (fun a b => leb a b = true) l -> sort_by leb l = l.
Proof.
  induction 1 as [|x l Hl IH Hx]; [done|].
  unfold sort_by in *. simpl. rewrite IH.
  destruct l as [|y l]; [done|]. simpl.
  by rewrite (Forall_inv Hx).
Qed.
End Sort.

Lemma StronglySorted_weaken {A} (R1 R2 : A -> A -> Prop) (l : list A) :
  (forall x y, R1 x y -> R2 x y) ->
  StronglySorted R1 l -> StronglySorted R2 l.
Proof.
  intros HR. induction 1 as [|x l Hl IH Hx]; constructor; [done|].
  eapply Forall_impl; [exact Hx|]. auto.
Qed.

(** The directories are processed longest path first. *)
Lemma sorted_paths_descending (contents : contents_dict) :
  StronglySorted (fun a b => str_len b <= str_len a) (sorted_paths contents).
Proof.
  unfold sorted_paths.
  apply StronglySorted_weaken
    with (fun a b => (str_len b <=? str_len a) = true).
  - intros a b Hab. lia.
  - apply sort_by_sorted.
    + intros x y. lia.
    + intros x y z. lia.
Qed.

Lemma perm3 {A} (a b c : A) (l : list A) :
  l ≡ₚ [a; b; c] ->
  l = [a; b; c] \/ l = [a; c; b] \/ l = [b; a; c]
  \/ l = [b; c; a] \/ l = [c; a; b] \/ l = [c; b; a].
Proof.
  intros Hp.
  apply Permutation_vs_cons_inv in Hp as Hs. destruct Hs as (l1 & l2 & ->).
  symmetry in Hp. apply Permutation_cons_app_inv in Hp.
  apply Permutation_length_2_inv in Hp.
  destruct Hp as [Hp | Hp];
    destruct l1 as [|x [|y [|z l1]]]; simpl in Hp; simplify_eq; simpl; tauto.
Qed.

(** ** Dictionaries *)

Section DictLemmas.
Context {K V : Type} `{EqDecision K}.
Implicit Types (d : list (K * V)).

Lemma dict_get_set_eq k v d : dict_get k (dict_set k v d) = Some v.
Proof.
  induction d as [|[k' v'] d IH]; simpl.
  - by rewrite decide_True.
  - destruct (decide (k' = k)) as [->|Hne]; simpl.
    + by rewrite decide_True.
    + by rewrite decide_False.
Qed.

Lemma dict_get_set_ne k k' v d :
  k <> k' -> dict_get k' (dict_set k v d) = dict_get k' d.
Proof.
  intros Hne. induction d as [|[k0 v0] d IH]; simpl.
  - by rewrite decide_False.
  - destruct (decide (k0 = k)) as [->|Hne0]; simpl.
    + by rewrite !decide_False.
    + destruct (decide (k0 = k')); [done|]. apply IH.
Qed.
End DictLemmas.

Lemma dict_append_Some (key : str) (x : content_item) (l : list content_item)
    (contents : contents_dict) :
  dict_get key contents = Some l ->
  dict_append key x contents = Ok (dict_set key (l ++ [x]) contents).
Proof. intros E. unfold dict_append. by rewrite E. Qed.

(** ** The tree builder on three nested paths *)

Lemma group_three (ea eb ec : GitIndexEntry) (es : list GitIndexEntry) :
  name ea = B "a.txt" -> name eb = B "dir/b.txt" ->
  name ec = B "dir/sub/c.txt" ->
  es ≡ₚ [ea; eb; ec] ->
  exists contents,
    group_entries es [([], [])] = Ok contents
    /\ sorted_paths contents = [B "dir/sub"; B "dir"; []]
    /\ dict_get (B "dir/sub") contents = Some [Staged ec]
    /\ dict_get (B "dir") contents = Some [Staged eb]
    /\ dict_get [] contents = Some [Staged ea].
Proof.
  intros Ha Hb Hc Hp.
  destruct ea, eb, ec. simpl in Ha, Hb, Hc. subst.
  apply perm3 in Hp.
  destruct Hp as [-> | [-> | [-> | [-> | [-> | ->]]]]];
    (eexists; split; [vm_compute; reflexivity|]; vm_compute; done).
Qed.

Section ThreePaths.
Context `{Zlib}.
Variables (repository : option GitRepository).
Variables (ea eb ec : GitIndexEntry).
Hypothesis Ha : name ea = B "a.txt".
Hypothesis Hb : name eb = B "dir/b.txt".
Hypothesis Hc : name ec = B "dir/sub/c.txt".

Lemma tree_from_index_three (index : GitIndex) (fs : filesystem) :
  entries index ≡ₚ [ea; eb; ec] ->
  tree_from_index repository index fs
  = ('(s1, fs1) ←
       object_write (GitTree [leaf_of (Staged ec)]) repository fs;
     '(s2, fs2) ←
       object_write
         (GitTree [leaf_of (Staged eb); leaf_of (Subtree (B "sub") s1)])
         repository fs1;
     '(s3, fs3) ←
       object_write
         (GitTree [leaf_of (Staged ea); leaf_of (Subtree (B "dir") s2)])
         repository fs2;
     Ok (Some s3, fs3)).
Proof.
  intros Hp.
  destruct (group_three ea eb ec _ Ha Hb Hc Hp)
    as (contents & Hg & Hs & Hsub & Hdir & Hroot).
  unfold tree_from_index. rewrite Hg. cbn [mbind result_bind].
  rewrite Hs. cbn [write_trees].
  rewrite Hsub. cbn [of_option mbind result_bind fmap list_fmap].
  destruct (object_write _ repository fs) as [[s1 fs1]| |]; [|done..].
  cbn [mbind result_bind].
  change (Path.dirname (B "dir/sub")) with (B "dir").
  change (Path.basename (B "dir/sub")) with (B "sub").
  rewrite (dict_append_Some _ _ _ _ Hdir). cbn [mbind result_bind].
  rewrite dict_get_set_eq. cbn [of_option mbind result_bind]. 
  change (leaf_of <$> [Staged eb] ++ [Subtree (B "sub") s1])
    with [leaf_of (Staged eb); leaf_of (Subtree (B "sub") s1)].
  destruct (object_write _ repository fs1) as [[s2 fs2]| |]; [|done..].
  cbn [mbind result_bind].
  change (Path.dirname (B "dir")) with (@nil byte).
  change (Path.basename (B "dir")) with (B "dir").
  rewrite (dict_append_Some _ _ [Staged ea])
    by (by rewrite dict_get_set_ne).
  cbn [mbind result_bind].
  rewrite dict_get_set_eq. cbn [of_option mbind result_bind].
  change (leaf_of <$> [Staged ea] ++ [Subtree (B "dir") s2])
    with [leaf_of (Staged ea); leaf_of (Subtree (B "dir") s2)].
  destruct (object_write _ repository fs2) as [[s3 fs3]| |]; [|done..].
  cbn [mbind result_bind].
  change (Path.dirname []) with (@nil byte).
  change (Path.basename []) with (@nil byte).
  rewrite (dict_append_Some _ _ ([Staged ea] ++ [Subtree (B "dir") s2]))
    by apply dict_get_set_eq.
  done.
Qed.

(** The entries of the root tree are already in the order in which
    [tree_serialize] writes them. *)
Lemma root_tree_sorted (s : str) :
  tree_sorted [leaf_of (Staged ea); leaf_of (Subtree (B "dir") s)]
  = [leaf_of (Staged ea); leaf_of (Subtree (B "dir") s)].
Proof.
  unfold tree_sorted, sort_by. cbn [foldr insert_by].
  assert (tree_leaf_le (leaf_of (Staged ea)) (leaf_of (Subtree (B "dir") s))
          = true) as ->; [|done].
  unfold tree_leaf_le, tree_leaf_sort_key. cbn [leaf_of path mode].
  rewrite Ha.
  change (Path.basename (B "a.txt")) with (B "a.txt").
  change (startswith (B "10") (B "040000")) with false. cbv iota.
  by destruct (startswith _ _).
Qed.
End ThreePaths.

(** C1.  For an index that holds exactly the paths [a.txt], [dir/b.txt]
    and [dir/sub/c.txt], in any order and with any metadata,
    [tree_from_index] is three calls of [object_write]: for [dir/sub],
    then [dir], then the root.  The directories are taken longest path
    first (for every index), so the digest of a child is in the store
    when the tree of its parent is written.  The root tree has the two
    entries [a.txt] (from the staged entry) and [dir] (mode [040000], the
    digest returned for [dir]), already in the order of the sort, in which
    [dir] compares as [dir/]. *)
Theorem tree_from_index_three_paths `{Zlib}
    (repository : option GitRepository) (index : GitIndex) (fs : filesystem)
    (ea eb ec : GitIndexEntry) :
  name ea = B "a.txt" -> name eb = B "dir/b.txt" ->
  name ec = B "dir/sub/c.txt" ->
  entries index ≡ₚ [ea; eb; ec] ->
  let sub := GitTree [leaf_of (Staged ec)] in
  let dir s := GitTree [leaf_of (Staged eb); leaf_of (Subtree (B "sub") s)] in
  let root_items s := [leaf_of (Staged ea); leaf_of (Subtree (B "dir") s)] in
  tree_from_index repository index fs
  = ('(s1, fs1) ← object_write sub repository fs;
     '(s2, fs2) ← object_write (dir s1) repository fs1;
     '(s3, fs3) ← object_write (GitTree (root_items s2)) repository fs2;
     Ok (Some s3, fs3))
  /\ (exists contents,
        group_entries (entries index) [([], [])] = Ok contents
        /\ sorted_paths contents = [B "dir/sub"; B "dir"; []])
  /\ (forall contents,
        StronglySorted (fun a b => str_len b <= str_len a)
          (sorted_paths contents))
  /\ (forall r s1 fs1,
        repository = Some r ->
        object_write sub repository fs = Ok (s1, fs1) ->
        object_exists r s1 fs1 = true
        /\ forall s2 fs2,
             object_write (dir s1) repository fs1 = Ok (s2, fs2) ->
             object_exists r s2 fs2 = true)
  /\ (forall s,
        tree_sorted (root_items s) = root_items s
        /\ root_items s
           = [ {| mode := format_zero 8 2 (mode_type ea)
                          ++ format_zero 8 4 (mode_perms ea);
                  path := B "a.txt"; sha := esha ea |};
               {| mode := B "040000"; path := B "dir"; sha := s |} ]
        /\ tree_leaf_sort_key (leaf_of (Subtree (B "dir") s)) = B "dir/").
Proof.
  intros Ha Hb Hc Hp sub dir root_items.
  split; [by apply tree_from_index_three|].
  split.
  { destruct (group_three ea eb ec _ Ha Hb Hc Hp) as (c & ? & ? & _).
    by exists c. }
  split; [apply sorted_paths_descending|].
  split.
  { intros r s1 fs1 -> Hw1. split; [by apply object_write_exists in Hw1|].
    intros s2 fs2 Hw2. by apply object_write_exists in Hw2. }
  intros s. split; [by apply root_tree_sorted|]. split; [|done].
  unfold root_items. cbn [leaf_of]. rewrite Ha. done.
Qed.

Lemma tree_from_index_three_paths_witness :
  exists fs3,
    tree_from_index (H := zlib_identity) (Some demo_repository) three_index
      demo_fs
    = Ok (Some (B "8b47ad76ec10ec5140804e7432ef4f9e04066f2c"), fs3)
    /\ listdir fs3 (B "/w/.git/objects") = Ok [B "17"; B "fe"; B "8b"].
Proof.
  pose proof (proj1 (tree_from_index_three_paths (H := zlib_identity)
                (Some demo_repository) three_index demo_fs
                (staged_entry (B "a.txt")) (staged_entry (B "dir/b.txt"))
                (staged_entry (B "dir/sub/c.txt"))
                eq_refl eq_refl eq_refl
                (Permutation_sym
                   (Permutation_cons_append
                      [staged_entry (B "dir/b.txt");
                       staged_entry (B "dir/sub/c.txt")]
                      (staged_entry (B "a.txt")))))) as E.
  rewrite E. eexists. split; vm_compute; reflexivity.
Defined.

(** ** The sort key of tree entries *)

(** C5 fails on the code: the key of [tree_leaf_sort_key] is the bare name
    only for modes that begin with [10]; a symbolic link ([120000]) and a
    gitlink ([160000]) get the trailing [/] of a directory, so the link [a]
    is written after the file [a.txt], which it precedes by its name. *)
Theorem tree_leaf_sort_key_link_gets_slash :
  let link := {| mode := B "120000"; path := B "a";
                 sha := B "e69de29bb2d1d6434b8b29ae775ad8c2e48c5391" |} in
  let gitlink := {| mode := B "160000"; path := B "a";
                    sha := B "e69de29bb2d1d6434b8b29ae775ad8c2e48c5391" |} in
  let file := {| mode := B "100644"; path := B "a.txt";
                 sha := B "e69de29bb2d1d6434b8b29ae775ad8c2e48c5391" |} in
  tree_leaf_sort_key link = B "a/"
  /\ tree_leaf_sort_key gitlink = B "a/"
  /\ tree_leaf_sort_key file = B "a.txt"
  /\ bytes_leb (path link) (path file) = true
  /\ tree_sorted [link; file] = [file; link]
  /\ tree_sorted [gitlink; file] = [file; gitlink].
Proof. vm_compute. repeat split; reflexivity. Qed.

(** ** Staging *)

Lemma rm_split_kept (repository : GitRepository) (es kept : list GitIndexEntry)
    (remove : list str) (abspaths : gset bytes) :
  exists k,
    (rm_split repository es kept remove abspaths).1.1 = kept ++ k
    /\ sublist k es.
Proof.
  revert kept remove abspaths.
  induction es as [|e es IH]; intros kept remove abspaths; cbn [rm_split].
  - exists []. by rewrite app_nil_r.
  - destruct (bool_decide _).
    + destruct (IH kept (remove ++ [Path.join (worktree repository) [name e]])
                  (abspaths ∖ {[Path.join (worktree repository) [name e]]}))
        as (k & -> & Hk).
      exists k. split; [done|]. by apply sublist_cons.
    + destruct (IH (kept ++ [e]) remove abspaths) as (k & -> & Hk).
      exists (e :: k). split; [by rewrite <- app_assoc|].
      by apply sublist_skip.
Qed.

(** The entries [rm] keeps have distinct paths when those of the index
    it read have. *)
Lemma rm_split_NoDup (repository : GitRepository) (es : list GitIndexEntry)
    (abspaths : gset bytes) :
  NoDup (name <$> es) ->
  NoDup (name <$> (rm_split repository es [] [] abspaths).1.1).
Proof.
  intros Hnd. destruct (rm_split_kept repository es [] [] abspaths)
    as (k & -> & Hk).
  simpl. apply (sublist_NoDup _ (name <$> es)); [done | by apply fmap_sublist].
Qed.

(** C9 fails on the code for directories.  Staging the file [dir/b.txt]
    and staging it again leaves one entry, but staging the directory [dir]
    (or the working tree) afterwards appends a second entry for
    [dir/b.txt]: the [rm] that [add] starts with only looks for an entry
    called [dir]. *)
Theorem add_directory_duplicates_entry :
  let add_ paths := add (H := zlib_identity) 8 demo_repository paths in
  staged_names (add_ [B "dir/b.txt"] worktree_fs) = Ok [B "dir/b.txt"]
  /\ staged_names (add_ [B "dir/b.txt"] worktree_fs ≫= add_ [B "dir/b.txt"])
     = Ok [B "dir/b.txt"]
  /\ staged_names (add_ [B "dir/b.txt"] worktree_fs ≫= add_ [B "dir"])
     = Ok [B "dir/b.txt"; B "dir/b.txt"]
  /\ staged_names (add_ [B "."] worktree_fs ≫= add_ [B "."])
     = Ok [B "dir/b.txt"; B "dir/b.txt"].
Proof. vm_compute. repeat split; reflexivity. Qed.

(** ** The key-value list with message *)

Lemma kvlm_unescape_escape (v : bytes) : kvlm_unescape (kvlm_escape v) = v.
Proof.
  unfold kvlm_unescape, kvlm_escape.
  induction v as [|x v IH]; [done|]. cbn [replace1].
  destruct (byte_eqb x NL) eqn:E.
  - apply byte_eqb_true in E as ->. cbn [app replace2].
    rewrite !byte_eqb_refl. cbn [andb app]. by rewrite IH.
  - cbn [replace2]. rewrite E. cbn [andb].
    destruct (replace1 NL [NL; SP] v) as [|y s] eqn:Es.
    + destruct v as [|z v]; [done|]. cbn [replace1] in Es.
      by destruct (byte_eqb z NL).
    + by rewrite IH.
Qed.

Lemma kvlm_escape_no_nl (v : bytes) : NL ∉ v -> kvlm_escape v = v.
Proof.
  unfold kvlm_escape. induction v as [|x v IH]; [done|].
  intros [Hx Hv]%not_elem_of_cons. cbn [replace1].
  assert (byte_eqb x NL = false) as -> by (apply byte_eqb_false; congruence).
  by rewrite IH.
Qed.

Lemma kvlm_escape_app (v1 v2 : bytes) :
  kvlm_escape (v1 ++ v2) = kvlm_escape v1 ++ kvlm_escape v2.
Proof.
  unfold kvlm_escape. induction v1 as [|x v1 IH]; [done|].
  cbn [app replace1]. by destruct (byte_eqb x NL); rewrite IH.
Qed.

(** A byte string has no newline, or a first one. *)
Lemma first_newline (v : bytes) :
  NL ∉ v \/ exists v1 v2, v = v1 ++ NL :: v2 /\ NL ∉ v1.
Proof.
  induction v as [|x v IH]; [left; apply not_elem_of_nil|].
  destruct (decide (x = NL)) as [->|Hx].
  - right. exists [], v. split; [done | apply not_elem_of_nil].
  - destruct IH as [Hv | (v1 & v2 & -> & Hv1)].
    + left. by apply not_elem_of_cons.
    + right. exists (x :: v1), v2. split; [done|].
      apply not_elem_of_cons. split; [congruence | done].
Qed.

Lemma find_Some (c : byte) (l : bytes) (start p : Z) :
  find c l start = p -> p <> -1 ->
  clamp (blen l) start <= p /\ l !! Z.to_nat p = Some c.
Proof.
  unfold find. set (s := clamp _ _).
  pose proof (clamp_range (blen l) start (blen_nonneg l)) as Hs. fold s in Hs.
  destruct (index_of c (drop (Z.to_nat s) l)) as [i|] eqn:E; [|congruence].
  intros <- _. apply index_of_Some in E as [E _].
  rewrite lookup_drop in E. split; [lia|].
  by replace (Z.to_nat (s + Z.of_nat i)) with (Z.to_nat s + i)%nat by lia.
Qed.

(** The inner loop of [kvlm_parse] stops at the newline that ends the
    escaped value: [raw] is [a1 ++ a2 ++ escape v ++ NL :: c :: rest] with
    [c] not a space, the search starts after [a1], and [a2] has no
    newline. *)
Ltac reassoc x y :=
  replace x with y by (rewrite <- ?app_assoc; reflexivity).

Lemma kvlm_value_end_spec (fuel : nat) (a1 a2 v : bytes) (c : byte)
    (rest : bytes) (end_ : Z) :
  end_ + 1 = blen a1 -> NL ∉ a2 -> c <> SP ->
  (length v < fuel)%nat ->
  kvlm_value_end fuel (a1 ++ a2 ++ kvlm_escape v ++ NL :: c :: rest) end_
  = Ok (blen a1 + blen a2 + blen (kvlm_escape v)).
Proof.
  revert a1 a2 v end_.
  induction fuel as [|fuel IH]; intros a1 a2 v end_ He Ha2 Hc Hf; [lia|].
  cbn [kvlm_value_end]. rewrite He.
  destruct (first_newline v) as [Hv | (v1 & v2 & -> & Hv1)].
  - rewrite kvlm_escape_no_nl by done.
    reassoc (a1 ++ a2 ++ v ++ NL :: c :: rest)
            (a1 ++ (a2 ++ v) ++ NL :: (c :: rest)).
    rewrite (find_app NL a1 (a2 ++ v)) by
      (done || (rewrite not_elem_of_app; done)).
    reassoc (a1 ++ (a2 ++ v) ++ NL :: (c :: rest))
            ((a1 ++ (a2 ++ v) ++ [NL]) ++ c :: rest).
    rewrite (item_app (a1 ++ (a2 ++ v) ++ [NL]) rest c)
      by (rewrite !length_app; unfold blen; rewrite length_app; simpl; lia).
    cbn [mbind result_bind].
    assert (byte_eqb c SP = false) as -> by (by apply byte_eqb_false).
    cbn [negb]. f_equal. rewrite blen_app. lia.
  - rewrite kvlm_escape_app. change (NL :: v2) with ([NL] ++ v2).
    rewrite kvlm_escape_app, (kvlm_escape_no_nl v1) by done.
    change (kvlm_escape [NL]) with [NL; SP].
    set (e2 := kvlm_escape v2).
    reassoc (a1 ++ a2 ++ (v1 ++ [NL; SP] ++ e2) ++ NL :: c :: rest)
            (a1 ++ (a2 ++ v1) ++ NL :: ([SP] ++ e2 ++ NL :: c :: rest)).
    rewrite (find_app NL a1 (a2 ++ v1)) by
      (done || (rewrite not_elem_of_app; done)).
    reassoc (a1 ++ (a2 ++ v1) ++ NL :: ([SP] ++ e2 ++ NL :: c :: rest))
            ((a1 ++ (a2 ++ v1) ++ [NL]) ++ SP :: (e2 ++ NL :: c :: rest)).
    rewrite (item_app (a1 ++ (a2 ++ v1) ++ [NL]) _ SP)
      by (rewrite !length_app; unfold blen; rewrite length_app; simpl; lia).
    cbn [mbind result_bind]. rewrite byte_eqb_refl. cbn [negb].
    change ((a1 ++ (a2 ++ v1) ++ [NL]) ++ SP :: (e2 ++ NL :: c :: rest))
      with ((a1 ++ (a2 ++ v1) ++ [NL]) ++ [SP] ++ e2 ++ NL :: c :: rest).
    subst e2. rewrite (IH (a1 ++ (a2 ++ v1) ++ [NL]) [SP] v2).
    + f_equal. rewrite !blen_app. unfold blen. simpl. lia.
    + rewrite !blen_app. unfold blen. simpl. lia.
    + by intros ?%list_elem_of_singleton.
    + done.
    + rewrite length_app in Hf. simpl in Hf. lia.
Qed.

Lemma length_kvlm_escape (v : bytes) :
  (length v <= length (kvlm_escape v))%nat.
Proof.
  unfold kvlm_escape. induction v as [|x v IH]; [done|]. cbn [replace1].
  destruct (byte_eqb x NL); simpl; lia.
Qed.

Lemma kvlm_lines_cons (kv : bytes * bytes) (lines : list (bytes * bytes)) :
  kvlm_lines (kv :: lines) = kvlm_line kv ++ kvlm_lines lines.
Proof. done. Qed.

Lemma kvlm_lines_app (l1 l2 : list (bytes * bytes)) :
  kvlm_lines (l1 ++ l2) = kvlm_lines l1 ++ kvlm_lines l2.
Proof. unfold kvlm_lines. by rewrite fmap_app, concat_app. Qed.

(** What follows a line does not begin with a space. *)
Lemma kvlm_rest_head (lines : list (bytes * bytes)) (msg : bytes) :
  Forall (fun kv : bytes * bytes => wf_key kv.1) lines ->
  exists c rest, kvlm_lines lines ++ NL :: msg = c :: rest /\ c <> SP.
Proof.
  intros Hl. destruct lines as [|[k v] lines].
  - by exists NL, msg.
  - apply Forall_inv in Hl. destruct Hl as (Hne & Hsp & _). simpl in *.
    destruct k as [|c k]; [done|].
    exists c. eexists. split; [reflexivity|].
    intros ->. apply Hsp. apply list_elem_of_here.
Qed.

(** One call of [kvlm_parse] takes one line off a commit and parses the
    rest one level deeper. *)
Lemma kvlm_parse_step (depth : nat) (pre k v : bytes)
    (lines : list (bytes * bytes)) (msg : bytes) (dct : kvlm_dict) :
  wf_key k ->
  Forall (fun kv : bytes * bytes => wf_key kv.1) lines ->
  kvlm_parse (S depth) (pre ++ kvlm_lines ((k, v) :: lines) ++ NL :: msg)
    (blen pre) dct
  = kvlm_parse depth
      ((pre ++ k ++ [SP] ++ kvlm_escape v ++ [NL])
       ++ kvlm_lines lines ++ NL :: msg)
      (blen (pre ++ k ++ [SP] ++ kvlm_escape v ++ [NL]))
      (kvlm_add dct (k, v)).
Proof.
  intros (Hne & Hsp & Hnl) Hwf.
  remember (kvlm_parse depth
              ((pre ++ k ++ [SP] ++ kvlm_escape v ++ [NL])
               ++ kvlm_lines lines ++ NL :: msg)
              (blen (pre ++ k ++ [SP] ++ kvlm_escape v ++ [NL]))
              (kvlm_add dct (k, v))) as R eqn:ER.
  rename depth into fuel.
  rewrite kvlm_lines_cons. unfold kvlm_line. cbn [fst snd].
  destruct (kvlm_rest_head lines msg Hwf) as (c & rest & Erest & Hc).
  set (e := kvlm_escape v).
  rewrite <- (app_assoc _ (kvlm_lines lines)).
  set (raw := pre ++ (k ++ [SP] ++ e ++ [NL]) ++ kvlm_lines lines ++ NL :: msg).
  cbn [kvlm_parse].
  assert (find SP raw (blen pre) = blen pre + blen k) as Hspc.
  { subst raw.
    reassoc (pre ++ (k ++ [SP] ++ e ++ [NL]) ++ kvlm_lines lines ++ NL :: msg)
            (pre ++ k ++ SP :: (e ++ [NL] ++ kvlm_lines lines ++ NL :: msg)).
    by apply find_app. }
  assert (blen pre + blen k <= find NL raw (blen pre)) as Hnlge.
  { subst raw e.
    destruct (first_newline v) as [Hv | (v1 & v2 & -> & Hv1)].
    - rewrite kvlm_escape_no_nl by done.
      reassoc (pre ++ (k ++ [SP] ++ v ++ [NL]) ++ kvlm_lines lines ++ NL :: msg)
              (pre ++ (k ++ [SP] ++ v) ++ NL :: (kvlm_lines lines ++ NL :: msg)).
      rewrite find_app; [rewrite !blen_app; pose proof (blen_nonneg v);
                         pose proof (blen_nonneg [SP]); lia | done |].
      rewrite !not_elem_of_app. split_and!; [done | | done].
      by intros ?%list_elem_of_singleton.
    - rewrite kvlm_escape_app, (kvlm_escape_no_nl v1) by done.
      change (kvlm_escape (NL :: v2)) with (NL :: SP :: kvlm_escape v2).
      reassoc (pre ++ (k ++ [SP] ++ (v1 ++ NL :: SP :: kvlm_escape v2) ++ [NL])
               ++ kvlm_lines lines ++ NL :: msg)
              (pre ++ (k ++ [SP] ++ v1)
               ++ NL :: (SP :: kvlm_escape v2 ++ [NL] ++ kvlm_lines lines ++ NL :: msg)).
      rewrite find_app; [rewrite !blen_app; pose proof (blen_nonneg v1);
                         pose proof (blen_nonneg [SP]); lia | done |].
      rewrite !not_elem_of_app. split_and!; [done | | done].
      by intros ?%list_elem_of_singleton. }
  rewrite Hspc.
  pose proof (blen_nonneg pre). pose proof (blen_nonneg k).
  destruct (Z.ltb_spec (blen pre + blen k) 0); [lia|].
  destruct (Z.ltb_spec (find NL raw (blen pre)) (blen pre + blen k)); [lia|].
  cbn [orb].
  assert (slice raw (blen pre) (blen pre + blen k) = k) as ->.
  { subst raw. rewrite <- app_assoc. by apply slice_app_mid. }
  destruct k as [|k0 k1]; [done|].
  assert (kvlm_value_end (S (length raw)) raw (blen pre)
          = Ok (blen pre + blen (k0 :: k1) + 1 + blen e)) as ->.
  { subst raw e. rewrite Erest.
    reassoc (pre ++ ((k0 :: k1) ++ [SP] ++ kvlm_escape v ++ [NL]) ++ c :: rest)
            ((pre ++ [k0]) ++ (k1 ++ [SP]) ++ kvlm_escape v ++ NL :: c :: rest).
    rewrite kvlm_value_end_spec.
    - f_equal. rewrite !blen_app, blen_cons. unfold blen. simpl. lia.
    - rewrite blen_app. unfold blen. simpl. lia.
    - apply not_elem_of_app. split.
      + apply not_elem_of_cons in Hnl. tauto.
      + by intros ?%list_elem_of_singleton.
    - done.
    - pose proof (length_kvlm_escape v). rewrite !length_app. simpl. lia. }
  cbn [mbind result_bind].
  assert (slice raw (blen pre + blen (k0 :: k1) + 1)
            (blen pre + blen (k0 :: k1) + 1 + blen e) = e) as ->.
  { subst raw.
    reassoc (pre ++ ((k0 :: k1) ++ [SP] ++ e ++ [NL]) ++ kvlm_lines lines ++ NL :: msg)
            ((pre ++ (k0 :: k1) ++ [SP]) ++ e
             ++ ([NL] ++ kvlm_lines lines ++ NL :: msg)).
    apply slice_app_mid; [|done].
    rewrite !length_app. unfold blen. simpl. lia. }
  subst e. fold (kvlm_unescape (kvlm_escape v)).
  rewrite kvlm_unescape_escape.
  fold (kvlm_add dct ((k0 :: k1), v)).
  subst raw.
  reassoc (pre ++ ((k0 :: k1) ++ [SP] ++ kvlm_escape v ++ [NL])
           ++ kvlm_lines lines ++ NL :: msg)
          ((pre ++ (k0 :: k1) ++ [SP] ++ kvlm_escape v ++ [NL])
           ++ kvlm_lines lines ++ NL :: msg).
  replace (blen pre + blen (k0 :: k1) + 1 + blen (kvlm_escape v) + 1)
    with (blen (pre ++ (k0 :: k1) ++ [SP] ++ kvlm_escape v ++ [NL]))
    by (rewrite !blen_app; unfold blen; simpl; lia).
  by rewrite ER.
Qed.

Lemma kvlm_parse_lines (fuel : nat) (pre : bytes)
    (lines : list (bytes * bytes)) (msg : bytes) (dct : kvlm_dict) :
  Forall (fun kv : bytes * bytes => wf_key kv.1) lines ->
  (length lines < fuel)%nat ->
  kvlm_parse fuel (pre ++ kvlm_lines lines ++ NL :: msg) (blen pre) dct
  = Ok (dict_set None (Single msg) (foldl kvlm_add dct lines)).
Proof.
  revert fuel pre dct.
  induction lines as [|[k v] lines IH]; intros fuel pre dct Hwf Hf;
    (destruct fuel as [|fuel]; [simpl in Hf; lia|]).
  - change (kvlm_lines [] ++ NL :: msg) with (NL :: msg).
    set (raw := pre ++ NL :: msg). cbn [kvlm_parse].
    assert (find NL raw (blen pre) = blen pre) as ->.
    { subst raw. rewrite (find_app NL pre [] msg) by
        (done || apply not_elem_of_nil). unfold blen. simpl. lia. }
    assert ((find SP raw (blen pre) <? 0)
            || (blen pre <? find SP raw (blen pre)) = true) as ->.
    { destruct (Z.eq_dec (find SP raw (blen pre)) (-1)) as [->|Hne]; [done|].
      destruct (find_Some SP raw (blen pre) _ eq_refl Hne) as [Hge Hat].
      rewrite clamp_inside in Hge
        by (subst raw; rewrite blen_app; pose proof (blen_nonneg pre);
            pose proof (blen_nonneg (NL :: msg)); lia).
      apply orb_true_iff. right. apply Z.ltb_lt.
      destruct (Z.eq_dec (find SP raw (blen pre)) (blen pre)) as [E|]; [|lia].
      rewrite E in Hat. unfold blen in Hat. rewrite Nat2Z.id in Hat.
      subst raw. rewrite list_lookup_middle in Hat by done. done. }
    rewrite Z.eqb_refl. cbn [assert mbind result_bind]. subst raw.
    reassoc (pre ++ NL :: msg) ((pre ++ [NL]) ++ msg).
    rewrite slice_from_app
      by (rewrite length_app; unfold blen; simpl; lia).
    done.
  - apply Forall_cons in Hwf as [Hk Hwf]. simpl in Hk.
    rewrite kvlm_parse_step by done.
    rewrite IH; [done | done | simpl in Hf; lia].
Qed.

(** A commit with as many lines of fields as the interpreter allows
    nested calls, or more, is not parsed. *)
Lemma kvlm_parse_deep (depth : nat) (pre : bytes)
    (lines : list (bytes * bytes)) (msg : bytes) (dct : kvlm_dict) :
  Forall (fun kv : bytes * bytes => wf_key kv.1) lines ->
  (depth <= length lines)%nat ->
  kvlm_parse depth (pre ++ kvlm_lines lines ++ NL :: msg) (blen pre) dct
  = Raise RecursionError.
Proof.
  revert depth pre dct.
  induction lines as [|[k v] lines IH]; intros depth pre dct Hwf Hd;
    (destruct depth as [|depth]; [done|]); [simpl in Hd; lia|].
  apply Forall_cons in Hwf as [Hk Hwf]. simpl in Hk.
  rewrite kvlm_parse_step by done.
  apply IH; [done | simpl in Hd; lia].
Qed.

Lemma kvlm_serialize_values (k : bytes) (vs : list bytes) (ret : bytes) :
  foldl (fun ret v => ret ++ k ++ [SP] ++ replace1 NL [NL; SP] v ++ [NL])
        ret vs
  = ret ++ kvlm_lines ((fun v => (k, v)) <$> vs).
Proof.
  revert ret. induction vs as [|v vs IH]; intros ret; cbn [foldl].
  - by rewrite app_nil_r.
  - rewrite IH, fmap_cons, kvlm_lines_cons. unfold kvlm_line, kvlm_escape.
    cbn [fst snd]. by rewrite <- !app_assoc.
Qed.

Lemma group_lines_cons (g : bytes * list bytes) (groups : kvlm_groups) :
  group_lines (g :: groups)
  = ((fun v => (g.1, v)) <$> g.2) ++ group_lines groups.
Proof. done. Qed.

Lemma kvlm_serialize_fields (d : kvlm_dict) (ret : bytes) :
  foldl (fun ret '(k, val) =>
           match k with
           | None => ret
           | Some k =>
               let vs := match val with Many vs => vs | Single v => [v] end in
               foldl (fun ret v =>
                        ret ++ k ++ [SP] ++ replace1 NL [NL; SP] v ++ [NL])
                     ret vs
           end) ret d
  = ret ++ kvlm_lines (group_lines (dict_groups d)).
Proof.
  revert ret. induction d as [|[[k|] val] d IH]; intros ret; cbn [foldl].
  - by rewrite app_nil_r.
  - rewrite IH, kvlm_serialize_values.
    change (dict_groups ((Some k, val) :: d))
      with ((k, value_list val) :: dict_groups d).
    rewrite group_lines_cons, kvlm_lines_app, <- app_assoc. cbn [fst snd].
    by destruct val.
  - apply IH.
Qed.

Lemma kvlm_serialize_spec (d : kvlm_dict) (m : bytes) :
  dict_get None d = Some (Single m) ->
  kvlm_serialize d = Ok (kvlm_lines (group_lines (dict_groups d)) ++ NL :: m).
Proof.
  intros Hm. unfold kvlm_serialize. rewrite Hm, kvlm_serialize_fields. done.
Qed.

(** Dictionaries as lists *)

Section DictList.
Context {K V : Type} `{EqDecision K}.
Implicit Types (d : list (K * V)).

Lemma dict_get_None k d : k ∉ d.*1 -> dict_get k d = None.
Proof.
  induction d as [|[k' v'] d IH]; [done|]. rewrite fmap_cons.
  intros [Hk Hd]%not_elem_of_cons. simpl in *.
  rewrite decide_False by congruence. by apply IH.
Qed.

Lemma dict_set_fresh k v d : k ∉ d.*1 -> dict_set k v d = d ++ [(k, v)].
Proof.
  induction d as [|[k' v'] d IH]; [done|]. rewrite fmap_cons.
  intros [Hk Hd]%not_elem_of_cons. simpl in *.
  rewrite decide_False by congruence. by rewrite IH.
Qed.

Lemma dict_get_last k v d : k ∉ d.*1 -> dict_get k (d ++ [(k, v)]) = Some v.
Proof.
  intros Hk. rewrite <- dict_set_fresh by done. apply dict_get_set_eq.
Qed.

Lemma dict_set_last k v v' d :
  k ∉ d.*1 -> dict_set k v' (d ++ [(k, v)]) = d ++ [(k, v')].
Proof.
  induction d as [|[k0 v0] d IH]; simpl.
  - intros _. by rewrite decide_True.
  - rewrite not_elem_of_cons. intros [Hk Hd].
    rewrite decide_False by congruence. by rewrite IH.
Qed.
End DictList.

Lemma group_value_snoc (v0 v : bytes) (vs : list bytes) :
  match group_value (v0 :: vs) with
  | Many ws => Many (ws ++ [v])
  | Single w => Many [w; v]
  end = group_value (v0 :: vs ++ [v]).
Proof. destruct vs as [|v1 vs]; [done|]. by destruct vs. Qed.

(** The lines of one group add one entry to the dictionary. *)
Lemma kvlm_add_group (dct : kvlm_dict) (k v0 : bytes) (vs : list bytes) :
  Some k ∉ dct.*1 ->
  foldl kvlm_add dct ((fun v => (k, v)) <$> v0 :: vs)
  = dct ++ [(Some k, group_value (v0 :: vs))].
Proof.
  intros Hk. induction vs as [|v vs IH] using rev_ind.
  - cbn [fmap list_fmap foldl]. unfold kvlm_add. cbn [fst snd].
    rewrite dict_get_None by done. by apply dict_set_fresh.
  - rewrite <- group_value_snoc.
    rewrite app_comm_cons, fmap_app, foldl_app, IH. cbn [fmap list_fmap foldl].
    unfold kvlm_add. cbn [fst snd].
    rewrite dict_get_last by done.
    destruct (group_value (v0 :: vs)); by rewrite dict_set_last.
Qed.

Lemma groups_dict_keys (groups : kvlm_groups) :
  (groups_dict groups).*1 = Some <$> groups.*1.
Proof.
  unfold groups_dict. rewrite <- !list_fmap_compose. done.
Qed.

Lemma kvlm_add_groups (g0 g : kvlm_groups) :
  NoDup (g0 ++ g).*1 -> Forall (fun x : bytes * list bytes => x.2 <> []) g ->
  foldl kvlm_add (groups_dict g0) (group_lines g) = groups_dict (g0 ++ g).
Proof.
  revert g0. induction g as [|[k vs] g IH]; intros g0 Hnd Hvs.
  - by rewrite app_nil_r.
  - apply Forall_cons in Hvs as [Hv Hvs]. simpl in Hv.
    destruct vs as [|v0 vs]; [done|].
    rewrite group_lines_cons, foldl_app. cbn [fst snd].
    rewrite kvlm_add_group.
    + change (groups_dict g0 ++ [(Some k, group_value (v0 :: vs))])
        with (groups_dict g0 ++ groups_dict [(k, v0 :: vs)]).
      unfold groups_dict at 1 2. rewrite <- fmap_app.
      fold (groups_dict (g0 ++ [(k, v0 :: vs)])).
      rewrite IH; [by rewrite <- app_assoc | | done].
      by rewrite <- app_assoc.
    + rewrite groups_dict_keys. rewrite fmap_app, fmap_cons in Hnd.
      apply NoDup_app in Hnd as (_ & Hnd & _).
      intros (k' & [= <-] & Hin)%list_elem_of_fmap.
      apply (Hnd k Hin). apply list_elem_of_here.
Qed.

Lemma dict_groups_of_groups (groups : kvlm_groups) :
  dict_groups (groups_dict groups) = groups.
Proof.
  induction groups as [|[k vs] groups IH]; [done|].
  change (dict_groups (groups_dict ((k, vs) :: groups)))
    with ((k, value_list (group_value vs))
            :: dict_groups (groups_dict groups)).
  rewrite IH. f_equal. f_equal. destruct vs as [|v [|w vs]]; done.
Qed.

Lemma dict_groups_set_None (d : kvlm_dict) (v : kvlm_value) :
  dict_groups (dict_set None v d) = dict_groups d.
Proof.
  induction d as [|[[k|] val] d IH]; [done| |done].
  cbn [dict_set]. rewrite decide_False by done.
  change (dict_groups ((Some k, val) :: ?x))
    with ((k, value_list val) :: dict_groups x).
  unfold dict_groups in *. cbn [omap list_omap fst snd]. by rewrite IH.
Qed.

Section WfKvlm.
Variable d : kvlm_dict.
Hypothesis Hwf : wf_kvlm d.

Lemma wf_kvlm_message : exists m, dict_get None d = Some (Single m).
Proof.
  destruct Hwf as (_ & Hall & Hin). clear Hwf.
  induction d as [|[[k|] v] d' IH].
  - by apply elem_of_nil in Hin.
  - apply Forall_cons in Hall as [_ Hall].
    rewrite fmap_cons in Hin. apply elem_of_cons in Hin as [|Hin]; [done|].
    simpl. rewrite ?decide_False by done. by apply IH.
  - apply Forall_cons in Hall as [[m Hm] _]. simpl in Hm. subst.
    exists m. simpl. by rewrite ?decide_True.
Qed.

Lemma wf_kvlm_groups_dict : groups_dict (dict_groups d) = kvlm_fields d.
Proof.
  destruct Hwf as (_ & Hall & _). clear Hwf.
  induction d as [|[[k|] v] d' IH]; [done| |].
  - apply Forall_cons in Hall as [[_ Hv] Hall]. simpl in Hv.
    unfold kvlm_fields. rewrite filter_cons_True by (by eexists).
    fold (kvlm_fields d'). rewrite <- IH by done.
    change (dict_groups ((Some k, v) :: d'))
      with ((k, value_list v) :: dict_groups d').
    unfold groups_dict. rewrite fmap_cons. cbn [fst snd].
    f_equal. f_equal. destruct v as [w | [|w1 [|w2 ws]]]; simpl in *; done || lia.
  - apply Forall_cons in Hall as [_ Hall].
    unfold kvlm_fields. rewrite filter_cons_False by (by intros [? ?]).
    by apply IH.
Qed.

Lemma wf_kvlm_groups : wf_groups (dict_groups d).
Proof.
  destruct Hwf as (Hnd & Hall & _). clear Hwf. split.
  - induction d as [|[[k|] v] d' IH]; [constructor| |].
    + rewrite fmap_cons in Hnd. apply NoDup_cons in Hnd as [Hk Hnd].
      apply Forall_cons in Hall as [_ Hall].
      change (dict_groups ((Some k, v) :: d'))
        with ((k, value_list v) :: dict_groups d').
      rewrite fmap_cons. apply NoDup_cons. split; [|by apply IH].
      intros ((k' & vs) & Ek & Hin)%list_elem_of_fmap. simpl in Ek.
      apply Hk. rewrite Ek. unfold dict_groups in Hin.
      apply list_elem_of_omap in Hin as ([[k1|] v1] & Hin & E);
        simpl in E; [|done]. injection E as E1 E2. rewrite <- E1.
      apply list_elem_of_fmap. by exists (Some k1, v1).
    + rewrite fmap_cons in Hnd. apply NoDup_cons in Hnd as [_ Hnd].
      apply Forall_cons in Hall as [_ Hall]. by apply IH.
  - induction d as [|[[k|] v] d' IH]; [constructor| |].
    + rewrite fmap_cons in Hnd. apply NoDup_cons in Hnd as [_ Hnd].
      apply Forall_cons in Hall as [[Hk Hv] Hall]. simpl in Hk, Hv.
      change (dict_groups ((Some k, v) :: d'))
        with ((k, value_list v) :: dict_groups d').
      constructor; [|by apply IH]. split; [done|]. simpl.
      destruct v as [w | [|w ws]]; simpl in *; done || lia.
    + rewrite fmap_cons in Hnd. apply NoDup_cons in Hnd as [_ Hnd].
      apply Forall_cons in Hall as [_ Hall]. by apply IH.
Qed.

Lemma kvlm_fields_keys : None ∉ (kvlm_fields d).*1.
Proof.
  intros ([k v] & Ek & Hin)%list_elem_of_fmap. simpl in Ek. subst k.
  apply list_elem_of_filter in Hin as [[? ?] _]. done.
Qed.

Lemma dict_get_kvlm_fields (k : bytes) :
  dict_get (Some k) (kvlm_fields d ++ [(None, Single [])])
  = dict_get (Some k) d.
Proof.
  clear Hwf. induction d as [|[k' v] d' IH]; [done|].
  unfold kvlm_fields. destruct k' as [k'|].
  - rewrite filter_cons_True by (by eexists). fold (kvlm_fields d').
    simpl. destruct (decide (Some k' = Some k)); [done|]. apply IH.
  - rewrite filter_cons_False by (by intros [? ?]). fold (kvlm_fields d').
    simpl. rewrite ?decide_False by done. apply IH.
Qed.
End WfKvlm.

Lemma dict_get_app_Some {V} (k : bytes) (d : list (option bytes * V))
    (v v' : V) :
  dict_get (Some k) (d ++ [(None, v)]) = dict_get (Some k) (d ++ [(None, v')]).
Proof.
  induction d as [|[k0 v0] d IH]; simpl.
  - by rewrite ?decide_False.
  - by destruct (decide (k0 = Some k)).
Qed.

Lemma wf_groups_lines (groups : kvlm_groups) :
  wf_groups groups ->
  Forall (fun kv : bytes * bytes => wf_key kv.1) (group_lines groups).
Proof.
  intros [_ Hall].
  induction Hall as [|[k vs] groups [Hk _] _ IH]; [constructor|].
  rewrite group_lines_cons. apply Forall_app. split; [|done].
  apply Forall_fmap, Forall_forall. by intros v _.
Qed.

(** Parsing the bytes of a well-formed commit gives the dictionary of its
    groups and the message, when the interpreter allows a call for every
    line and one more. *)
Lemma deserialize_commit_groups `{Interpreter} (groups : kvlm_groups)
    (msg : bytes) :
  wf_groups groups ->
  (length (group_lines groups) < recursion_limit)%nat ->
  deserialize_commit (kvlm_lines (group_lines groups) ++ NL :: msg)
  = Ok (groups_dict groups ++ [(None, Single msg)]).
Proof.
  intros Hwf Hlen. pose proof (wf_groups_lines groups Hwf) as Hkeys.
  unfold deserialize_commit.
  pose proof (kvlm_parse_lines recursion_limit
                [] (group_lines groups) msg [] Hkeys Hlen) as Hp.
  cbn [app] in Hp. change (blen []) with 0 in Hp. rewrite Hp.
  change (@nil (option bytes * kvlm_value)) with (groups_dict []).
  destruct Hwf as [Hnd Hall].
  rewrite kvlm_add_groups.
  - cbn [app]. rewrite dict_set_fresh; [done|].
    rewrite groups_dict_keys.
    by intros (? & ? & _)%list_elem_of_fmap.
  - done.
  - eapply Forall_impl; [exact Hall|]. by intros ? [_ ?].
Qed.

Lemma deserialize_commit_deep `{Interpreter} (groups : kvlm_groups)
    (msg : bytes) :
  wf_groups groups ->
  (recursion_limit <= length (group_lines groups))%nat ->
  deserialize_commit (kvlm_lines (group_lines groups) ++ NL :: msg)
  = Raise RecursionError.
Proof.
  intros Hwf Hlen. pose proof (wf_groups_lines groups Hwf) as Hkeys.
  unfold deserialize_commit.
  exact (kvlm_parse_deep recursion_limit [] (group_lines groups) msg []
           Hkeys Hlen).
Qed.

Lemma kvlm_serialize_groups (groups : kvlm_groups) (msg : bytes) :
  wf_groups groups ->
  kvlm_serialize (groups_dict groups ++ [(None, Single msg)])
  = Ok (kvlm_lines (group_lines groups) ++ NL :: msg).
Proof.
  intros Hwf.
  assert (None ∉ (groups_dict groups).*1) as Hno.
  { rewrite groups_dict_keys. by intros (? & ? & _)%list_elem_of_fmap. }
  rewrite (kvlm_serialize_spec _ msg) by (by apply dict_get_last).
  rewrite <- (dict_set_fresh None (Single msg)) by done.
  by rewrite dict_groups_set_None, dict_groups_of_groups.
Qed.



(** ** Files *)

Lemma replace_file_spec (fs fs' : filesystem) (p : str) (c : bytes) :
  replace_file fs p c = Ok fs' ->
  cwd fs' = cwd fs /\ read_file fs' p = Ok c /\ isfile fs' p = true
  /\ exists_ fs' p = true
  /\ (forall q, isdir fs q = true -> isdir fs' q = true).
Proof.
  unfold replace_file. destruct (negb _); [done|].
  destruct (isdir fs p) eqn:Ep; [done|]. intros [= <-].
  split; [done|].
  unfold read_file, isfile, exists_, isdir. cbn [nodes with_nodes].
  rewrite !lookup_insert_eq. split; [done|]. split; [done|].
  split; [by apply bool_decide_eq_true_2|].
  intros q Hq.
  assert (q <> p) as Hne by (intros ->; unfold isdir in Ep; congruence).
  rewrite lookup_insert_ne by done. unfold link.
  destruct (nodes fs !! Path.dirname p) as [[|names]|] eqn:Ed; try done.
  destruct (bool_decide _); [done|].
  destruct (decide (Path.dirname p = q)) as [<-|].
  - by rewrite lookup_insert_eq.
  - by rewrite lookup_insert_ne.
Qed.

Lemma repo_dir_false_Some (r : GitRepository) (parts : list str)
    (fs fs1 : filesystem) (d : str) :
  repo_dir r parts false fs = Ok (Some d, fs1) ->
  fs1 = fs /\ repo_path fs r parts = Ok d /\ isdir fs d = true.
Proof.
  unfold repo_dir. destruct (repo_path fs r parts) as [p| |]; [|done..].
  cbn [mbind result_bind]. destruct (exists_ fs p); [|done].
  destruct (isdir fs p) eqn:E; [|done]. by intros [= <- <-].
Qed.

Lemma repo_dir_false_intro (r : GitRepository) (parts : list str)
    (fs : filesystem) (d : str) :
  repo_path fs r parts = Ok d -> isdir fs d = true ->
  repo_dir r parts false fs = Ok (Some d, fs).
Proof.
  intros Hp Hd. unfold repo_dir. rewrite Hp. cbn [mbind result_bind].
  rewrite Hd. unfold isdir in Hd. unfold exists_.
  destruct (nodes fs !! d) eqn:E; [|done].
  by rewrite bool_decide_eq_true_2.
Qed.

Lemma repo_file_false_Some (r : GitRepository) (parts : list str)
    (fs fs1 : filesystem) (p : str) :
  repo_file r parts false fs = Ok (Some p, fs1) ->
  fs1 = fs /\ repo_path fs r parts = Ok p
  /\ exists d, repo_path fs r (removelast parts) = Ok d /\ isdir fs d = true.
Proof.
  unfold repo_file.
  destruct (repo_dir r (removelast parts) false fs) as [[[d|] fs2]| |] eqn:E;
    [|done..].
  apply repo_dir_false_Some in E as (-> & Hd & Hdir).
  cbn [mbind result_bind].
  destruct (repo_path fs r parts) as [p'| |]; [|done..].
  cbn [mbind result_bind]. intros [= <- <-]. split; [done|]. split; [done|].
  by exists d.
Qed.

Lemma repo_file_false_intro (r : GitRepository) (parts : list str)
    (fs : filesystem) (p d : str) :
  repo_path fs r parts = Ok p ->
  repo_path fs r (removelast parts) = Ok d -> isdir fs d = true ->
  repo_file r parts false fs = Ok (Some p, fs).
Proof.
  intros Hp Hd Hdir. unfold repo_file.
  rewrite (repo_dir_false_intro r _ fs d) by done.
  cbn [mbind result_bind]. by rewrite Hp.
Qed.

(** A file written with [replace_file] under a path of the repository is
    found there afterwards. *)
Lemma repo_file_after_replace (r : GitRepository) (parts : list str)
    (fs fs' : filesystem) (p d : str) (c : bytes) :
  repo_path fs r parts = Ok p ->
  repo_path fs r (removelast parts) = Ok d -> isdir fs d = true ->
  replace_file fs p c = Ok fs' ->
  repo_file r parts false fs' = Ok (Some p, fs')
  /\ isfile fs' p = true /\ exists_ fs' p = true /\ read_file fs' p = Ok c.
Proof.
  intros Hp Hd Hdir Hw.
  apply replace_file_spec in Hw as (Hcwd & Hread & Hfile & Hex & Hdirs).
  split; [|done].
  apply repo_file_false_intro with d.
  - by rewrite (repo_path_cwd fs fs').
  - by rewrite (repo_path_cwd fs fs').
  - by apply Hdirs.
Qed.

(** ** The index file *)

Lemma slice_drop_prefix {A} (x rest : list A) (a b : Z) :
  Z.of_nat (length x) <= a -> Z.of_nat (length x) <= b ->
  slice (x ++ rest) a b
  = slice rest (a - Z.of_nat (length x)) (b - Z.of_nat (length x)).
Proof.
  intros Ha Hb. unfold slice. rewrite length_app.
  set (n := Z.of_nat (length x)) in *. set (m := Z.of_nat (length rest)).
  assert (forall i, n <= i ->
            clamp (Z.of_nat (length x + length rest)) i = n + clamp m (i - n))
    as Hc.
  { intros i Hi. unfold clamp.
    destruct (Z.ltb_spec i 0), (Z.ltb_spec (i - n) 0); lia. }
  rewrite !Hc by done.
  pose proof (clamp_range m (a - n) ltac:(lia)).
  pose proof (clamp_range m (b - n) ltac:(lia)).
  replace (Z.to_nat (n + clamp m (a - n)))
    with (length x + Z.to_nat (clamp m (a - n)))%nat by lia.
  rewrite drop_app_add'  by done. f_equal. lia.
Qed.

Lemma slice_prefix {A} (x rest : list A) (b : Z) :
  b = Z.of_nat (length x) -> slice (x ++ rest) 0 b = x.
Proof. intros. by apply (slice_app_mid [] x rest). Qed.

Lemma field_drop_prefix (x rest : bytes) (a b : Z) :
  blen x <= a -> blen x <= b ->
  field (x ++ rest) a b = field rest (a - blen x) (b - blen x).
Proof. intros. unfold field. by rewrite slice_drop_prefix. Qed.

Lemma field_be_bytes (k : nat) (v : Z) (rest : bytes) (b : Z) :
  b = Z.of_nat k -> 0 <= v < 256 ^ Z.of_nat k ->
  field (be_bytes k v ++ rest) 0 b = v.
Proof.
  intros -> Hv. unfold field.
  rewrite slice_prefix by (by rewrite length_be_bytes).
  by apply from_be_bytes.
Qed.

Lemma blen_be_bytes (k : nat) (v : Z) : blen (be_bytes k v) = Z.of_nat k.
Proof. unfold blen. by rewrite length_be_bytes. Qed.

Lemma item_drop_prefix {A} (x rest : list A) (i : Z) :
  Z.of_nat (length x) <= i ->
  item (x ++ rest) i = item rest (i - Z.of_nat (length x)).
Proof.
  intros Hi. unfold item. rewrite length_app. cbv zeta.
  rewrite !(proj2 (Z.ltb_ge i 0)) by lia.
  rewrite !(proj2 (Z.ltb_ge (i - Z.of_nat (length x)) 0)) by lia.
  cbv iota.
  rewrite ?(proj2 (Z.ltb_ge i 0)) by lia.
  rewrite ?(proj2 (Z.ltb_ge (i - Z.of_nat (length x)) 0)) by lia.
  destruct (Z.leb_spec (Z.of_nat (length x + length rest)) i),
    (Z.leb_spec (Z.of_nat (length rest)) (i - Z.of_nat (length x)));
    try lia; cbn [orb]; try done.
  rewrite lookup_app_r by lia.
  by replace (Z.to_nat i - length x)%nat
    with (Z.to_nat (i - Z.of_nat (length x))) by lia.
Qed.

Lemma be_bytes_4_split (m : Z) :
  be_bytes 4 m = be_bytes 2 (m / 65536) ++ be_bytes 2 m.
Proof.
  cbn [be_bytes app]. rewrite !Z.div_div by lia.
  change (256 * 256) with 65536. change (65536 * 256) with 16777216.
  by rewrite (Z.mul_comm 256 65536).
Qed.

Lemma mode_check_ok (t p : Z) :
  t = 8 \/ t = 10 \/ t = 14 -> 0 <= p < 512 -> mode_check t p = true.
Proof.
  intros Ht Hp.
  assert (Forall (fun p => mode_check 8 p && mode_check 10 p
                           && mode_check 14 p = true) (seqZ 0 512)) as Hall.
  { apply (bool_decide_unpack _). vm_compute. exact I. }
  rewrite Forall_forall in Hall.
  specialize (Hall p ltac:(apply elem_of_seqZ; lia)).
  apply andb_prop in Hall as [[? ?]%andb_prop ?].
  by destruct Ht as [-> | [-> | ->]].
Qed.

Lemma flags_check_ok (a : bool) (s n : Z) :
  s = 0 \/ s = 4096 \/ s = 8192 \/ s = 12288 -> 0 <= n < 4096 ->
  flags_check (if a then Z.shiftl 1 15 else 0) s n = true.
Proof.
  intros Hs Hn.
  assert (Forall (fun n =>
                    forallb (fun a => forallb (fun s => flags_check a s n)
                                        [0; 4096; 8192; 12288])
                            [0; 32768] = true) (seqZ 0 4096)) as Hall.
  { apply (bool_decide_unpack _). vm_compute. exact I. }
  rewrite Forall_forall in Hall.
  specialize (Hall n ltac:(apply elem_of_seqZ; lia)).
  cbn [forallb] in Hall. rewrite !andb_true_r in Hall.
  repeat match goal with
         | H : _ && _ = true |- _ => apply andb_prop in H as [? ?]
         end.
  change (Z.shiftl 1 15) with 32768.
  by destruct a, Hs as [-> | [-> | [-> | ->]]].
Qed.

Lemma align8_pad (idx : Z) :
  0 <= idx ->
  align8 idx = if negb (idx mod 8 =? 0) then idx + (8 - idx mod 8) else idx.
Proof.
  intros Hi. unfold align8.
  destruct (Z.eqb_spec (idx mod 8) 0); cbn [negb];
    pose proof (Z.div_mod idx 8 ltac:(lia));
    pose proof (Z.div_mod (idx + 7) 8 ltac:(lia));
    pose proof (Z.mod_pos_bound idx 8 ltac:(lia));
    pose proof (Z.mod_pos_bound (idx + 7) 8 ltac:(lia)); lia.
Qed.

Lemma to_bytes_4 (n : Z) : u32 n -> to_bytes n 4 = Ok (be_bytes 4 n).
Proof. intros. by apply to_bytes_ok. Qed.

Lemma field_shift (pre c : bytes) (a b : Z) :
  0 <= a -> 0 <= b ->
  field (pre ++ c) (blen pre + a) (blen pre + b) = field c a b.
Proof.
  intros. unfold blen. rewrite field_drop_prefix by (unfold blen; lia).
  f_equal; unfold blen; lia.
Qed.

Lemma field_shift0 (pre c : bytes) (b : Z) :
  0 <= b -> field (pre ++ c) (blen pre) (blen pre + b) = field c 0 b.
Proof.
  intros. rewrite <- (field_shift pre c 0 b) by lia. f_equal. lia.
Qed.

(** Step over one block of a known size in front of a field. *)
Ltac peel :=
  lazymatch goal with
  | |- field (be_bytes ?k ?v ++ ?rest) ?a ?b = _ =>
      let a' := eval vm_compute in (a - Z.of_nat k) in
      let b' := eval vm_compute in (b - Z.of_nat k) in
      rewrite (field_drop_prefix (be_bytes k v) rest a b)
        by (rewrite blen_be_bytes; vm_compute; discriminate);
      rewrite blen_be_bytes;
      change (a - Z.of_nat k) with a';
      change (b - Z.of_nat k) with b'
  end.

Ltac read_field :=
  repeat (lazymatch goal with
          | |- field _ 0 _ = _ => fail
          | _ => peel
          end);
  apply field_be_bytes; [reflexivity|].

Section IndexEntry.
Variables (cs cn ms mn dev_ ino_ mt mp uid_ gid_ fsize_ : Z).
Variables (sha_ : str) (fav : bool) (stage : Z) (name_ : str).

Let e : GitIndexEntry :=
  {| ctime := (cs, cn); mtime := (ms, mn); dev := dev_; ino := ino_;
     mode_type := mt; mode_perms := mp; uid := uid_; gid := gid_;
     fsize := fsize_; esha := sha_; flag_assume_valid := fav;
     flag_stage := stage; name := name_ |}.

Hypothesis Hwf : wf_entry e.

Let mode := Z.lor (Z.shiftl mt 12) mp.
Let nlen := if 4095 <=? blen name_ then 4095 else blen name_.
Let flags := Z.lor (Z.lor (if fav then Z.shiftl 1 15 else 0) stage) nlen.

Let header (tail : bytes) : bytes :=
  be_bytes 4 cs ++ be_bytes 4 cn ++ be_bytes 4 ms ++ be_bytes 4 mn
  ++ be_bytes 4 dev_ ++ be_bytes 4 ino_
  ++ be_bytes 2 (mode / 65536) ++ be_bytes 2 mode
  ++ be_bytes 4 uid_ ++ be_bytes 4 gid_ ++ be_bytes 4 fsize_
  ++ be_bytes 20 (hex_value sha_) ++ be_bytes 2 flags ++ tail.

Lemma header_fields (tail : bytes) :
  let c := header tail in
  field c 0 4 = cs /\ field c 4 8 = cn /\ field c 8 12 = ms
  /\ field c 12 16 = mn /\ field c 16 20 = dev_ /\ field c 20 24 = ino_
  /\ field c 24 26 = 0 /\ field c 26 28 = mode
  /\ field c 28 32 = uid_ /\ field c 32 36 = gid_ /\ field c 36 40 = fsize_
  /\ field c 40 60 = hex_value sha_ /\ field c 60 62 = flags.
Proof.
  destruct Hwf as [H1 H2 H3 H4 H5 H6 H7 H8 H9 H10 H11 H12 H13 H14 H15].
  cbn [e ctime mtime dev ino mode_type mode_perms uid gid fsize esha
         flag_assume_valid flag_stage name fst snd] in *.
  pose proof (mode_check_ok mt mp H7 H8) as Hm.
  unfold mode_check in Hm. fold mode in Hm.
  apply andb_prop in Hm as [[[Hm0 Hm1]%andb_prop _]%andb_prop _].
  apply Z.leb_le in Hm0. apply Z.ltb_lt in Hm1.
  assert (0 <= nlen < 4096) as Hn.
  { subst nlen. pose proof (blen_nonneg name_).
    destruct (Z.leb_spec 4095 (blen name_)); lia. }
  pose proof (flags_check_ok fav stage nlen H13 Hn) as Hf.
  unfold flags_check in Hf. fold flags in Hf.
  apply andb_prop in Hf as [Hf _]. apply andb_prop in Hf as [Hf _].
  apply andb_prop in Hf as [Hf _]. apply andb_prop in Hf as [Hf _].
  apply andb_prop in Hf as [Hf0 Hf1].
  apply Z.leb_le in Hf0. apply Z.ltb_lt in Hf1.
  destruct (int_of_digest sha_ H12) as [_ Hsha].
  unfold u32 in *. cbv zeta. unfold header.
  rewrite (Z.div_small mode 65536) by lia.
  repeat split; read_field;
    first [ change (256 ^ Z.of_nat 4) with 4294967296
          | change (256 ^ Z.of_nat 2) with 65536
          | change (256 ^ Z.of_nat 20) with (16 ^ 40) ]; lia.
Qed.

Let fixed : bytes := header [].

Lemma header_fixed (tail : bytes) : header tail = fixed ++ tail.
Proof. unfold fixed, header. by rewrite <- !app_assoc. Qed.

Lemma blen_fixed : blen fixed = 62.
Proof.
  unfold fixed, header. by rewrite !blen_app, !blen_be_bytes.
Qed.

Lemma nlen_range : 0 <= nlen < 4096.
Proof.
  subst nlen. pose proof (blen_nonneg name_).
  destruct (Z.leb_spec 4095 (blen name_)); lia.
Qed.

Lemma flags_fields :
  0 <= flags < 65536
  /\ negb (Z.land flags 32768 =? 0) = fav
  /\ Z.land flags 16384 = 0
  /\ Z.land flags 12288 = stage
  /\ Z.land flags 4095 = nlen.
Proof.
  pose proof (flags_check_ok fav stage nlen (wf_flag_stage e Hwf) nlen_range)
    as Hf.
  unfold flags_check in Hf. fold flags in Hf.
  repeat match goal with
         | H : _ && _ = true |- _ => apply andb_prop in H as [? ?]
         end.
  repeat match goal with
         | H : (_ =? _) = true |- _ => apply Z.eqb_eq in H
         | H : (_ <=? _) = true |- _ => apply Z.leb_le in H
         | H : (_ <? _) = true |- _ => apply Z.ltb_lt in H
         | H : bool_decide _ = true |- _ => apply bool_decide_eq_true in H
         end.
  repeat split; try done.
  match goal with H : negb _ = negb _ |- _ => rewrite H end.
  by destruct fav.
Qed.

Lemma mode_fields :
  0 <= mode < 65536 /\ Z.shiftr mode 12 = mt /\ Z.land mode 511 = mp.
Proof.
  pose proof (mode_check_ok mt mp (wf_mode_type e Hwf) (wf_mode_perms e Hwf))
    as Hm.
  unfold mode_check in Hm. fold mode in Hm.
  repeat match goal with
         | H : _ && _ = true |- _ => apply andb_prop in H as [? ?]
         end.
  repeat match goal with
         | H : (_ =? _) = true |- _ => apply Z.eqb_eq in H
         | H : (_ <=? _) = true |- _ => apply Z.leb_le in H
         | H : (_ <? _) = true |- _ => apply Z.ltb_lt in H
         end.
  done.
Qed.

(** Reading the entry back at the place where it was written. *)
Lemma index_read_entry_at (pre tail : bytes) :
  index_read_entry (pre ++ header (name_ ++ NUL :: tail)) (blen pre)
  = Ok (e, align8 (blen pre + 62 + blen name_ + 1)).
Proof.
  destruct (header_fields (name_ ++ NUL :: tail))
    as (F1 & F2 & F3 & F4 & F5 & F6 & F7 & F8 & F9 & F10 & F11 & F12 & F13).
  destruct flags_fields as (_ & G1 & G2 & G3 & G4).
  destruct mode_fields as (_ & M1 & M2).
  pose proof (wf_name_nul e Hwf) as Hnul.
  pose proof (wf_name_utf8 e Hwf) as Hutf.
  pose proof (format_hex_value sha_ (wf_esha e Hwf)) as Hsha.
  cbn [e name] in Hnul, Hutf.
  unfold index_read_entry.
  rewrite (field_shift0 pre _ 4) by lia.
  rewrite !(field_shift pre) by lia.
  rewrite F1, F2, F3, F4, F5, F6, F7, F8, F9, F10, F11, F12, F13.
  rewrite G1, G2, G3, G4, M1, M2, Hsha.
  cbn [assert Z.eqb mbind result_bind negb].
  assert ((mt =? 8) || (mt =? 10) || (mt =? 14) = true) as ->.
  { destruct (wf_mode_type e Hwf) as [Ht | [Ht | Ht]]; cbn [e mode_type] in Ht;
      by rewrite Ht. }
  cbn [assert mbind result_bind].
  rewrite header_fixed.
  pose proof blen_fixed as Hfx.
  pose proof (blen_nonneg name_) as Hn0.
  assert (pre ++ fixed ++ name_ ++ NUL :: tail
          = (pre ++ fixed) ++ name_ ++ NUL :: tail) as Hre
    by (by rewrite <- app_assoc).
  assert (blen (pre ++ fixed) = blen pre + 62) as Hpf
    by (rewrite blen_app; lia).
  unfold nlen.
  destruct (Z.leb_spec 4095 (blen name_)) as [Hlong | Hshort].
  - cbn [Z.ltb Z.compare Pos.compare Pos.compare_cont].
    assert (find NUL (pre ++ fixed ++ name_ ++ NUL :: tail)
              (blen pre + 62 + 4095) = blen pre + 62 + blen name_) as ->.
    { assert (blen (take 4095 name_) = 4095) as Ht.
      { unfold blen in *. rewrite length_take. lia. }
      assert (blen (drop 4095 name_) = blen name_ - 4095) as Hd.
      { unfold blen in *. rewrite length_drop. lia. }
      rewrite <- (take_drop 4095 name_) at 1.
      assert (pre ++ fixed ++ (take 4095 name_ ++ drop 4095 name_)
                ++ NUL :: tail
              = ((pre ++ fixed) ++ take 4095 name_)
                ++ drop 4095 name_ ++ NUL :: tail) as ->
        by (by rewrite <- !app_assoc).
      rewrite find_app.
      - rewrite !blen_app, Ht, Hd, Hfx. lia.
      - rewrite !blen_app, Ht, Hfx. lia.
      - intros Hin. apply Hnul. rewrite <- (take_drop 4095 name_).
        apply elem_of_app. by right. }
    rewrite Hre.
    rewrite (slice_app_mid (pre ++ fixed) name_ (NUL :: tail)); cycle 1.
    { fold (blen (pre ++ fixed)). lia. }
    { fold (blen (pre ++ fixed)) (blen name_). lia. }
    cbn [mbind result_bind]. unfold decode_utf8. rewrite Hutf.
    done.
  - destruct (Z.ltb_spec (blen name_) 4095) as [_ | ?]; [|lia].
    rewrite Hre.
    assert ((pre ++ fixed) ++ name_ ++ NUL :: tail
            = ((pre ++ fixed) ++ name_) ++ NUL :: tail) as Hre2
      by (by rewrite <- !app_assoc).
    rewrite Hre2 at 1.
    rewrite (item_app ((pre ++ fixed) ++ name_) tail NUL); cycle 1.
    { rewrite length_app, Nat2Z.inj_add.
      fold (blen (pre ++ fixed)) (blen name_). lia. }
    cbn [mbind result_bind assert byte_eqb].
    rewrite (slice_app_mid (pre ++ fixed) name_ (NUL :: tail)); cycle 1.
    { fold (blen (pre ++ fixed)). lia. }
    { fold (blen (pre ++ fixed)) (blen name_). lia. }
    change (byte_eqb NUL NUL) with true.
    cbn [mbind result_bind assert]. unfold decode_utf8. rewrite Hutf.
    done.
Qed.

(** What [index_write] writes for the entry, with the padding. *)
Lemma index_write_entry_eq (idx : Z) :
  0 <= idx ->
  let end_ := idx + 62 + blen name_ + 1 in
  index_write_entry e idx
  = Ok (header (name_ ++ NUL :: replicate (Z.to_nat (align8 end_ - end_)) NUL),
        align8 end_).
Proof.
  intros Hidx end_.
  destruct Hwf as [H1 H2 H3 H4 H5 H6 H7 H8 H9 H10 H11 H12 H13 H14 H15].
  cbn [e ctime mtime dev ino mode_type mode_perms uid gid fsize esha
         flag_assume_valid flag_stage name fst snd] in *.
  destruct mode_fields as (Hm & _).
  destruct flags_fields as (Hf & _).
  destruct (int_of_digest sha_ H12) as [Hs1 Hs2].
  unfold index_write_entry.
  cbn [e ctime mtime dev ino mode_type mode_perms uid gid fsize esha
         flag_assume_valid flag_stage name fst snd].
  rewrite !to_bytes_4 by done. cbn [mbind result_bind].
  fold mode. rewrite (to_bytes_4 mode) by (unfold u32; lia).
  cbn [mbind result_bind].
  rewrite !to_bytes_4 by done. cbn [mbind result_bind].
  rewrite Hs1. cbn [mbind result_bind].
  rewrite (to_bytes_ok (hex_value sha_) 20)
    by (change (256 ^ Z.of_nat 20) with (16 ^ 40); done).
  cbn [mbind result_bind]. unfold encode_utf8.
  fold nlen. fold flags.
  rewrite (to_bytes_ok flags 2)
    by (change (256 ^ Z.of_nat 2) with 65536; done).
  cbn [mbind result_bind].
  replace (idx + (62 + blen name_ + 1)) with end_ by (unfold end_; lia).
  pose proof (blen_nonneg name_).
  rewrite (align8_pad end_) by (unfold end_; lia).
  rewrite (be_bytes_4_split mode). unfold header.
  destruct (negb (end_ mod 8 =? 0)).
  - replace (end_ + (8 - end_ mod 8) - end_) with (8 - end_ mod 8) by lia.
    rewrite <- !app_assoc. cbn [app]. done.
  - rewrite Z.sub_diag. cbn [Z.to_nat replicate].
    by rewrite <- !app_assoc.
Qed.

Lemma blen_header (tail : bytes) : blen (header tail) = 62 + blen tail.
Proof. rewrite header_fixed, blen_app, blen_fixed. done. Qed.
End IndexEntry.

Lemma align8_ge (idx : Z) : 0 <= idx -> idx <= align8 idx.
Proof.
  intros. rewrite align8_pad by done.
  pose proof (Z.mod_pos_bound idx 8 ltac:(lia)).
  destruct (negb (idx mod 8 =? 0)); lia.
Qed.

(** An entry in range is written, and read back from the place where it
    was written, whatever stands before and after it. *)
Lemma index_entry_round_trip (e : GitIndexEntry) (idx : Z) :
  wf_entry e -> 0 <= idx ->
  exists out idx',
    index_write_entry e idx = Ok (out, idx')
    /\ idx' = idx + blen out
    /\ forall pre tail : bytes,
         blen pre = idx ->
         index_read_entry (pre ++ out ++ tail) idx = Ok (e, idx').
Proof.
  intros Hwf Hidx. destruct e as [[cs cn] [ms mn] d i mt mp u g fs s fav st n].
  pose proof (index_write_entry_eq _ _ _ _ _ _ _ _ _ _ _ _ _ _ _ Hwf idx Hidx)
    as Hw.
  cbv zeta in Hw. eexists _, _. split; [exact Hw|].
  pose proof (blen_nonneg n).
  pose proof (align8_ge (idx + 62 + blen n + 1) ltac:(lia)).
  split.
  - rewrite (blen_header cs cn ms mn d i mt mp u g fs s fav st n).
    rewrite blen_app, blen_cons. unfold blen at 3.
    rewrite length_replicate. lia.
  - intros pre tail <-.
    rewrite <- (index_read_entry_at _ _ _ _ _ _ _ _ _ _ _ _ _ _ _ Hwf pre
                  (replicate
                     (Z.to_nat (align8 (blen pre + 62 + blen n + 1)
                                - (blen pre + 62 + blen n + 1))) NUL ++ tail)).
    f_equal. f_equal. rewrite <- !app_assoc. done.
Qed.

Lemma index_entries_round_trip (es : list GitIndexEntry) :
  Forall wf_entry es ->
  forall idx : Z, 0 <= idx ->
  exists out,
    index_write_entries es idx = Ok out
    /\ forall (pre tail : bytes) (acc : list GitIndexEntry),
         blen pre = idx ->
         index_read_entries (length es) (pre ++ out ++ tail) idx acc
         = Ok (acc ++ es).
Proof.
  induction 1 as [|e es He Hes IH]; intros idx Hidx.
  - exists []. split; [done|]. intros. cbn. by rewrite app_nil_r.
  - destruct (index_entry_round_trip e idx He Hidx)
      as (out & idx' & Hw & Hidx' & Hr).
    pose proof (blen_nonneg out).
    destruct (IH idx' ltac:(lia)) as (rest & Hws & Hrs).
    exists (out ++ rest). split.
    + cbn [index_write_entries]. rewrite Hw. cbn [mbind result_bind].
      rewrite Hws. done.
    + intros pre tail acc Hpre. cbn [length index_read_entries].
      rewrite <- (app_assoc out rest tail).
      rewrite (Hr pre (rest ++ tail) Hpre). cbn [mbind result_bind].
      rewrite (app_assoc pre out (rest ++ tail)).
      rewrite (Hrs (pre ++ out) tail (acc ++ [e]))
        by (rewrite blen_app; lia).
      by rewrite <- app_assoc.
Qed.

(** The bytes of a well-formed index parse back to the index. *)
Lemma index_parse_index_bytes (index : GitIndex) :
  wf_index index ->
  exists raw, index_bytes index = Ok raw /\ index_parse raw = Ok index.
Proof.
  intros [Hv Hc Hes]. destruct index as [v es]. cbn [version entries] in *.
  subst v.
  destruct (index_entries_round_trip es Hes 0 ltac:(lia)) as (body & Hw & Hr).
  unfold index_bytes. cbn [version entries].
  rewrite (to_bytes_4 2) by (unfold u32; lia).
  rewrite (to_bytes_4 (Z.of_nat (length es))) by done.
  cbn [mbind result_bind]. rewrite Hw. cbn [mbind result_bind].
  eexists. split; [done|].
  unfold index_parse.
  set (n := be_bytes 4 (Z.of_nat (length es))).
  assert (length n = 4%nat) as Hn by (by apply length_be_bytes).
  assert (B "DIRC" ++ be_bytes 4 2 ++ n ++ body
          = (B "DIRC" ++ be_bytes 4 2 ++ n) ++ body) as ->
    by (by rewrite <- !app_assoc).
  rewrite (slice_prefix (B "DIRC" ++ be_bytes 4 2 ++ n) body 12)
    by (by rewrite !length_app, Hn).
  rewrite (slice_from_app (B "DIRC" ++ be_bytes 4 2 ++ n) body 12)
    by (by rewrite !length_app, Hn).
  rewrite (slice_prefix (B "DIRC") (be_bytes 4 2 ++ n) 4) by done.
  rewrite (slice_app_mid (B "DIRC") (be_bytes 4 2) n 4 8) by done.
  assert (slice (B "DIRC" ++ be_bytes 4 2 ++ n) 8 12 = n) as ->.
  { rewrite <- (app_nil_r n) at 1.
    rewrite (app_assoc (B "DIRC") (be_bytes 4 2) (n ++ [])).
    apply (slice_app_mid (B "DIRC" ++ be_bytes 4 2) n []); [done|].
    by rewrite Hn. }
  cbn [assert bool_decide mbind result_bind].
  rewrite bool_decide_eq_true_2 by done. cbn [assert mbind result_bind].
  change (from_bytes (be_bytes 4 2)) with 2. cbn [Z.eqb Pos.eqb assert mbind result_bind].
  unfold n. rewrite from_be_bytes by done. rewrite Nat2Z.id.
  specialize (Hr [] [] [] eq_refl). rewrite app_nil_r in Hr. cbn [app] in Hr.
  rewrite Hr. done.
Qed.

(** C4, amended: the index file round-trips for every index in range, at the
    level of the bytes and through the file system; [index_write] succeeds
    whenever the git directory is there. *)
Theorem index_round_trip (r : GitRepository) (index : GitIndex)
    (fs : filesystem) :
  wf_index index ->
  (exists raw, index_bytes index = Ok raw /\ index_parse raw = Ok index)
  /\ (forall fs', index_write r index fs = Ok fs' ->
                  index_read r fs' = Ok index)
  /\ (forall p, repo_file r [B "index"] false fs = Ok (Some p, fs) ->
                isdir fs (Path.dirname p) = true -> isdir fs p = false ->
                exists fs', index_write r index fs = Ok fs').
Proof.
  intros Hwf. destruct (index_parse_index_bytes index Hwf) as (raw & Hb & Hp).
  split; [by exists raw|]. split.
  - intros fs'. unfold index_write.
    destruct (repo_file r [B "index"] false fs) as [[[p|] fs1]| |] eqn:E;
      try done.
    apply repo_file_false_Some in E as (-> & Hpath & d & Hd & Hdir).
    cbn [mbind result_bind]. destruct (negb _); [done|].
    rewrite Hb. cbn [mbind result_bind]. intros Hw.
    destruct (repo_file_after_replace r [B "index"] fs fs' p d raw
                Hpath Hd Hdir Hw) as (Hf & _ & Hex & Hread).
    unfold index_read. rewrite Hf. cbn [mbind result_bind].
    rewrite Hex. cbn [negb]. rewrite Hread. done.
  - intros p Hf Hd Hnd. unfold index_write. rewrite Hf.
    cbn [mbind result_bind]. rewrite Hd. cbn [negb]. rewrite Hb.
    cbn [mbind result_bind]. unfold replace_file. rewrite Hd, Hnd.
    cbn [negb]. by eexists.
Qed.

Lemma index_round_trip_witness :
  wf_index (demo_index 3)
  /\ (exists fs', index_write demo_repository (demo_index 3) demo_fs = Ok fs'
                  /\ index_read demo_repository fs' = Ok (demo_index 3)).
Proof.
  assert (wf_index (demo_index 3)) as Hwf.
  { split; [reflexivity | vm_compute; split; [discriminate|reflexivity] |].
    repeat apply Forall_cons_2; try apply Forall_nil_2;
      (split; try (vm_compute; split; [discriminate|reflexivity]);
       try (by left); try (vm_compute; reflexivity);
       try (split; vm_compute; reflexivity)).
    all: apply (bool_decide_unpack _); vm_compute; exact I. }
  split; [exact Hwf|].
  destruct (index_round_trip demo_repository (demo_index 3) demo_fs Hwf)
    as (_ & Hr & Hw).
  destruct (Hw (B "/w/.git/index")) as (fs' & Hfs');
    [vm_compute; reflexivity..|].
  exists fs'. split; [exact Hfs'|]. by apply Hr.
Defined.

(** C4 as stated does not hold for a digest in capital letters: it is
    forty hexadecimal characters, every other field is in range, and the
    index read back has the digest in small letters. *)
Lemma index_round_trip_capital_digest :
  length capital_digest = 40%nat
  /\ forallb is_hex capital_digest = true
  /\ exists raw index',
       index_bytes capital_index = Ok raw
       /\ index_parse raw = Ok index'
       /\ index' <> capital_index
       /\ (esha <$> entries index')
          = [B "aaaaaaaaaaaaaaaaaaaaaaaaaaaaaaaaaaaaaaaa"].
Proof.
  split; [reflexivity|]. split; [reflexivity|].
  eexists _, _. split; [vm_compute; reflexivity|].
  split; [vm_compute; reflexivity|].
  split; [|reflexivity]. vm_compute. discriminate.
Qed.

(** ** Paths *)

Lemma normpath_eq (path : str) :
  path <> [] ->
  Path.normpath path
  = match replicate (initial_slashes path) SLASH
          ++ Path.join_sep (norm_comps path) with
    | [] => Path.DOT
    | p => p
    end.
Proof.
  intros Hp. destruct path as [|c path]; [done|].
  unfold Path.normpath. fold (initial_slashes (c :: path)).
  fold (norm_comps (c :: path)). cbv zeta.
  by destruct (replicate _ _ ++ _).
Qed.

Lemma abspath_eq (cwd path : str) :
  Path.abspath cwd path = Path.normpath (full_path cwd path).
Proof. done. Qed.

Lemma split_nonempty (s : str) : Path.split s <> [].
Proof.
  destruct s as [|c s]; [done|]. cbn [Path.split].
  destruct (Path.split s); [done|]. by destruct (byte_eqb c SLASH).
Qed.

Lemma split_app_slash (a b : str) :
  Path.split (a ++ SLASH :: b) = Path.split a ++ Path.split b.
Proof.
  induction a as [|c a IH].
  - cbn [app Path.split]. pose proof (split_nonempty b).
    destruct (Path.split b); [done|]. done.
  - cbn [app Path.split]. rewrite IH.
    pose proof (split_nonempty a).
    destruct (Path.split a) as [|x xs]; [done|]. cbn [app].
    by destruct (byte_eqb c SLASH).
Qed.

Lemma split_plain (c : str) : SLASH ∉ c -> Path.split c = [c].
Proof.
  induction c as [|x c IH]; [done|]. intros Hc.
  apply not_elem_of_cons in Hc as [Hx Hc]. cbn [Path.split].
  rewrite IH by done.
  by rewrite (proj2 (byte_eqb_false x SLASH)) by (intros ->; apply Hx; done).
Qed.


Lemma startswith_app_l (p a b : bytes) :
  (length p <= length a)%nat -> startswith p (a ++ b) = startswith p a.
Proof.
  revert a. induction p as [|x p IH]; intros a Hl; [done|].
  destruct a as [|y a]; [simpl in Hl; lia|]. cbn [app startswith].
  rewrite IH; [done|]. simpl in Hl. lia.
Qed.

Lemma plain_name_head (c : str) :
  plain_name c -> exists x c', c = x :: c' /\ x <> SLASH.
Proof.
  intros (Hne & Hs & _). destruct c as [|x c']; [done|].
  exists x, c'. split; [done|]. intros ->. apply Hs. left.
Qed.

(** Leading slashes are counted in the first three bytes, so a name
    joined to a path that is not empty does not change them. *)
Lemma initial_slashes_app (x c : str) :
  x <> [] -> plain_name c -> initial_slashes (x ++ c) = initial_slashes x.
Proof.
  intros Hx (y & c' & -> & Hy)%plain_name_head.
  assert (byte_eqb SLASH y = false) as Hy'.
  { apply byte_eqb_false. congruence. }
  unfold initial_slashes.
  destruct x as [|a [|b [|d x]]]; [done|..]; cbn [app startswith];
    rewrite ?Hy', ?andb_false_r, ?andb_true_r; cbn [andb negb]; done.
Qed.

Lemma initial_slashes_app_slash (x c : str) :
  x <> [] -> endswith [SLASH] x = false ->
  initial_slashes (x ++ SLASH :: c) = initial_slashes x.
Proof.
  intros Hx He. unfold initial_slashes.
  destruct x as [|a [|b [|d x]]]; [done|..]; cbn [app startswith];
    rewrite ?andb_true_r.
  - change (endswith [SLASH] [a]) with (byte_eqb SLASH a && true) in He.
    rewrite andb_true_r in He. by rewrite He.
  - change (endswith [SLASH] [a; b]) with (byte_eqb SLASH b && true) in He.
    rewrite andb_true_r in He. rewrite He.
    by rewrite ?andb_false_r.
  - done.
Qed.

Lemma initial_slashes_join2 (x c : str) :
  x <> [] -> plain_name c ->
  initial_slashes (Path.join2 x c) = initial_slashes x.
Proof.
  intros Hx Hc. unfold Path.join2.
  destruct (plain_name_head c Hc) as (y & c' & -> & Hy).
  cbn [startswith]. rewrite (proj2 (byte_eqb_false SLASH y)) by congruence.
  cbn [andb]. rewrite bool_decide_eq_false_2 by done. cbn [orb].
  destruct (endswith [SLASH] x) eqn:He.
  - by apply initial_slashes_app.
  - by apply initial_slashes_app_slash.
Qed.

Lemma endswith_suffix (p l : bytes) :
  endswith p l = true <-> exists t, l = t ++ p.
Proof.
  unfold endswith. rewrite startswith_prefix. split.
  - intros [t Ht]. exists (rev t).
    rewrite <- (rev_involutive l), Ht, rev_app_distr.
    by rewrite rev_involutive.
  - intros [t ->]. exists (rev t). by rewrite rev_app_distr.
Qed.

Lemma norm_step_plain (k : nat) (comps : list str) (c : str) :
  plain_name c -> Path.norm_step k comps c = comps ++ [c].
Proof.
  intros (H1 & _ & H2 & H3). unfold Path.norm_step.
  rewrite !bool_decide_eq_false_2 by done. done.
Qed.

Lemma norm_step_empty (k : nat) (comps : list str) :
  Path.norm_step k comps [] = comps.
Proof. done. Qed.

Lemma split_join2 (x c : str) :
  x <> [] -> plain_name c ->
  exists l, Path.split (Path.join2 x c) = l ++ [c]
            /\ forall k, foldl (Path.norm_step k) [] (Path.split x)
                         = foldl (Path.norm_step k) [] l.
Proof.
  intros Hx Hc. unfold Path.join2.
  destruct (plain_name_head c Hc) as (y & c' & Ec & Hy).
  destruct Hc as (_ & Hs & _).
  assert (startswith [SLASH] c = false) as ->.
  { rewrite Ec. cbn [startswith].
    by rewrite (proj2 (byte_eqb_false SLASH y)) by congruence. }
  rewrite bool_decide_eq_false_2 by done. cbn [orb].
  destruct (endswith [SLASH] x) eqn:He.
  - apply endswith_suffix in He as [x' ->].
    exists (Path.split x'). rewrite <- app_assoc. cbn [app].
    rewrite !split_app_slash, (split_plain c) by done. split; [done|].
    intros k. cbn [Path.split]. by rewrite foldl_app.
  - exists (Path.split x). rewrite split_app_slash, (split_plain c) by done.
    done.
Qed.

Lemma norm_comps_join2 (x c : str) :
  x <> [] -> plain_name c ->
  norm_comps (Path.join2 x c) = norm_comps x ++ [c].
Proof.
  intros Hx Hc. unfold norm_comps.
  rewrite initial_slashes_join2 by done.
  destruct (split_join2 x c Hx Hc) as (l & -> & Hl).
  rewrite foldl_app. cbn [foldl]. rewrite norm_step_plain by done.
  by rewrite Hl.
Qed.

Lemma join2_nonempty (x c : str) : c <> [] -> Path.join2 x c <> [].
Proof.
  intros Hc. unfold Path.join2. destruct (startswith _ c); [done|].
  destruct (_ || _).
  - destruct x; [done|]. done.
  - destruct x; done.
Qed.

Lemma join_sep_snoc (comps : list str) (c : str) :
  Path.join_sep (comps ++ [c])
  = match comps with
    | [] => c
    | _ => Path.join_sep comps ++ SLASH :: c
    end.
Proof.
  induction comps as [|x comps IH]; [done|].
  cbn [app]. destruct comps as [|y comps]; [done|].
  change (Path.join_sep (x :: (y :: comps) ++ [c]))
    with (x ++ SLASH :: Path.join_sep ((y :: comps) ++ [c])).
  rewrite IH. change (Path.join_sep (x :: y :: comps))
    with (x ++ SLASH :: Path.join_sep (y :: comps)).
  by rewrite <- app_assoc.
Qed.

Lemma app_nonempty_r {A} (q a : list A) : a <> [] -> q ++ a <> [].
Proof. by intros Ha [_ ?]%app_eq_nil. Qed.

Lemma match_nonempty (l : str) :
  l <> [] -> match l with [] => Path.DOT | b :: l' => b :: l' end = l.
Proof. by destruct l. Qed.

(** The normal form of a path that ends in two plain names is the normal
    form of the path without the last name, a slash, and the name. *)
Lemma normpath_join2_twice (x a c : str) :
  x <> [] -> plain_name a -> plain_name c ->
  let d := Path.normpath (Path.join2 x a) in
  Path.normpath (Path.join2 (Path.join2 x a) c) = d ++ SLASH :: c
  /\ exists q, d = q ++ a.
Proof.
  intros Hx Ha Hc d. subst d.
  assert (Path.join2 x a <> []) as Hxa by (apply join2_nonempty, Ha).
  assert (Path.join2 (Path.join2 x a) c <> []) as Hxac
    by (apply join2_nonempty, Hc).
  rewrite !normpath_eq by done.
  rewrite (norm_comps_join2 (Path.join2 x a) c) by done.
  rewrite (initial_slashes_join2 (Path.join2 x a) c) by done.
  rewrite (norm_comps_join2 x a) by done.
  set (k := initial_slashes (Path.join2 x a)).
  destruct Ha as (Ha & _).
  assert (exists q, replicate k SLASH ++ Path.join_sep (norm_comps x ++ [a])
                    = q ++ a) as (q & Hq).
  { rewrite join_sep_snoc. destruct (norm_comps x) as [|z zs].
    - by exists (replicate k SLASH).
    - exists (replicate k SLASH ++ Path.join_sep (z :: zs) ++ [SLASH]).
      by rewrite <- !app_assoc. }
  assert (replicate k SLASH
            ++ Path.join_sep ((norm_comps x ++ [a]) ++ [c])
          = (q ++ a) ++ SLASH :: c) as Hq2.
  { rewrite (join_sep_snoc (norm_comps x ++ [a]) c).
    destruct (norm_comps x ++ [a]) as [|y l] eqn:E.
    { by destruct (norm_comps x). }
    by rewrite app_assoc, Hq. }
  rewrite Hq, Hq2.
  rewrite !match_nonempty.
  - split; [done|]. by exists q.
  - by apply app_nonempty_r.
  - by apply app_nonempty_r.
Qed.

Lemma endswith_app (p a l : bytes) :
  (length p <= length l)%nat -> endswith p (a ++ l) = endswith p l.
Proof.
  intros Hl. unfold endswith. rewrite rev_app_distr.
  apply startswith_app_l. by rewrite !length_rev.
Qed.

Lemma full_path_nonempty (cwd x : str) : x <> [] -> full_path cwd x <> [].
Proof.
  intros Hx. unfold full_path. destruct (Path.isabs x); [done|].
  by apply join2_nonempty.
Qed.

Lemma join2_rel (a b : str) :
  startswith [SLASH] b = false ->
  Path.join2 a b
  = a ++ (if bool_decide (a = []) || endswith [SLASH] a then []
          else [SLASH]) ++ b.
Proof.
  intros Hb. unfold Path.join2. rewrite Hb. by destruct (_ || _).
Qed.

Lemma plain_name_relative (c : str) :
  plain_name c -> startswith [SLASH] c = false.
Proof.
  intros (y & c' & -> & Hy)%plain_name_head. cbn [startswith].
  by rewrite (proj2 (byte_eqb_false SLASH y)) by congruence.
Qed.

Lemma join2_assoc_plain (w x c : str) :
  x <> [] -> Path.isabs x = false -> plain_name c ->
  Path.join2 w (Path.join2 x c) = Path.join2 (Path.join2 w x) c.
Proof.
  intros Hx Habs Hc. pose proof (plain_name_relative c Hc) as Hcs.
  assert (1 <= length x)%nat as Hlen by (destruct x; [done|simpl; lia]).
  unfold Path.isabs in Habs.
  rewrite (join2_rel x c), (join2_rel w x) by done.
  rewrite (bool_decide_eq_false_2 (x = [])) by done. cbn [orb].
  set (sw := if bool_decide (w = []) || endswith [SLASH] w then []
             else [SLASH]).
  rewrite (join2_rel w) by (by rewrite startswith_app_l).
  rewrite (join2_rel (w ++ sw ++ x) c) by done. fold sw.
  rewrite (app_assoc w sw x).
  rewrite (bool_decide_eq_false_2 ((w ++ sw) ++ x = []))
    by (by apply app_nonempty_r).
  cbn [orb]. rewrite (endswith_app [SLASH] (w ++ sw) x) by done.
  by rewrite <- !app_assoc.
Qed.

Lemma full_path_join2 (cwd x c : str) :
  x <> [] -> plain_name c ->
  full_path cwd (Path.join2 x c) = Path.join2 (full_path cwd x) c.
Proof.
  intros Hx Hc. unfold full_path.
  assert (Path.isabs (Path.join2 x c) = Path.isabs x) as ->.
  { destruct (plain_name_head c Hc) as (y & c' & Ec & Hy).
    unfold Path.isabs, Path.join2.
    assert (startswith [SLASH] c = false) as ->.
    { rewrite Ec. cbn [startswith].
      by rewrite (proj2 (byte_eqb_false SLASH y)) by congruence. }
    assert (1 <= length x)%nat by (destruct x; [done|simpl; lia]).
    destruct (_ || _); by rewrite startswith_app_l. }
  destruct (Path.isabs x) eqn:Habs; [done|].
  by apply join2_assoc_plain.
Qed.

(** The absolute path of [x/a/c] is the absolute path of [x/a], a slash,
    and [c]. *)
Lemma abspath_join2_twice (cwd x a c : str) :
  x <> [] -> plain_name a -> plain_name c ->
  let d := Path.abspath cwd (Path.join2 x a) in
  Path.abspath cwd (Path.join2 (Path.join2 x a) c) = d ++ SLASH :: c
  /\ exists q, d = q ++ a.
Proof.
  intros Hx Ha Hc. cbv zeta. rewrite !abspath_eq.
  assert (Path.join2 x a <> []) by (apply join2_nonempty, Ha).
  rewrite !full_path_join2 by done.
  apply normpath_join2_twice; [|done..]. by apply full_path_nonempty.
Qed.

Lemma rindex_of_app (c : byte) (l1 l2 : bytes) :
  c ∉ l2 -> rindex_of c (l1 ++ c :: l2) = Some (length l1).
Proof.
  intros Hc. induction l1 as [|x l1 IH].
  - cbn [app rindex_of length].
    assert (rindex_of c l2 = None) as ->.
    { induction l2 as [|y l2 IH2]; [done|].
      apply not_elem_of_cons in Hc as [Hy Hc]. cbn [rindex_of].
      rewrite IH2 by done.
      by rewrite (proj2 (byte_eqb_false y c)) by congruence. }
    by rewrite byte_eqb_refl.
  - cbn [app rindex_of length]. by rewrite IH.
Qed.

Lemma rstrip_slash_snoc (d : str) (z : byte) :
  z <> SLASH -> Path.rstrip_slash ((d ++ [z]) ++ [SLASH]) = d ++ [z].
Proof.
  intros Hz. unfold Path.rstrip_slash.
  rewrite !rev_app_distr. cbn [rev app].
  change (byte_eqb SLASH SLASH) with true. cbn [andb].
  rewrite (proj2 (byte_eqb_false z SLASH)) by done.
  cbn [rev]. by rewrite rev_involutive.
Qed.

(** [os.path.split] takes a plain last name off a path that ends in a
    name. *)
Lemma split_path_plain (d c : str) (z : byte) :
  z <> SLASH -> SLASH ∉ c ->
  Path.dirname ((d ++ [z]) ++ SLASH :: c) = d ++ [z]
  /\ Path.basename ((d ++ [z]) ++ SLASH :: c) = c.
Proof.
  intros Hz Hc.
  assert (rfind SLASH ((d ++ [z]) ++ SLASH :: c) = blen (d ++ [z])) as Hr.
  { unfold rfind. by rewrite rindex_of_app. }
  assert ((d ++ [z]) ++ SLASH :: c = ((d ++ [z]) ++ [SLASH]) ++ c) as Hre
    by (by rewrite <- !app_assoc).
  split.
  - assert (slice ((d ++ [z]) ++ SLASH :: c) 0 (blen (d ++ [z]) + 1)
            = (d ++ [z]) ++ [SLASH]) as Hs.
    { rewrite Hre. apply slice_prefix.
      unfold blen. rewrite !length_app. simpl. lia. }
    unfold Path.dirname. rewrite Hr. cbv zeta. rewrite Hs.
    rewrite bool_decide_eq_false_2 by (by destruct d).
    rewrite bool_decide_eq_false_2.
    + cbn [negb andb]. by apply rstrip_slash_snoc.
    + intros Heq.
      assert (z ∈ replicate (length ((d ++ [z]) ++ [SLASH])) SLASH) as Hin.
      { rewrite <- Heq. set_solver. }
      apply elem_of_replicate in Hin as [? _]. done.
  - unfold Path.basename. rewrite Hr, Hre.
    apply slice_from_app. unfold blen. rewrite !length_app. simpl. lia.
Qed.

Lemma plain_name_last (a : str) :
  plain_name a -> exists a' z, a = a' ++ [z] /\ z <> SLASH.
Proof.
  intros (Hne & Hs & _).
  destruct (exists_last Hne) as (a' & z & ->). exists a', z.
  split; [done|]. intros ->. apply Hs. set_solver.
Qed.

(** ** Directories *)

Lemma length_slice {A} (l : list A) (a b : Z) :
  (length (slice l a b) <= length l)%nat.
Proof. unfold slice. rewrite length_take, length_drop. lia. Qed.

Lemma length_rstrip_slash (s : str) :
  (length (Path.rstrip_slash s) <= length s)%nat.
Proof.
  unfold Path.rstrip_slash. rewrite length_rev, <- (length_rev s).
  induction (rev s) as [|c r IH]; [done|].
  destruct (byte_eqb c SLASH); simpl; lia.
Qed.

Lemma length_dirname (p : str) : (length (Path.dirname p) <= length p)%nat.
Proof.
  unfold Path.dirname. cbv zeta.
  pose proof (length_slice p 0 (rfind SLASH p + 1)).
  pose proof (length_rstrip_slash (slice p 0 (rfind SLASH p + 1))).
  destruct (_ && _); lia.
Qed.

Lemma mkdir_spec (fs fs1 : filesystem) (q : str) :
  mkdir fs q = Ok fs1 ->
  isdir fs1 q = true
  /\ (forall k, k <> q -> k <> Path.dirname q ->
                nodes fs1 !! k = nodes fs !! k)
  /\ (forall k, isdir fs k = true -> isdir fs1 k = true).
Proof.
  unfold mkdir. destruct (exists_ fs q) eqn:Ex; [done|].
  destruct (negb _); [done|]. intros [= <-].
  unfold isdir. cbn [nodes with_nodes].
  split; [by rewrite lookup_insert_eq|]. split.
  - intros k Hk Hd. rewrite lookup_insert_ne by done. unfold link.
    destruct (nodes fs !! Path.dirname q) as [[|names]|]; try done.
    destruct (bool_decide _); [done|]. by rewrite lookup_insert_ne.
  - intros k Hk.
    assert (k <> q) as Hne.
    { intros ->. unfold exists_ in Ex.
      apply bool_decide_eq_false in Ex. apply Ex.
      by destruct (nodes fs !! q). }
    rewrite lookup_insert_ne by done. unfold link.
    destruct (nodes fs !! Path.dirname q) as [[|names]|] eqn:Ed; try done.
    destruct (bool_decide _); [done|].
    destruct (decide (Path.dirname q = k)) as [<-|].
    + by rewrite lookup_insert_eq.
    + by rewrite lookup_insert_ne.
Qed.

(** [makedirs] leaves every path longer than its argument alone, and
    every directory a directory. *)
Lemma makedirs_frame (fuel : nat) (fs fs1 : filesystem) (q : str) :
  makedirs fuel fs q = Ok fs1 ->
  (forall k, (length q < length k)%nat -> nodes fs1 !! k = nodes fs !! k)
  /\ (forall k, isdir fs k = true -> isdir fs1 k = true).
Proof.
  revert fs fs1 q. induction fuel as [|fuel IH]; intros fs fs1 q; [done|].
  assert (forall fs0 fs2, mkdir fs0 q = Ok fs2 ->
            (forall k, (length q < length k)%nat ->
                       nodes fs2 !! k = nodes fs0 !! k)
            /\ (forall k, isdir fs0 k = true -> isdir fs2 k = true)) as Hmk.
  { intros fs0 fs2 (_ & Hf & Hd)%mkdir_spec. split; [|done].
    intros k Hk. apply Hf.
    - intros ->. lia.
    - intros ->. pose proof (length_dirname q). lia. }
  cbn [makedirs]. unfold Path.split_path.
  set (ht := if bool_decide (Path.basename q = [])
             then (Path.dirname (Path.dirname q),
                   Path.basename (Path.dirname q))
             else (Path.dirname q, Path.basename q)).
  assert (length ht.1 <= length q)%nat as Hlen.
  { subst ht. pose proof (length_dirname q).
    pose proof (length_dirname (Path.dirname q)).
    destruct (bool_decide _); simpl; lia. }
  destruct ht as [head tail]. cbn [fst] in Hlen.
  destruct (_ && _); [|apply Hmk].
  destruct (makedirs fuel fs head) as [fs'|e|] eqn:E; [| |done].
  - apply IH in E as [Hf Hd]. cbn [mbind result_bind].
    destruct (bool_decide (tail = Path.DOT)).
    + intros [= <-]. split; [|done]. intros k Hk. apply Hf. lia.
    + intros [Hf2 Hd2]%Hmk. split.
      * intros k Hk. rewrite Hf2 by done. apply Hf. lia.
      * intros k Hk. by apply Hd2, Hd.
  - destruct e; try done. cbn [mbind result_bind].
    destruct (bool_decide (tail = Path.DOT)).
    + by intros [= <-].
    + apply Hmk.
Qed.

(** [makedirs] of a path that ends in a name other than [.] makes the
    path a directory. *)
Lemma makedirs_isdir (fuel : nat) (fs fs1 : filesystem) (q : str) :
  Path.basename q <> [] -> Path.basename q <> Path.DOT ->
  makedirs fuel fs q = Ok fs1 -> isdir fs1 q = true.
Proof.
  intros Hb Hdot. destruct fuel as [|fuel]; [done|].
  cbn [makedirs]. unfold Path.split_path.
  rewrite (bool_decide_eq_false_2 (Path.basename q = [])) by done.
  destruct (_ && _).
  - destruct (makedirs fuel fs (Path.dirname q)) as [fs'|e|]; [| |done].
    + cbn [mbind result_bind]. rewrite bool_decide_eq_false_2 by done.
      by intros (? & _)%mkdir_spec.
    + destruct e; try done. cbn [mbind result_bind].
      rewrite bool_decide_eq_false_2 by done.
      by intros (? & _)%mkdir_spec.
  - by intros (? & _)%mkdir_spec.
Qed.

(** ** The object store *)

Lemma hexdigest_is_digest (msg : bytes) : is_digest (SHA1.hexdigest msg).
Proof.
  unfold SHA1.hexdigest. apply format_040x_digest.
  change (16 ^ 40) with (2 ^ 160). apply Z.mod_pos_bound. done.
Qed.

Lemma codepoints_ascii (s : str) :
  Forall (fun b => is_cont b = false) s ->
  codepoints s = (fun b => [b]) <$> s.
Proof.
  induction 1 as [|b s Hb Hs IH]; [done|].
  cbn [codepoints fmap list_fmap]. rewrite IH.
  destruct s as [|c s]; [done|]. cbn [fmap list_fmap].
  by rewrite (Forall_inv Hs).
Qed.

Lemma concat_singletons {A} (l : list A) :
  concat ((fun b => [b]) <$> l) = l.
Proof. induction l; [done|]. cbn. by f_equal. Qed.

Lemma lower_hex_plain (b : byte) :
  is_lower_hex b = true ->
  is_cont b = false /\ b <> SLASH /\ b <> Byte.x2e.
Proof. by destruct b. Qed.

Lemma objects_path_digest (s : str) :
  is_digest s ->
  objects_path s = [B "objects"; take 2 s; drop 2 s]
  /\ plain_name (take 2 s) /\ plain_name (drop 2 s).
Proof.
  intros [Hl Hh]. rewrite forallb_forall in Hh.
  assert (Forall (fun b => is_lower_hex b = true) s) as Hall.
  { apply Forall_forall. intros b Hb. apply Hh. by apply list_elem_of_In. }
  assert (codepoints s = (fun b => [b]) <$> s) as Hcp.
  { apply codepoints_ascii. eapply Forall_impl; [exact Hall|].
    intros b Hb. by apply lower_hex_plain. }
  split.
  - unfold objects_path, str_slice, str_slice_from. rewrite Hcp.
    rewrite slice_inside by (rewrite ?length_fmap; lia).
    unfold slice_from. rewrite length_fmap, Hl.
    change (Z.to_nat (clamp (Z.of_nat 40) 2)) with 2%nat.
    change (Z.to_nat (2 - 0)) with 2%nat. change (Z.to_nat 0) with 0%nat.
    rewrite drop_0, <- fmap_take, <- fmap_drop. by rewrite !concat_singletons.
  - assert (forall t : str, t <> [] -> t ⊆ s -> length t <> 1%nat ->
                            plain_name t) as Hplain.
    { intros t Hne Hsub Hlen.
      assert (forall b, b ∈ t -> b <> SLASH /\ b <> Byte.x2e) as Hb.
      { intros b Hb. pose proof (Hsub b Hb) as Hs.
        rewrite Forall_forall in Hall. by apply lower_hex_plain, Hall. }
      split; [done|]. split; [|split].
      - intros Hin. by destruct (Hb SLASH Hin).
      - intros ->. done.
      - intros ->. destruct (Hb Byte.x2e) as [_ ?]; [by left|done]. }
    split; apply Hplain.
    + destruct s as [|? [|? ?]]; done.
    + apply subseteq_take.
    + rewrite length_take. lia.
    + intros E. apply (f_equal length) in E.
      rewrite length_drop in E. simpl in E. lia.
    + apply subseteq_drop.
    + rewrite length_drop. lia.
Qed.

Lemma rindex_of_app_notin (c : byte) (q a : bytes) :
  c ∉ a -> rindex_of c (q ++ a) = rindex_of c q.
Proof.
  intros Hc. induction q as [|x q IH].
  - cbn [app rindex_of]. induction a as [|y a IH]; [done|].
    apply not_elem_of_cons in Hc as [Hy Hc]. cbn [rindex_of].
    rewrite IH by done.
    by rewrite (proj2 (byte_eqb_false y c)) by congruence.
  - cbn [app rindex_of]. by rewrite IH.
Qed.

Lemma rindex_of_bound (c : byte) (q : bytes) (i : nat) :
  rindex_of c q = Some i -> (i < length q)%nat.
Proof.
  revert i. induction q as [|x q IH]; intros i; [done|]. cbn [rindex_of].
  destruct (rindex_of c q) as [j|].
  - intros [= <-]. specialize (IH j eq_refl). simpl. lia.
  - destruct (byte_eqb x c); [|done]. intros [= <-]. simpl. lia.
Qed.

Lemma basename_app_plain (q a : str) :
  SLASH ∉ a -> exists t, Path.basename (q ++ a) = t ++ a.
Proof.
  intros Ha. unfold Path.basename, rfind, slice_from.
  rewrite rindex_of_app_notin by done.
  assert (exists n, (n <= length q)%nat
            /\ Z.to_nat (clamp (Z.of_nat (length (q ++ a)))
                           (match rindex_of SLASH q with
                            | Some i => Z.of_nat i
                            | None => -1
                            end + 1)) = n) as (n & Hn & ->).
  { eexists. split; [|done]. rewrite length_app. unfold clamp.
    destruct (rindex_of SLASH q) as [i|] eqn:E.
    - apply rindex_of_bound in E.
      destruct (Z.ltb_spec (Z.of_nat i + 1) 0); lia.
    - simpl. lia. }
  exists (drop n q). by rewrite drop_app_le.
Qed.

Section ObjectStore.
Variables (r : GitRepository) (fs : filesystem) (sha : str).
Hypothesis Hsha : is_digest sha.

Let d : str :=
  Path.abspath (cwd fs) (Path.join (gitdir r) [B "objects"; take 2 sha]).
Let p : str :=
  Path.abspath (cwd fs)
    (Path.join (gitdir r) [B "objects"; take 2 sha; drop 2 sha]).

(** Where an object is stored: a file named by the last 38 characters of
    the digest, in a directory named by the first two. *)
Lemma object_file_path :
  p = d ++ SLASH :: drop 2 sha
  /\ Path.dirname p = d /\ Path.basename p = drop 2 sha
  /\ Path.basename d <> [] /\ Path.basename d <> Path.DOT
  /\ (length d < length p)%nat.
Proof.
  destruct (objects_path_digest sha Hsha) as (_ & Ha & Hc).
  assert (Path.join2 (gitdir r) (B "objects") <> []) as Hx
    by (by apply join2_nonempty).
  destruct (abspath_join2_twice (cwd fs) _ _ _ Hx Ha Hc) as (Hp & q & Hq).
  change (d = q ++ take 2 sha) in Hq.
  change (p = d ++ SLASH :: drop 2 sha) in Hp.
  destruct (plain_name_last _ Ha) as (a' & z & Ea & Hz).
  destruct Hc as (_ & Hcs & _). destruct Ha as (Hane & Has & _).
  split; [done|].
  assert (d = (q ++ a') ++ [z]) as Hd by (by rewrite <- app_assoc, <- Ea).
  destruct (split_path_plain (q ++ a') (drop 2 sha) z Hz Hcs) as [H1 H2].
  rewrite <- Hd, <- Hp in H1, H2. split; [done|]. split; [done|].
  destruct (basename_app_plain q (take 2 sha) Has) as (t & Ht).
  assert (Path.basename d = t ++ take 2 sha) as -> by (by rewrite Hq).
  assert (length (take 2 sha) = 2%nat) as Hl2.
  { destruct Hsha as [Hl _]. rewrite length_take. lia. }
  split; [by apply app_nonempty_r|]. split.
  - intros E. apply (f_equal length) in E. rewrite length_app, Hl2 in E.
    simpl in E. lia.
  - rewrite Hp, length_app. simpl. lia.
Qed.
End ObjectStore.

Lemma repo_path_Ok (fs : filesystem) (r : GitRepository) (parts : list str)
    (q : str) :
  repo_path fs r parts = Ok q ->
  q = Path.abspath (cwd fs) (Path.join (gitdir r) parts).
Proof.
  unfold repo_path. cbv zeta. destruct (negb _); [done|]. by intros [= <-].
Qed.

(** [repo_file(..., mkdir=True)] for the place of an object: the directory
    is there afterwards and nothing else that matters has changed. *)
Lemma repo_file_object_mkdir (r : GitRepository) (fs fs1 : filesystem)
    (sha p : str) :
  is_digest sha ->
  repo_file r (objects_path sha) true fs = Ok (Some p, fs1) ->
  repo_path fs r (objects_path sha) = Ok p
  /\ repo_path fs r (removelast (objects_path sha)) = Ok (Path.dirname p)
  /\ cwd fs1 = cwd fs
  /\ isdir fs1 (Path.dirname p) = true
  /\ nodes fs1 !! p = nodes fs !! p.
Proof.
  intros Hsha Hf. destruct (repo_file_Some _ _ _ _ _ _ Hf) as [Hcwd Hp].
  destruct (objects_path_digest sha Hsha) as (Hop & _).
  destruct (object_file_path r fs sha Hsha) as (_ & Hdn & _ & Hb1 & Hb2 & Hlen).
  pose proof (repo_path_Ok _ _ _ _ Hp) as Ep. rewrite Hop in Ep.
  rewrite <- Ep in Hdn, Hlen. 
  unfold repo_file in Hf. rewrite Hop in Hf. rewrite Hop.
  cbn [removelast] in *.
  destruct (repo_dir r [B "objects"; take 2 sha] true fs)
    as [[[d|] fs2]| |] eqn:E; try done.
  cbn [mbind result_bind] in Hf.
  destruct (repo_path fs2 r _) as [p'| |]; try done.
  cbn [mbind result_bind] in Hf. injection Hf as -> ->.
  unfold repo_dir in E.
  destruct (repo_path fs r [B "objects"; take 2 sha]) as [d'| |] eqn:Ed;
    try done.
  pose proof (repo_path_Ok _ _ _ _ Ed) as Ed'.
  rewrite <- Ed' in Hdn, Hb1, Hb2, Hlen.
  cbn [mbind result_bind] in E.
  split; [by rewrite <- Hop|]. split; [by rewrite Hdn|]. split; [done|].
  rewrite Hdn. destruct (exists_ fs d').
  - destruct (isdir fs d') eqn:Edir; [|done]. by injection E as <- <-.
  - destruct (makedirs _ fs d') as [fs3| |] eqn:Em; try done.
    cbn [mbind result_bind] in E. injection E as <- <-.
    split; [by apply makedirs_isdir in Em|].
    apply makedirs_frame in Em as [Hfr _]. by apply Hfr.
Qed.

(** After [object_write] the framed object is in the file of its digest,
    compressed, provided that place was free or held the same bytes. *)
Lemma object_write_stored `{Zlib} (obj : GitObject) (r : GitRepository)
    (fs fs' : filesystem) (sha : str) (data : bytes) :
  serialize obj = Ok data ->
  object_write obj (Some r) fs = Ok (sha, fs') ->
  stored_or_absent r sha (frame (fmt obj) data) fs ->
  sha = SHA1.hexdigest (frame (fmt obj) data)
  /\ exists p,
       repo_file r (objects_path sha) false fs' = Ok (Some p, fs')
       /\ read_file fs' p = Ok (zlib_compress (frame (fmt obj) data)).
Proof.
  intros Hdata Hw Hfree. unfold object_write in Hw. rewrite Hdata in Hw.
  cbn [mbind result_bind] in Hw. fold (frame (fmt obj) data) in Hw.
  set (raw := frame (fmt obj) data) in *.
  pose proof (hexdigest_is_digest raw) as Hsha.
  destruct (repo_file r (objects_path (SHA1.hexdigest raw)) true fs)
    as [[[p|] fs1]| |] eqn:E; try done.
  cbn [mbind result_bind] in Hw.
  destruct (repo_file_object_mkdir _ _ _ _ _ Hsha E)
    as (Hp & Hd & Hcwd & Hdir & Hsame).
  assert (sha = SHA1.hexdigest raw) as ->.
  { destruct (exists_ fs1 p); [by injection Hw as <- _|].
    destruct (replace_file fs1 p _); try done. by injection Hw as <- _. }
  split; [done|]. exists p.
  rewrite <- (repo_path_cwd fs fs1) in Hp, Hd by done.
  destruct (exists_ fs1 p) eqn:Ex.
  - injection Hw as <-. split.
    + by apply repo_file_false_intro with (Path.dirname p).
    + specialize (Hfree p). rewrite (repo_path_cwd fs fs1) in Hp by done.
      specialize (Hfree Hp). unfold read_file. rewrite Hsame.
      unfold exists_ in Ex. apply bool_decide_eq_true in Ex.
      rewrite Hsame in Ex.
      destruct (nodes fs !! p) as [[c st|names]|]; [by subst c|done|].
      by destruct Ex.
  - destruct (replace_file fs1 p (zlib_compress raw)) as [fs2| |] eqn:Ew;
      try done.
    cbn [mbind result_bind] in Hw. injection Hw as <-.
    destruct (repo_file_after_replace r _ fs1 fs2 p _ _ Hp Hd Hdir Ew)
      as (Hf & _ & _ & Hread).
    done.
Qed.

Lemma str_of_int_ascii (n : Z) :
  0 <= n -> forallb (in_range 0 127) (str_of_int n) = true.
Proof.
  intros Hn. rewrite str_of_int_digits by done.
  pose proof (digits_range 10 n ltac:(lia) Hn) as Hr.
  induction Hr as [|d ds Hd Hds IH]; [done|].
  cbn [fmap list_fmap forallb]. rewrite IH, andb_true_r.
  assert (d = 0 \/ d = 1 \/ d = 2 \/ d = 3 \/ d = 4 \/ d = 5 \/ d = 6
          \/ d = 7 \/ d = 8 \/ d = 9) as Hc by lia.
  by repeat destruct Hc as [->|Hc]; [..|subst d].
Qed.

(** The header of a framed object parses back to the kind and the
    length of the payload. *)
Lemma frame_header (kind data : bytes) :
  SP ∉ kind ->
  let raw := frame kind data in
  let x := find SP raw 0 in
  let y := find NUL raw x in
  slice raw 0 x = kind
  /\ decode_ascii (slice raw x y) ≫= int_of_str 10 = Ok (blen data)
  /\ slice_from raw (y + 1) = data.
Proof.
  intros Hk raw x y.
  pose proof (blen_nonneg data) as Hn.
  set (ds := str_of_int (blen data)).
  assert (x = blen kind) as Hx.
  { subst x raw. unfold frame. by apply find_app0. }
  assert (NUL ∉ SP :: ds) as Hnul.
  { intros [E|Hin]%elem_of_cons; [done|].
    by destruct (str_of_int_plain (blen data) NUL Hn Hin). }
  assert (raw = kind ++ (SP :: ds) ++ NUL :: data) as Hraw by done.
  assert (y = blen kind + blen (SP :: ds)) as Hy.
  { subst y. rewrite Hx, Hraw. by apply find_app. }
  split; [|split].
  - rewrite Hx, Hraw. by apply slice_prefix.
  - rewrite Hx, Hy, Hraw.
    rewrite (slice_app_mid kind (SP :: ds) (NUL :: data)) by done.
    unfold decode_ascii. cbn [forallb].
    change (in_range 0 127 SP) with true. cbn [andb].
    unfold ds. rewrite str_of_int_ascii by done.
    cbn [mbind result_bind]. by apply int_of_str_of_int.
  - rewrite Hy, Hraw.
    assert (kind ++ (SP :: ds) ++ NUL :: data
            = (kind ++ (SP :: ds) ++ [NUL]) ++ data) as ->
      by (by rewrite <- !app_assoc).
    apply slice_from_app. unfold blen. rewrite !length_app. simpl. lia.
Qed.

(** What [object_read] makes of a stored frame. *)
Lemma object_read_frame `{ZlibCorrect} `{Interpreter} (r : GitRepository)
    (sha : str)
    (fs fs' : filesystem) (p : str) (kind data : bytes) :
  SP ∉ kind ->
  repo_file r (objects_path sha) false fs = Ok (Some p, fs') ->
  read_file fs p = Ok (zlib_compress (frame kind data)) ->
  object_read r sha fs
  = (if bool_decide (kind = B "commit") then
       kvlm ← deserialize_commit data; Ok (Some (GitCommit kvlm))
     else if bool_decide (kind = B "tree") then
       items ← tree_parse data; Ok (Some (GitTree items))
     else if bool_decide (kind = B "tag") then
       kvlm ← deserialize_commit data; Ok (Some (GitTag kvlm))
     else if bool_decide (kind = B "blob") then Ok (Some (GitBlob data))
     else _ ← decode_ascii kind; Raise (UnknownType kind sha)).
Proof.
  intros Hk Hp Hread.
  rewrite (object_read_unfold r sha fs fs' p _ (frame kind data) Hp Hread)
    by apply zlib_roundtrip.
  destruct (frame_header kind data Hk) as (H1 & H2 & H3).
  rewrite H1, H2, H3. cbn [mbind result_bind]. by rewrite Z.eqb_refl.
Qed.

(** ** Trees *)

Lemma bytes_leb_total (a b : bytes) :
  bytes_leb a b = true \/ bytes_leb b a = true.
Proof.
  revert b. induction a as [|x a IH]; intros [|y b]; cbn [bytes_leb];
    try by (left + right).
  destruct (Z.ltb_spec (byte_val x) (byte_val y)),
    (Z.ltb_spec (byte_val y) (byte_val x)); try lia; try by (left + right).
  apply IH.
Qed.

Lemma bytes_leb_trans (a b c : bytes) :
  bytes_leb a b = true -> bytes_leb b c = true -> bytes_leb a c = true.
Proof.
  revert b c. induction a as [|x a IH]; intros [|y b] [|z c];
    cbn [bytes_leb]; try done.
  destruct (Z.ltb_spec (byte_val x) (byte_val y)),
    (Z.ltb_spec (byte_val y) (byte_val x)),
    (Z.ltb_spec (byte_val y) (byte_val z)),
    (Z.ltb_spec (byte_val z) (byte_val y)),
    (Z.ltb_spec (byte_val x) (byte_val z)),
    (Z.ltb_spec (byte_val z) (byte_val x)); try lia; try done.
  apply IH.
Qed.

Lemma tree_leaf_le_total (a b : GitTreeLeaf) :
  tree_leaf_le a b = true \/ tree_leaf_le b a = true.
Proof. apply bytes_leb_total. Qed.

Lemma tree_leaf_le_trans (a b c : GitTreeLeaf) :
  tree_leaf_le a b = true -> tree_leaf_le b c = true ->
  tree_leaf_le a c = true.
Proof. apply bytes_leb_trans. Qed.

(** Sorting the items of a tree a second time changes nothing. *)
Lemma tree_sorted_idemp (items : list GitTreeLeaf) :
  tree_sorted (tree_sorted items) = tree_sorted items.
Proof.
  unfold tree_sorted. apply sort_by_id.
  apply sort_by_sorted; [apply tree_leaf_le_total|apply tree_leaf_le_trans].
Qed.

Lemma tree_sorted_perm (items : list GitTreeLeaf) :
  tree_sorted items ≡ₚ items.
Proof. apply sort_by_perm. Qed.

Lemma tree_serialize_loop (l : list GitTreeLeaf) (acc : bytes) :
  Forall wf_leaf l ->
  foldl (fun ret i =>
           ret ← ret;
           sha ← int_of_str 16 (sha i);
           raw_sha ← to_bytes sha 20;
           Ok (ret ++ mode i ++ [SP] ++ encode_utf8 (path i) ++ [NUL]
                 ++ raw_sha))
        (Ok acc) l
  = Ok (acc ++ concat (leaf_bytes <$> l)).
Proof.
  intros Hl. revert acc. induction Hl as [|i l Hi Hl IH]; intros acc.
  - cbn. by rewrite app_nil_r.
  - cbn [foldl mbind result_bind].
    destruct Hi as (_ & _ & _ & _ & Hd).
    destruct (int_of_digest _ Hd) as [-> Hr]. cbn [mbind result_bind].
    rewrite to_bytes_ok by (change (256 ^ Z.of_nat 20) with (16 ^ 40); done).
    cbn [mbind result_bind]. rewrite IH. unfold encode_utf8.
    cbn [fmap list_fmap concat]. unfold leaf_bytes at 2.
    by rewrite <- !app_assoc.
Qed.

Lemma tree_serialize_wf (items : list GitTreeLeaf) :
  Forall wf_leaf items ->
  tree_serialize items = Ok (concat (leaf_bytes <$> tree_sorted items)).
Proof.
  intros Hl. unfold tree_serialize.
  rewrite tree_serialize_loop; [done|].
  by rewrite tree_sorted_perm.
Qed.

Lemma blen_leaf_bytes (i : GitTreeLeaf) :
  wf_leaf i -> blen (leaf_bytes i) = 28 + blen (path i).
Proof.
  intros (Hm & _). unfold leaf_bytes, blen.
  rewrite !length_app, length_be_bytes, Hm. simpl. lia.
Qed.

(** One leaf is read back from where it was written. *)
Lemma tree_parse_one_leaf (pre rest : bytes) (i : GitTreeLeaf) :
  wf_leaf i ->
  tree_parse_one (pre ++ leaf_bytes i ++ rest) (blen pre)
  = Ok (blen pre + blen (leaf_bytes i), i).
Proof.
  intros Hwf. pose proof (blen_leaf_bytes i Hwf) as Hlen.
  destruct Hwf as (Hm & Hsp & Hnul & Hutf & Hd).
  destruct i as [m p s]. cbn [mode path sha] in *.
  unfold leaf_bytes in *. cbn [mode path sha] in *.
  set (h := be_bytes 20 (hex_value s)) in *.
  assert (blen m = 6) as Hm' by (unfold blen; lia).
  assert ((pre ++ (m ++ [SP] ++ p ++ [NUL] ++ h) ++ rest)
          = pre ++ m ++ SP :: (p ++ NUL :: h ++ rest)) as Hraw
    by (by rewrite <- !app_assoc).
  rewrite Hraw. set (raw := pre ++ m ++ SP :: _).
  assert (find SP raw (blen pre) = blen pre + 6) as Hx.
  { unfold raw. rewrite find_app by done. lia. }
  assert (raw = (pre ++ m) ++ (SP :: p) ++ NUL :: (h ++ rest)) as Hraw2.
  { unfold raw. by rewrite <- !app_assoc. }
  assert (find NUL raw (blen pre + 6) = blen pre + 7 + blen p) as Hy.
  { rewrite Hraw2, find_app.
    - rewrite !blen_app, blen_cons. lia.
    - rewrite blen_app. lia.
    - intros [E|Hin]%elem_of_cons; done. }
  assert (slice raw (blen pre) (blen pre + 6) = m) as Hsm.
  { unfold raw. apply slice_app_mid; [done|]. unfold blen in *. lia. }
  assert (raw = ((pre ++ m) ++ [SP]) ++ p ++ NUL :: (h ++ rest)) as Hraw3.
  { unfold raw. by rewrite <- !app_assoc. }
  assert (slice raw (blen pre + 6 + 1) (blen pre + 7 + blen p) = p) as Hsp'.
  { rewrite Hraw3.
    apply (slice_app_mid ((pre ++ m) ++ [SP]) p (NUL :: h ++ rest));
      unfold blen in *; rewrite ?length_app; simpl; lia. }
  assert (raw = (((pre ++ m) ++ [SP]) ++ p ++ [NUL]) ++ h ++ rest) as Hraw4.
  { unfold raw. by rewrite <- !app_assoc. }
  assert (slice raw (blen pre + 7 + blen p + 1)
            (blen pre + 7 + blen p + 21) = h) as Hsh.
  { rewrite Hraw4.
    apply (slice_app_mid (((pre ++ m) ++ [SP]) ++ p ++ [NUL]) h rest);
      unfold blen in *; rewrite ?length_app; unfold h;
      rewrite ?length_be_bytes; simpl; lia. }
  unfold tree_parse_one. rewrite Hx. cbv zeta. rewrite Hy, Hsm, Hsp', Hsh.
  replace (blen pre + 6 - blen pre) with 6 by lia.
  cbn [Z.eqb Pos.eqb orb assert mbind result_bind].
  rewrite Hm'. cbn [Z.eqb Pos.eqb].
  unfold h. destruct (int_of_digest s Hd) as [_ Hr].
  rewrite from_be_bytes by (change (256 ^ Z.of_nat 20) with (16 ^ 40); done).
  rewrite format_hex_value by done.
  unfold decode_utf8. rewrite Hutf. cbn [mbind result_bind].
  do 2 f_equal. subst h. rewrite Hlen. lia.
Qed.

Lemma tree_parse_loop_leaves (l : list GitTreeLeaf) :
  Forall wf_leaf l ->
  forall (fuel : nat) (pre : bytes) (ret : list GitTreeLeaf),
    (length l < fuel)%nat ->
    tree_parse_loop fuel (pre ++ concat (leaf_bytes <$> l)) (blen pre) ret
    = Ok (ret ++ l).
Proof.
  induction 1 as [|i l Hi Hl IH]; intros fuel pre ret Hfuel.
  - destruct fuel as [|fuel]; [simpl in Hfuel; lia|].
    cbn [tree_parse_loop fmap list_fmap concat]. rewrite !app_nil_r.
    by rewrite Z.ltb_irrefl.
  - destruct fuel as [|fuel]; [simpl in Hfuel; lia|].
    cbn [tree_parse_loop fmap list_fmap concat].
    pose proof (blen_leaf_bytes i Hi) as Hlen.
    pose proof (blen_nonneg (path i)).
    pose proof (blen_nonneg (concat (leaf_bytes <$> l))).
    destruct (Z.ltb_spec (blen pre)
                (blen (pre ++ leaf_bytes i ++ concat (leaf_bytes <$> l))))
      as [_|Hge]; [|rewrite !blen_app in Hge; lia].
    rewrite tree_parse_one_leaf by done. cbn [mbind result_bind].
    rewrite (app_assoc pre), <- blen_app.
    rewrite IH by (simpl in Hfuel; lia).
    by rewrite <- app_assoc.
Qed.

(** [tree_parse] reads back the leaves [tree_serialize] wrote, in the
    order it sorted them into. *)
Lemma tree_parse_serialize (items : list GitTreeLeaf) :
  Forall wf_leaf items ->
  exists b, tree_serialize items = Ok b
            /\ tree_parse b = Ok (tree_sorted items).
Proof.
  intros Hl. eexists. split; [by apply tree_serialize_wf|].
  unfold tree_parse.
  assert (Forall wf_leaf (tree_sorted items)) as Hs
    by (by rewrite tree_sorted_perm).
  apply (tree_parse_loop_leaves _ Hs _ [] []).
  assert (forall l, Forall wf_leaf l ->
            (length l <= length (concat (leaf_bytes <$> l)))%nat) as Hb.
  { induction 1 as [|i l Hi _ IH]; [done|].
    cbn [fmap list_fmap concat length]. rewrite length_app.
    pose proof (blen_leaf_bytes i Hi). pose proof (blen_nonneg (path i)).
    unfold blen in *. lia. }
  specialize (Hb _ Hs). lia.
Qed.

(** ** Objects *)

Lemma zlib_identity_correct : ZlibCorrect zlib_identity.
Proof. by intros b. Qed.

(** What is parsed from the bytes of a commit serializes to the same
    bytes. *)
Lemma kvlm_serialize_deserialize `{Interpreter} (d : kvlm_dict) :
  wf_kvlm d -> (kvlm_field_lines d < recursion_limit)%nat ->
  exists b d',
    kvlm_serialize d = Ok b /\ deserialize_commit b = Ok d'
    /\ kvlm_serialize d' = Ok b.
Proof.
  intros Hwf Hlen. destruct (wf_kvlm_message d Hwf) as [m Hm].
  pose proof (wf_kvlm_groups d Hwf) as Hg.
  exists (kvlm_lines (group_lines (dict_groups d)) ++ NL :: m).
  exists (groups_dict (dict_groups d) ++ [(None, Single m)]).
  split; [by apply kvlm_serialize_spec|].
  split; [by apply deserialize_commit_groups|].
  by apply kvlm_serialize_groups.
Qed.

(** Parsing a serialized object gives an object of the same kind with the
    same payload. *)
Lemma serialize_parse `{Interpreter} (obj : GitObject) :
  wf_object obj ->
  exists data obj',
    serialize obj = Ok data
    /\ (if bool_decide (fmt obj = B "commit") then
          kvlm ← deserialize_commit data; Ok (Some (GitCommit kvlm))
        else if bool_decide (fmt obj = B "tree") then
          items ← tree_parse data; Ok (Some (GitTree items))
        else if bool_decide (fmt obj = B "tag") then
          kvlm ← deserialize_commit data; Ok (Some (GitTag kvlm))
        else if bool_decide (fmt obj = B "blob") then Ok (Some (GitBlob data))
        else _ ← decode_ascii (fmt obj);
             Raise (UnknownType (fmt obj) [])) = Ok (Some obj')
    /\ fmt obj' = fmt obj /\ serialize obj' = Ok data.
Proof.
  intros Hwf. destruct obj as [data|d|d|items]; cbn [wf_object] in Hwf.
  - exists data, (GitBlob data). done.
  - destruct Hwf as [Hwf Hlen].
    destruct (kvlm_serialize_deserialize d Hwf Hlen)
      as (b & d' & H1 & H2 & H3).
    exists b, (GitCommit d'). cbn [serialize fmt]. rewrite H1.
    split; [done|]. rewrite bool_decide_eq_true_2 by done.
    rewrite H2. done.
  - destruct Hwf as [Hwf Hlen].
    destruct (kvlm_serialize_deserialize d Hwf Hlen)
      as (b & d' & H1 & H2 & H3).
    exists b, (GitTag d'). cbn [serialize fmt]. rewrite H1.
    split; [done|]. rewrite H2. done.
  - destruct (tree_parse_serialize items Hwf) as (b & H1 & H2).
    exists b, (GitTree (tree_sorted items)). cbn [serialize fmt].
    split; [done|]. rewrite H2. split; [done|]. split; [done|].
    rewrite <- H1. unfold tree_serialize. by rewrite tree_sorted_idemp.
Qed.

Lemma fmt_no_space (obj : GitObject) : SP ∉ fmt obj.
Proof.
  destruct obj; apply (bool_decide_unpack _); vm_compute; exact I.
Qed.


